(** * Partition-Compute-Accumulate over DDA: coordinator, worker and tracker

    A shallow embedding of the Go package [compute] of dda-examples:
    the lifecycle [Tracker], the announcement handlers of coordinators and
    workers, the coordinator's for-select loop with its free-worker
    estimate, the worker's handling of a partial computation, the [fac]
    computation and the coordinator command.

    Conventions.  A Go [int] and a [uint64] are integers of [Z] whose
    wrap-around is written out ([Go.wrap_int], [Go.wrap_uint64]; a 64-bit
    platform is assumed).  A Go string is a [string] (a sequence of 8-bit
    characters), a byte slice is an optional [list byte] whose [None] is the
    nil slice.  A Go map used as a set is a [gset string].  A panic is the
    [Panic] outcome. *)

From Stdlib Require Import ZArith Lia List Bool Ascii String Factorial.
From Stdlib.Strings Require Import Byte.
From stdpp Require Import base gmap sets list strings.

Local Open Scope Z_scope.

(** ** Go primitives *)

Module Go.

Definition max_int : Z := 2 ^ 63 - 1.
Definition min_int : Z := - 2 ^ 63.
Definition max_uint64 : Z := 2 ^ 64 - 1.

(** Two's complement reduction of a mathematical integer to an [int]. *)
Definition wrap_int (z : Z) : Z := (z + 2 ^ 63) mod 2 ^ 64 - 2 ^ 63.

(** Reduction to a [uint64]. *)
Definition wrap_uint64 (z : Z) : Z := z mod 2 ^ 64.

Definition int_add (a b : Z) : Z := wrap_int (a + b).
Definition int_sub (a b : Z) : Z := wrap_int (a - b).

(** [a / b] on [int] truncates toward zero; the callers below only divide
    by a divisor they have tested against zero. *)
Definition int_quo (a b : Z) : Z := wrap_int (Z.quot a b).

(** [int64(n)] for a [uint64] n. *)
Definition int64_of_uint64 (n : Z) : Z := wrap_int n.

Definition is_int (z : Z) : Prop := min_int <= z <= max_int.

(** A byte slice; [None] is the nil slice. *)
Definition bytes : Type := option (list byte).

Definition contents (b : bytes) : list byte := default [] b.

Definition len (b : bytes) : Z := Z.of_nat (length (contents b)).

Definition is_nil (b : bytes) : bool :=
  match b with None => true | Some _ => false end.

#[global] Instance byte_eq_decision : EqDecision byte := Byte.byte_eq_dec.

(** [bytes.Equal]: a nil slice equals an empty one. *)
Definition bytes_Equal (a b : bytes) : bool :=
  bool_decide (contents a = contents b).

(** The conversions [[]byte(s)] and [string(b)]. *)
Definition bytes_of_string (s : string) : bytes := Some (list_byte_of_string s).
Definition string_of_bytes (b : bytes) : string := string_of_list_byte (contents b).

(** Outcome of a call that may panic. *)
Inductive outcome (A : Type) : Type :=
| Ok (a : A)
| Panic (msg : string).
Arguments Ok {A} a.
Arguments Panic {A} msg.

#[global] Instance outcome_ret : MRet outcome := fun A a => Ok a.
#[global] Instance outcome_bind : MBind outcome := fun A B k m =>
  match m with
  | Ok a => k a
  | Panic msg => Panic msg
  end.

End Go.

Import Go.

Definition BinaryData : Type := Go.bytes.

(** ** Roles and wire constants (common.go) *)

Definition ActionTypeCompute : string := "ddaexmpls.compute.pcomp".
Definition ActionShareCompute : string := "pcompute".
Definition ActionEventTypeAnnounceCoordinator : string :=
  "ddaexmpls.compute.announceCoordinator".
Definition EventTypeAnnounceWorker : string := "ddaexmpls.compute.announceWorker".

Definition DataAnnounceJoin : BinaryData := bytes_of_string "HELLO".
Definition DataAnnounceLeave : BinaryData := bytes_of_string "BYE".

(** [type ComponentRole int] with three constants declared by iota. *)
Definition ComponentRole : Type := Z.
Definition RoleUndefined : ComponentRole := 0.
Definition RoleCoordinator : ComponentRole := 1.
Definition RoleWorker : ComponentRole := 2.

Definition ComponentRole_String (r : ComponentRole) : string :=
  if r =? RoleCoordinator then "coordinator"
  else if r =? RoleWorker then "worker"
  else "undefined".

Definition ParseComponentRole (r : string) : ComponentRole :=
  if String.eqb r "coordinator" then RoleCoordinator
  else if String.eqb r "worker" then RoleWorker
  else RoleUndefined.

(** ** Message envelopes *)

Record Action : Type := mkAction {
  ac_Type : string;
  ac_Id : string;
  ac_Source : string;
  ac_Params : BinaryData
}.

Record ActionResult : Type := mkActionResult {
  ar_Context : string;
  ar_Data : BinaryData
}.

Record Event : Type := mkEvent {
  ev_Type : string;
  ev_Id : string;
  ev_Source : string;
  ev_Data : BinaryData
}.

(** ** Tracker (tracker.go) *)

Record Tracker : Type := mkTracker {
  coordinators : gset string;
  workers : gset string
}.

Definition NewTracker : Tracker := mkTracker ∅ ∅.

(** The local variable [set] of [TryJoin] aliases one of the two maps, or
    stays the nil map when the switch matches no case. *)
Inductive set_var : Type :=
| SetNil
| SetCoordinators
| SetWorkers.

Definition select_set (role : ComponentRole) : set_var :=
  if role =? RoleCoordinator then SetCoordinators
  else if role =? RoleWorker then SetWorkers
  else SetNil.

Definition set_read (v : set_var) (t : Tracker) : gset string :=
  match v with
  | SetNil => ∅
  | SetCoordinators => coordinators t
  | SetWorkers => workers t
  end.

(** [set[id] = struct{}{}]: a write through the alias; a nil map panics. *)
Definition set_store (v : set_var) (id : string) (t : Tracker) : outcome Tracker :=
  match v with
  | SetNil => Panic "assignment to entry in nil map"
  | SetCoordinators => Ok (mkTracker ({[ id ]} ∪ coordinators t) (workers t))
  | SetWorkers => Ok (mkTracker (coordinators t) ({[ id ]} ∪ workers t))
  end.

Definition TryJoin (role : ComponentRole) (id : string) (t : Tracker)
  : outcome (bool * Tracker) :=
  let set := select_set role in
  if bool_decide (id ∈ set_read set t) then Ok (false, t)
  else t' ← set_store set id t; Ok (true, t').

Definition Leave (role : ComponentRole) (id : string) (t : Tracker) : Tracker :=
  if role =? RoleCoordinator then mkTracker (coordinators t ∖ {[ id ]}) (workers t)
  else if role =? RoleWorker then mkTracker (coordinators t) (workers t ∖ {[ id ]})
  else t.

Definition Count (t : Tracker) : Z * Z :=
  (Z.of_nat (size (coordinators t)), Z.of_nat (size (workers t))).

(** The set of ids tracked under a role. *)
Definition role_set (role : ComponentRole) (t : Tracker) : gset string :=
  set_read (select_set role) t.

Definition valid_role (role : ComponentRole) : Prop :=
  role = RoleCoordinator \/ role = RoleWorker.

(** A tracker whose two sizes are values of type [int], as [len] returns. *)
Definition tracker_fits (t : Tracker) : Prop :=
  Z.of_nat (size (coordinators t)) <= max_int /\
  Z.of_nat (size (workers t)) <= max_int.

(** Sequences of tracker calls. *)
Inductive tracker_call : Type :=
| CallTryJoin (role : ComponentRole) (id : string)
| CallLeave (role : ComponentRole) (id : string).

Definition call_role (c : tracker_call) : ComponentRole :=
  match c with CallTryJoin r _ | CallLeave r _ => r end.

Definition apply_call (c : tracker_call) (t : Tracker) : outcome Tracker :=
  match c with
  | CallTryJoin role id => r ← TryJoin role id t; Ok (snd r)
  | CallLeave role id => Ok (Leave role id t)
  end.

Fixpoint apply_calls (cs : list tracker_call) (t : Tracker) : outcome Tracker :=
  match cs with
  | [] => Ok t
  | c :: cs' => t' ← apply_call c t; apply_calls cs' t'
  end.

(** The last call of the sequence made for [role] and [id]: [Some true] for
    a [TryJoin], [Some false] for a [Leave], [None] when there is none. *)
Fixpoint last_call (role : ComponentRole) (id : string) (cs : list tracker_call)
  : option bool :=
  match cs with
  | [] => None
  | c :: cs' =>
      match last_call role id cs' with
      | Some b => Some b
      | None =>
          match c with
          | CallTryJoin r i =>
              if bool_decide (r = role /\ i = id) then Some true else None
          | CallLeave r i =>
              if bool_decide (r = role /\ i = id) then Some false else None
          end
      end
  end.

(** ** Free-worker estimate (coordinator.go) *)

Record workerFreeState : Type := mkFreeState {
  cc : Z;
  cw : Z;
  pcProc : Z
}.

Definition Free (s : workerFreeState) : Z :=
  if cc s =? 0 then 0
  else int_sub (int_quo (cw s) (cc s)) (pcProc s).

(** ** strconv (Go standard library), as documented, for bases 2 to 36

    Base 0 (prefix detection and underscores) is not modelled: the code only
    calls these functions with base 10.  [bitSize] 0 is the size of [uint],
    64 bits. *)

Module strconv.

Inductive NumError : Type :=
| ErrSyntax
| ErrRange
| ErrBase
| ErrBitSize.

Definition char_code (c : ascii) : Z := Z.of_nat (nat_of_ascii c).

(** [lower(c)] is [c | ('x' - 'X')]. *)
Definition lower (c : Z) : Z := Z.lor c 32.

(** The digit a character stands for; [None] is the [default] case of the
    switch in [ParseUint]. *)
Definition digit_of (c : Z) : option Z :=
  if (48 <=? c) && (c <=? 57) then Some (c - 48)
  else if (97 <=? lower c) && (lower c <=? 122) then Some (lower c - 97 + 10)
  else None.

Fixpoint parse_loop (base cutoff maxVal n : Z) (s : string) : Z * option NumError :=
  match s with
  | EmptyString => (n, None)
  | String c s' =>
      match digit_of (char_code c) with
      | None => (0, Some ErrSyntax)
      | Some d =>
          if d >=? base then (0, Some ErrSyntax)
          else if n >=? cutoff then (maxVal, Some ErrRange)
          else
            let n := wrap_uint64 (n * base) in
            let n1 := wrap_uint64 (n + d) in
            if (n1 <? n) || (n1 >? maxVal) then (maxVal, Some ErrRange)
            else parse_loop base cutoff maxVal n1 s'
      end
  end.

Definition ParseUint (s : string) (base bitSize : Z) : Z * option NumError :=
  if String.eqb s "" then (0, Some ErrSyntax)
  else if negb ((2 <=? base) && (base <=? 36)) then (0, Some ErrBase)
  else
    let bitSize := if bitSize =? 0 then 64 else bitSize in
    if (bitSize <? 0) || (bitSize >? 64) then (0, Some ErrBitSize)
    else
      let cutoff := Z.quot max_uint64 base + 1 in
      let maxVal := wrap_uint64 (Z.shiftl 1 bitSize - 1) in
      parse_loop base cutoff maxVal 0 s.

(** The character of a digit value below 36. *)
Definition digit_char (d : Z) : ascii :=
  ascii_of_nat (Z.to_nat (if d <? 10 then 48 + d else 87 + d)).

(** Digits of [u], most significant first, in front of [acc]; a [uint64]
    has at most 64 digits. *)
Fixpoint format_digits (fuel : nat) (u base : Z) (acc : string) : string :=
  let acc' := String (digit_char (u mod base)) acc in
  match fuel with
  | O => acc'
  | S fuel' =>
      if u <? base then acc' else format_digits fuel' (u / base) base acc'
  end.

Definition FormatUint (u : Z) (base : Z) : string :=
  format_digits 64 u base "".

End strconv.

(** ** fmt: what is written to a stream

    A call [fmt.Fprintf(w, format, args...)] is recorded as such: the format
    is the source text of the format string and the operands keep their
    values. *)

Inductive fmt_arg : Type :=
| ArgString (s : string)
| ArgStrings (l : list string)
| ArgInt (z : Z)
| ArgBigInt (z : Z)
| ArgError (e : string)                              (* an error made by fmt.Errorf *)
| ArgNumError (num : string) (e : strconv.NumError)  (* the *NumError of ParseUint on num *)
| ArgSince (start : Z)                               (* time.Since(start) *)
| ArgSignal (name : string).                         (* an os.Signal *)

Record written : Type := Fprintf {
  w_format : string;
  w_args : list fmt_arg
}.

(** ** The Computation interface (computation.go) *)

Record ComputeRequest : Type := mkRequest {
  req_Name : string;
  req_Args : list string
}.

Definition error : Type := string.

(** A computation.  [cm_State] is the receiver's state once [Partition] has
    accepted a request (the fields the Go comments call "only available in
    Partition, Accumulate, Finalize"); [cm_Chan] is the state of the
    goroutine that feeds the input channel and [cm_recv] one receive from
    that channel: [None] when it is closed, the next input otherwise.
    [Accumulate] and [Finalize] return what they write to the request's
    [OutputWriter]. *)
Record Computation : Type := mkComputation {
  cm_State : Type;
  cm_Chan : Type;
  cm_recv : cm_Chan -> option (BinaryData * cm_Chan);
  Name : string;
  Description : string;
  Partition : ComputeRequest -> error + (cm_State * cm_Chan);
  PartialCompute : BinaryData -> BinaryData;
  PartialComputeTimeout : Z;
  Accumulate : BinaryData -> cm_State -> cm_State * list written;
  Finalize : Z -> cm_State -> list written
}.

(** What the input channel delivers until it is closed, if it is closed
    within [fuel] receives. *)
Fixpoint chan_drain (cm : Computation) (fuel : nat) (ch : cm_Chan cm)
  : option (list BinaryData) :=
  match cm_recv cm ch with
  | None => Some []
  | Some (input, ch') =>
      match fuel with
      | O => None
      | S fuel' => cons input <$> chan_drain cm fuel' ch'
      end
  end.

(** ** The fac computation (registry/fac/fac.go) *)

Module fac.

Record FacState : Type := mkFacState {
  request : ComputeRequest;
  result : Z                      (* the *big.Int *)
}.

(** State of the goroutine started by [Partition]: the loop variable [i]
    and the captured bound [n], both [uint64]. *)
Record FacChan : Type := mkFacChan {
  i : Z;
  n : Z
}.

(** One turn of [for i := uint64(2); i <= n; i++ { in <- ... }], followed
    by [close(in)] when the condition fails. *)
Definition recv (ch : FacChan) : option (BinaryData * FacChan) :=
  if i ch <=? n ch then
    Some (bytes_of_string (strconv.FormatUint (i ch) 10),
          mkFacChan (wrap_uint64 (i ch + 1)) (n ch))
  else None.

Definition Partition (request : ComputeRequest) : error + (FacState * FacChan) :=
  if negb (Z.of_nat (length (req_Args request)) =? 1) then
    inl "one integer argument required"
  else
    match strconv.ParseUint (nth 0 (req_Args request) "") 10 0 with
    | (_, Some _) => inl "one non-negative integer argument required"
    | (n, None) => inr (mkFacState request 1, mkFacChan 2 n)
    end.

(** The identity, after a constant delay. *)
Definition PartialCompute (input : BinaryData) : BinaryData := input.

(** Five seconds, in nanoseconds. *)
Definition PartialComputeTimeout : Z := 5 * 1000000000.

Definition Accumulate (output : BinaryData) (c : FacState) : FacState * list written :=
  match strconv.ParseUint (string_of_bytes output) 10 0 with
  | (_, Some err) =>
      (c, [Fprintf "Skipping undecodable output: %v\n"
             [ArgNumError (string_of_bytes output) err]])
  | (n, None) =>
      (mkFacState (request c) (result c * int64_of_uint64 n), [])
  end.

Definition Finalize (start : Z) (c : FacState) : list written :=
  [ Fprintf "Computation time: %v\n" [ArgSince start];
    Fprintf "Computation %s%v = %v\n"
      [ArgString (req_Name (request c)); ArgStrings (req_Args (request c));
       ArgBigInt (result c)] ].

Definition FacComputation : Computation :=
  mkComputation FacState FacChan recv
    "fac"
    "computes factorial of a given non-negative integer (for demonstration and testing purposes)"
    Partition PartialCompute PartialComputeTimeout Accumulate Finalize.

End fac.

(** ** Registry (registry/registry.go) *)

Record Registry : Type := mkRegistry {
  computations : gmap string Computation
}.

Definition Register (cmp : Computation) (r : Registry) : Registry :=
  mkRegistry (<[ Name cmp := cmp ]> (computations r)).

(** [NewRegistry] registers pi, wf and fac in this order.  The bodies of the
    pi and wf computations (big floats, gob encoding, file input) are not
    part of this development: the two are arguments. *)
Definition NewRegistry (PiComputation WordFrequencyComputation : Computation) : Registry :=
  Register fac.FacComputation
    (Register WordFrequencyComputation
       (Register PiComputation (mkRegistry ∅))).

Definition ComputationByName (name : string) (r : Registry) : option Computation :=
  computations r !! name.

(** A computation of which only the name and the description are given: it
    accepts no request and declines every partial computation, which the
    pi and wf of the source do not.  It fills the places of pi and wf in
    [example_registry], which is evaluated only at requests for fac and for
    names that are not registered, where the registry's answer depends on
    the three names alone. *)
Definition named_only (name description : string) : Computation := {|
  cm_State := unit;
  cm_Chan := unit;
  cm_recv := fun _ => None;
  Name := name;
  Description := description;
  Partition := fun _ => inl "not modelled";
  PartialCompute := fun _ => None;
  PartialComputeTimeout := 0;
  Accumulate := fun _ st => (st, []);
  Finalize := fun _ _ => []
|}.

Definition example_registry : Registry :=
  NewRegistry
    (named_only "pi" "computes π (Pi) up to a given number of decimal digits")
    (named_only "wf"
       "computes frequency of occurrence of words in a set of UTF-8 text documents").

(** ** Lifecycle tracking: what a handler does on one message

    A handler's body is the sequence of tracker calls and action-result
    publications it makes, in program order; [run_effects] carries the
    tracker calls out. *)

Inductive effect : Type :=
| Track (c : tracker_call)
| Reply (ar : ActionResult).

(** Body of the receive loop of [Coordinator.trackCoordinators] for one
    action [ac], in the coordinator whose id is [c_id]. *)
Definition Coordinator_trackCoordinators (c_id : string) (ac : Action) : list effect :=
  let src := ac_Source ac in
  let id := ac_Id ac in
  let params := ac_Params ac in
  if bytes_Equal params DataAnnounceJoin then
    if negb (String.eqb id c_id) then
      [ Track (CallTryJoin (ParseComponentRole src) id);
        Reply (mkActionResult (ComponentRole_String RoleCoordinator) (bytes_of_string c_id)) ]
    else []
  else [ Track (CallLeave (ParseComponentRole src) id) ].

(** Body of the receive loop of [Coordinator.trackWorkers] for one event. *)
Definition Coordinator_trackWorkers (evt : Event) : list effect :=
  let src := ev_Source evt in
  if bytes_Equal (ev_Data evt) DataAnnounceJoin then
    [ Track (CallTryJoin (ParseComponentRole src) (ev_Id evt)) ]
  else [ Track (CallLeave (ParseComponentRole src) (ev_Id evt)) ].

(** Body of the receive loop of [Coordinator.announce] for one reply. *)
Definition Coordinator_announce_recv (ar : ActionResult) : list effect :=
  let id := string_of_bytes (ar_Data ar) in
  [ Track (CallTryJoin (ParseComponentRole (ar_Context ar)) id) ].

(** Body of the loop of [Worker.trackCoordinators] for one action, in the
    worker whose id is [w_id].  A worker holds no tracker. *)
Definition Worker_trackCoordinators (w_id : string) (ac : Action) : list effect :=
  if bytes_Equal (ac_Params ac) DataAnnounceJoin then
    [ Reply (mkActionResult (ComponentRole_String RoleWorker) (bytes_of_string w_id)) ]
  else [].

Fixpoint run_effects (es : list effect) (t : Tracker)
  : outcome (Tracker * list ActionResult) :=
  match es with
  | [] => Ok (t, [])
  | Track c :: es' => t' ← apply_call c t; run_effects es' t'
  | Reply ar :: es' =>
      r ← run_effects es' t; Ok (fst r, ar :: snd r)
  end.

(** The two kinds of components that subscribe to announceCoordinator. *)
Inductive component : Type :=
| AsCoordinator (id : string)
| AsWorker (id : string).

Definition own_id (c : component) : string :=
  match c with AsCoordinator id | AsWorker id => id end.

Definition own_role (c : component) : ComponentRole :=
  match c with AsCoordinator _ => RoleCoordinator | AsWorker _ => RoleWorker end.

Definition on_announceCoordinator (c : component) (ac : Action) : list effect :=
  match c with
  | AsCoordinator id => Coordinator_trackCoordinators id ac
  | AsWorker id => Worker_trackCoordinators id ac
  end.

(** ** Worker: one partial computation (worker.go) *)

Definition handlePartialComputation (w_id : string) (reg : Registry) (ac : Action)
  : list ActionResult :=
  match ComputationByName (ac_Id ac) reg with
  | None => []
  | Some cm =>
      let output := PartialCompute cm (ac_Params ac) in
      if is_nil output then []
      else [ mkActionResult w_id output ]
  end.

(** ** Coordinator: dispatch of one partial computation *)

Inductive status_code : Type :=
| Canceled
| DeadlineExceeded
| Unavailable
| StreamEnded.          (* io.EOF and every other error *)

(** What the substrate answers to one published compute action. *)
Inductive dispatch_reply : Type :=
| PublishFailed (code : status_code)
| RecvFailed (code : status_code)
| RecvResult (ar : ActionResult).

Record partialResult : Type := mkPartialResult {
  pr_data : BinaryData;
  pr_workerId : string;
  pr_resubmit : option status_code
}.

Definition compute_action (c_id : string) (cm : Computation) (input : BinaryData) : Action :=
  mkAction ActionTypeCompute (Name cm) c_id input.

(** What [performPartialComputation] sends on [completed], if anything. *)
Definition performPartialComputation (input : BinaryData) (r : dispatch_reply)
  : option partialResult :=
  match r with
  | PublishFailed Canceled => None
  | PublishFailed code => Some (mkPartialResult input "" (Some code))
  | RecvFailed Canceled => None
  | RecvFailed code => Some (mkPartialResult input "" (Some code))
  | RecvResult ar => Some (mkPartialResult (ar_Data ar) (ar_Context ar) None)
  end.

(** ** Coordinator: the for-select loop of partitionAccumulate *)

(** Calls the loop goroutine makes, kept in program order. *)
Inductive loop_call : Type :=
| DidDispatch (input : BinaryData)       (* go c.performPartialComputation(...) *)
| DidAccumulate (data : BinaryData)      (* cm.Accumulate(res.data) *)
| DidFinalize (start : Z)                (* cm.Finalize(start) *)
| DidFailureMessage.                     (* the Fprintf of the failFast branch *)

(** The cases of the select statement.  [CaseCompleted k r] is the receive
    from [pcCompleted] of what the [k]-th running helper sends when the
    substrate answers it with [r]. *)
Inductive select_case : Type :=
| CaseDone
| CaseIn
| CaseResubmit
| CaseCompleted (k : nat) (r : dispatch_reply)
| CaseDefault.

Section Loop.

Context (cm : Computation) (req : ComputeRequest) (start : Z).

(** Variables of the goroutine.  [in_] is [None] once the variable [in]
    is set to nil; [pcResubmit] is the content of the buffered channel;
    [helpers] holds the inputs of the helper goroutines that have not yet
    sent their completion. *)
Record LoopState : Type := mkLoop {
  in_ : option (cm_Chan cm);
  l_pcProc : Z;
  pcResubmit : list BinaryData;
  failFast : bool;
  cmState : cm_State cm;
  output : list written;
  helpers : list BinaryData;
  calls : list loop_call
}.

Definition pcResubmit_cap : Z := 100.

Definition loop_init (st : cm_State cm) (ch : cm_Chan cm) : LoopState :=
  mkLoop (Some ch) 0 [] false st [] [] [].

Inductive iter_result : Type :=
| Continue (s : LoopState)
| Break (s : LoopState).

Definition set_failFast (s : LoopState) : LoopState :=
  mkLoop (in_ s) (l_pcProc s) (pcResubmit s) true (cmState s) (output s)
    (helpers s) (calls s).

(** [pcProc++] and [go c.performPartialComputation(ctx, cm, input, pcCompleted)]. *)
Definition dispatch (input : BinaryData) (s : LoopState) : LoopState :=
  mkLoop (in_ s) (int_add (l_pcProc s) 1) (pcResubmit s) (failFast s) (cmState s)
    (output s) (helpers s ++ [input]) (calls s ++ [DidDispatch input]).

Definition all_completed (s : LoopState) : bool :=
  (l_pcProc s =? 0) && (Z.of_nat (length (pcResubmit s)) =? 0).

Definition in_is_nil (s : LoopState) : bool :=
  match in_ s with None => true | Some _ => false end.

(** One iteration of the loop, [count] being what [c.tracker.Count()]
    returns and [sel] the case the select statement takes; [None] when
    that case cannot be taken in this state. *)
Definition loop_iter (count : Z * Z) (sel : select_case) (s : LoopState)
  : option iter_result :=
  let currentFreeState := mkFreeState (fst count) (snd count) (l_pcProc s) in
  let free := 0 <? Free currentFreeState in
  match sel with
  | CaseDone => Some (Break (set_failFast s))
  | CaseIn =>
      match (if free then in_ s else None) with
      | None => None
      | Some ch =>
          match cm_recv cm ch with
          | None =>
              let s1 := mkLoop None (l_pcProc s) (pcResubmit s) (failFast s)
                          (cmState s) (output s) (helpers s) (calls s) in
              if all_completed s1 then Some (Break s1) else Some (Continue s1)
          | Some (input, ch') =>
              let s1 := mkLoop (Some ch') (l_pcProc s) (pcResubmit s) (failFast s)
                          (cmState s) (output s) (helpers s) (calls s) in
              Some (Continue (dispatch input s1))
          end
      end
  | CaseResubmit =>
      match (if free then pcResubmit s else []) with
      | [] => None
      | input :: queue =>
          let s1 := mkLoop (in_ s) (l_pcProc s) queue (failFast s)
                      (cmState s) (output s) (helpers s) (calls s) in
          Some (Continue (dispatch input s1))
      end
  | CaseCompleted k r =>
      match helpers s !! k with
      | None => None
      | Some input =>
          match performPartialComputation input r with
          | None => None
          | Some res =>
              let s1 := mkLoop (in_ s) (int_sub (l_pcProc s) 1) (pcResubmit s)
                          (failFast s) (cmState s) (output s)
                          (delete k (helpers s)) (calls s) in
              match pr_resubmit res with
              | Some _ =>
                  if Z.of_nat (length (pcResubmit s1)) <? pcResubmit_cap then
                    Some (Continue
                      (mkLoop (in_ s1) (l_pcProc s1) (pcResubmit s1 ++ [pr_data res])
                         (failFast s1) (cmState s1) (output s1) (helpers s1) (calls s1)))
                  else Some (Break (set_failFast s1))
              | None =>
                  if len (pr_data res) =? 0 then Some (Break (set_failFast s1))
                  else
                    let '(st', ws) := Accumulate cm (pr_data res) (cmState s1) in
                    let s2 := mkLoop (in_ s1) (l_pcProc s1) (pcResubmit s1) (failFast s1)
                                st' (output s1 ++ ws) (helpers s1)
                                (calls s1 ++ [DidAccumulate (pr_data res)]) in
                    if in_is_nil s2 && all_completed s2 then Some (Break s2)
                    else Some (Continue s2)
              end
          end
      end
  | CaseDefault => Some (Continue s)
  end.

Definition failure_message : written :=
  Fprintf "Computation %s%v failed\n" [ArgString (req_Name req); ArgStrings (req_Args req)].

(** The statements after the loop. *)
Definition after_loop (s : LoopState) : LoopState :=
  if negb (failFast s) then
    mkLoop (in_ s) (l_pcProc s) (pcResubmit s) (failFast s) (cmState s)
      (output s ++ Finalize cm start (cmState s)) (helpers s)
      (calls s ++ [DidFinalize start])
  else
    mkLoop (in_ s) (l_pcProc s) (pcResubmit s) (failFast s) (cmState s)
      (output s ++ [failure_message]) (helpers s)
      (calls s ++ [DidFailureMessage]).

(** A helper that returns without sending: its call was canceled. *)
Definition helper_canceled (k : nat) (s : LoopState) : option LoopState :=
  match helpers s !! k with
  | None => None
  | Some _ =>
      Some (mkLoop (in_ s) (l_pcProc s) (pcResubmit s) (failFast s) (cmState s)
              (output s) (delete k (helpers s)) (calls s))
  end.

End Loop.

Arguments Continue {cm} s.
Arguments Break {cm} s.

(** ** A running coordinator: tracker goroutines and loop goroutine *)

Inductive sys_event : Type :=
| EvAnnounceReply (ar : ActionResult)       (* a reply to the join announcement *)
| EvCoordinatorAction (ac : Action)         (* an announceCoordinator action *)
| EvWorkerEvent (evt : Event)               (* an announceWorker event *)
| EvHelperCanceled (k : nat)                (* a helper returns without sending *)
| EvIter (sel : select_case).               (* one iteration of the loop *)

Section System.

Context (cm : Computation) (req : ComputeRequest) (start : Z) (c_id : string).

Record Sys : Type := mkSys {
  tracker : Tracker;
  loop : LoopState cm;
  exited : bool                 (* the loop goroutine has left the loop *)
}.

(** The loop goroutine at its first iteration, [t] being the tracker at
    that time. *)
Definition sys_init (t : Tracker) (st : cm_State cm) (ch : cm_Chan cm) : Sys :=
  mkSys t (loop_init cm st ch) false.

Definition fits (t : Tracker) : bool :=
  (Z.of_nat (size (coordinators t)) <=? max_int) &&
  (Z.of_nat (size (workers t)) <=? max_int).

(** A tracking goroutine runs a handler body.  A map never holds more
    entries than an [int] counts: such a step does not exist. *)
Definition track (es : list effect) (s : Sys) : option (outcome Sys) :=
  match run_effects es (tracker s) with
  | Panic msg => Some (Panic msg)
  | Ok (t', _) =>
      if fits t' then Some (Ok (mkSys t' (loop s) (exited s))) else None
  end.

(** One step of the coordinator: [None] when the event cannot take place
    in this state, a panic when the body of a tracking goroutine panics.
    What becomes of the process then is told by [Start]. *)
Definition sys_step (e : sys_event) (s : Sys) : option (outcome Sys) :=
  match e with
  | EvAnnounceReply ar => track (Coordinator_announce_recv ar) s
  | EvCoordinatorAction ac => track (Coordinator_trackCoordinators c_id ac) s
  | EvWorkerEvent evt => track (Coordinator_trackWorkers evt) s
  | EvHelperCanceled k =>
      l ← helper_canceled cm k (loop s);
      Some (Ok (mkSys (tracker s) l (exited s)))
  | EvIter sel =>
      if exited s then None
      else
        match loop_iter cm (Count (tracker s)) sel (loop s) with
        | None => None
        | Some (Continue l) => Some (Ok (mkSys (tracker s) l false))
        | Some (Break l) =>
            Some (Ok (mkSys (tracker s) (after_loop cm req start l) true))
        end
  end.

(** The states a schedule visits, up to the first event that cannot take
    place or crashes. *)
Fixpoint sys_states (tr : list sys_event) (s : Sys) : list Sys :=
  match tr with
  | [] => []
  | e :: tr' =>
      match sys_step e s with
      | Some (Ok s') => s' :: sys_states tr' s'
      | _ => []
      end
  end.

(** The state a schedule ends in, or the panic that ends it; [None] when
    an event of the schedule cannot take place. *)
Fixpoint sys_exec (tr : list sys_event) (s : Sys) : option (outcome Sys) :=
  match tr with
  | [] => Some (Ok s)
  | e :: tr' =>
      match sys_step e s with
      | Some (Ok s') => sys_exec tr' s'
      | Some (Panic msg) => Some (Panic msg)
      | None => None
      end
  end.

(** The coordinator's share [W / C] of the workers for the counts of a
    state. *)
Definition share (s : Sys) : Z :=
  snd (Count (tracker s)) / fst (Count (tracker s)).

Definition pcProc_of (s : Sys) : Z := l_pcProc cm (loop s).

(** The bound of the rate limit at a state, between two iterations. *)
Definition rate_limit_bound (s : Sys) : Prop :=
  pcProc_of s <= Z.max 1 (share s).

Definition is_finalize (c : loop_call) : bool :=
  match c with DidFinalize _ => true | _ => false end.

Definition count_finalize (cs : list loop_call) : nat :=
  length (List.filter is_finalize cs).

End System.

(** ** Coordinator.Start and the coordinator command (cmd/coordinator) *)

(** First part of [partitionAccumulate]: lookup and [Partition].  Returns
    what is printed on standard output ([fmt.Println(err)] is recorded with
    the format "%v\n") and, unless an error is returned, the computation
    with its state and input channel. *)
Definition partitionAccumulate_setup (reg : Registry) (req : ComputeRequest)
  : list written * option { cm : Computation & (cm_State cm * cm_Chan cm)%type } :=
  match ComputationByName (req_Name req) reg with
  | None =>
      ([Fprintf "%v\n" [ArgError (req_Name req ++ " is not defined")]], None)
  | Some cm =>
      match Partition cm req with
      | inl err => ([Fprintf "Invalid input arguments: %v\n" [ArgError err]], None)
      | inr p => ([], Some (existT cm p))
      end
  end.

(** The action [Coordinator.announce] publishes. *)
Definition Coordinator_announce (c_id : string) (join : bool) : Action :=
  mkAction ActionEventTypeAnnounceCoordinator c_id (ComponentRole_String RoleCoordinator)
    (if join then DataAnnounceJoin else DataAnnounceLeave).

(** The goroutines of a coordinator that call the tracker: the one that
    [announce] starts to receive the replies to HELLO, and the two tracking
    goroutines.  Each of them runs [defer c.finalize()]. *)
Inductive tracking_goroutine : Type :=
| AnnounceReplies
| TrackCoordinators
| TrackWorkers.

Definition same_goroutine (a b : tracking_goroutine) : bool :=
  match a, b with
  | AnnounceReplies, AnnounceReplies
  | TrackCoordinators, TrackCoordinators
  | TrackWorkers, TrackWorkers => true
  | _, _ => false
  end.

(** The goroutine that handles an event and the body it runs for it; [None]
    for the events of the loop goroutine and its helpers. *)
Definition tracking (c_id : string) (e : sys_event)
  : option (tracking_goroutine * list effect) :=
  match e with
  | EvAnnounceReply ar => Some (AnnounceReplies, Coordinator_announce_recv ar)
  | EvCoordinatorAction ac => Some (TrackCoordinators, Coordinator_trackCoordinators c_id ac)
  | EvWorkerEvent evt => Some (TrackWorkers, Coordinator_trackWorkers evt)
  | EvHelperCanceled _ | EvIter _ => None
  end.

(** A tracking goroutine in which [TryJoin] has panicked runs its deferred
    [c.finalize()], which blocks in [c.finalized <- struct{}{}] until
    [Start] receives from that channel: the goroutine handles no further
    event, the other goroutines go on, and the panic ends the process only
    once [Start] has received.  [blocked] lists such goroutines with their
    panic values, in the order in which they panicked. *)
Definition is_blocked (g : tracking_goroutine)
    (blocked : list (tracking_goroutine * string)) : bool :=
  existsb (fun p => same_goroutine g p.1) blocked.

(** What happens in a coordinator process after [main] has printed its
    banner: the goroutine started by [main] receives a termination signal,
    prints its line and closes [signaled], upon which [main] calls
    [cancel]; or one of the goroutines of the coordinator takes a step. *)
Inductive main_event : Type :=
| Signal (name : string)
| Step (e : sys_event).

Definition signal_line (name : string) : written :=
  Fprintf "Terminating coordinator on signal %v...\n" [ArgSignal name].

(** What the environment of one run provides: the sidecar connection and
    the subscriptions may fail; otherwise [early] is what happens before
    [partitionAccumulate] is called and [sched] what happens after it has
    started the loop goroutine, and [surfaces] tells whether the panic of
    a blocked tracking goroutine, once [Start] has received from
    [c.finalized], ends the process before [main] has returned. *)
Inductive start_env : Type :=
| DialFails
| SubscribeActionFails
| SubscribeEventFails
| Serves (early sched : list main_event) (surfaces : bool).

(** The coordinator before the loop goroutine runs: its tracker, the
    tracking goroutines that have panicked, and the signal received. *)
Record Early : Type := mkEarly {
  early_tracker : Tracker;
  early_blocked : list (tracking_goroutine * string);
  early_signal : option string
}.

Definition early_step (c_id : string) (ev : main_event) (x : Early) : option Early :=
  match ev with
  | Signal name =>
      match early_signal x with
      | Some _ => None          (* the goroutine of [main] reads one signal only *)
      | None => Some (mkEarly (early_tracker x) (early_blocked x) (Some name))
      end
  | Step e =>
      match tracking c_id e with
      | None => None            (* the loop goroutine does not run yet *)
      | Some (g, es) =>
          if is_blocked g (early_blocked x) then None
          else
            match run_effects es (early_tracker x) with
            | Panic msg =>
                Some (mkEarly (early_tracker x) (early_blocked x ++ [(g, msg)])
                        (early_signal x))
            | Ok (t', _) =>
                if fits t' then Some (mkEarly t' (early_blocked x) (early_signal x))
                else None
            end
      end
  end.

Fixpoint early_exec (c_id : string) (tr : list main_event) (x : Early) : option Early :=
  match tr with
  | [] => Some x
  | ev :: tr' => x' ← early_step c_id ev x; early_exec c_id tr' x'
  end.

Section Process.

Context (cm : Computation) (req : ComputeRequest) (start : Z) (c_id : string).

(** The coordinator while the loop goroutine runs.  [run_signal] is the
    signal received, with the number of writes the loop goroutine had made
    to the output writer, which is standard output, when the signal line
    was printed. *)
Record Run : Type := mkRun {
  run_sys : Sys cm;
  run_blocked : list (tracking_goroutine * string);
  run_signal : option (nat * string)
}.

Definition is_done (e : sys_event) : bool :=
  match e with EvIter CaseDone => true | _ => false end.

Definition signaled (r : Run) : bool :=
  match run_signal r with Some _ => true | None => false end.

(** One step of the process.  The context of the loop is done only once
    [main] has called [cancel] (the loop goroutine and [Start] cancel it
    after the loop only), so the loop takes its [ctx.Done()] case only
    after a signal. *)
Definition run_step (ev : main_event) (r : Run) : option Run :=
  match ev with
  | Signal name =>
      match run_signal r with
      | Some _ => None
      | None =>
          Some (mkRun (run_sys r) (run_blocked r)
                  (Some (length (output cm (loop cm (run_sys r))), name)))
      end
  | Step e =>
      match tracking c_id e with
      | Some (g, _) =>
          if is_blocked g (run_blocked r) then None
          else
            match sys_step cm req start c_id e (run_sys r) with
            | None => None
            | Some (Ok s') => Some (mkRun s' (run_blocked r) (run_signal r))
            | Some (Panic msg) =>
                Some (mkRun (run_sys r) (run_blocked r ++ [(g, msg)]) (run_signal r))
            end
      | None =>
          if is_done e && negb (signaled r) then None
          else
            match sys_step cm req start c_id e (run_sys r) with
            | Some (Ok s') => Some (mkRun s' (run_blocked r) (run_signal r))
            | _ => None
            end
      end
  end.

Fixpoint run_exec (tr : list main_event) (r : Run) : option Run :=
  match tr with
  | [] => Some r
  | ev :: tr' => r' ← run_step ev r; run_exec tr' r'
  end.

End Process.

(** The coordinator when [partitionAccumulate] starts the loop goroutine. *)
Definition run_init (cm : Computation) (x : Early) (st : cm_State cm) (ch : cm_Chan cm)
  : Run cm :=
  mkRun cm (sys_init cm (early_tracker x) st ch) (early_blocked x)
    (match early_signal x with
     | Some name => Some (0%nat, name)
     | None => None
     end).

(** Standard output: the writes of the loop goroutine with the signal line
    at the place where it was printed. *)
Definition with_signal (sig : option (nat * string)) (out : list written) : list written :=
  match sig with
  | None => out
  | Some (k, name) => take k out ++ signal_line name :: drop k out
  end.

(** What a call of [Start] has done when it ends: what the process has
    written on standard output since the banner of [main], the
    announcements [Start] has published, and the panic value when the call
    ends in the crash of the process. *)
Record start_result : Type := mkStartResult {
  sr_stdout : list written;
  sr_announced : list Action;
  sr_panic : option string
}.

(** [Start], up to its return or the crash of the process; [None] when an
    event cannot take place or the loop goroutine is still in its loop at
    the end of the schedule.

    [Start] returns at once when an initialization fails, and right after
    [partitionAccumulate] when that returns an error: it has then
    announced HELLO, does not announce BYE, and does not receive from
    [c.finalized], so that a tracking goroutine that has panicked stays
    blocked until [main] returns.  Otherwise it waits for the context to be
    done, announces BYE and receives from [c.finalized].  It is taken to
    do so when the loop goroutine has left the loop and written its last
    output.  A tracking goroutine that has panicked before is a sender on
    [c.finalized] then: the process crashes when that goroutine goes on
    before [main] has returned, and otherwise [main] returns.  Diagnostics
    go to the logger and are not part of standard output; publishing the
    announcements is taken to succeed. *)
Definition Start (reg : Registry) (c_id : string) (start : Z) (req : ComputeRequest)
    (env : start_env) : option start_result :=
  match TryJoin RoleCoordinator c_id NewTracker with
  | Panic msg => Some (mkStartResult [] [] (Some msg))
  | Ok (_, t0) =>
      match env with
      | DialFails | SubscribeActionFails | SubscribeEventFails =>
          Some (mkStartResult [] [] None)
      | Serves early sched surfaces =>
          match early_exec c_id early (mkEarly t0 [] None) with
          | None => None
          | Some x =>
              let hello := Coordinator_announce c_id true in
              match partitionAccumulate_setup reg req with
              | (out, None) =>
                  Some (mkStartResult
                          (match early_signal x with
                           | Some name => [signal_line name]
                           | None => []
                           end ++ out)
                          [hello] None)
              | (out, Some (existT cm (st, ch))) =>
                  match run_exec cm req start c_id sched (run_init cm x st ch) with
                  | None => None
                  | Some r =>
                      if exited cm (run_sys cm r) then
                        Some (mkStartResult
                                (out ++ with_signal (run_signal cm r)
                                          (output cm (loop cm (run_sys cm r))))
                                [hello; Coordinator_announce c_id false]
                                (if surfaces then head (run_blocked cm r).*2 else None))
                      else None
                  end
              end
          end
      end
  end.

Record Flags : Type := mkFlags {
  flag_d : string;
  flag_h : bool;
  flag_l : bool;
  flag_Args : list string          (* flag.Args() *)
}.

(** How the process ends: by [os.Exit] or the return of [main], with a
    status, or by the crash that follows a panic, with the panic value;
    and what it has printed on standard output. *)
Inductive process_end : Type :=
| Exited (status : Z) (stdout : list written)
| Crashed (msg : string) (stdout : list written).

(** The exit status of the process: the Go runtime ends a process that
    panics with status 2. *)
Definition exit_status (e : process_end) : Z :=
  match e with
  | Exited status _ => status
  | Crashed _ _ => 2
  end.

(** First line of [usage]; the list of computations and of flag defaults
    that follow it are left out. *)
Definition usage : list written :=
  [Fprintf "usage: coordinator [-h|--help] [-l] [-d ddaAddress] computation [arguments...]" []].

(** [main] of the coordinator command, the flags being parsed. *)
Definition coordinator_main (reg : Registry) (c_id : string) (start : Z)
    (flags : Flags) (env : start_env) : option process_end :=
  let computation := nth 0 (flag_Args flags) "" in
  if flag_h flags || String.eqb computation "" then Some (Exited 0 usage)
  else
    let request := mkRequest computation (drop 1 (flag_Args flags)) in
    let banner :=
      Fprintf "Starting a coordinator to compute %s%v...\n"
        [ArgString (req_Name request); ArgStrings (req_Args request)] in
    match Start reg c_id start request env with
    | None => None
    | Some r =>
        match sr_panic r with
        | Some msg => Some (Crashed msg (banner :: sr_stdout r))
        | None => Some (Exited 0 (banner :: sr_stdout r))
        end
    end.

(** ** Statements about the handling of announcements *)

Definition is_hello (ac : Action) : Prop := bytes_Equal (ac_Params ac) DataAnnounceJoin = true.
Definition is_bye (ac : Action) : Prop := bytes_Equal (ac_Params ac) DataAnnounceLeave = true.

Definition join_call (ac : Action) : effect :=
  Track (CallTryJoin (ParseComponentRole (ac_Source ac)) (ac_Id ac)).

Definition leave_call (ac : Action) : effect :=
  Track (CallLeave (ParseComponentRole (ac_Source ac)) (ac_Id ac)).

Definition own_reply (c : component) : effect :=
  Reply (mkActionResult (ComponentRole_String (own_role c)) (bytes_of_string (own_id c))).

(** The handling of an announceCoordinator action by a component that is
    uniform over coordinators and workers: join and reply once on HELLO from
    another id, nothing on the echo of one's own HELLO, leave on BYE. *)
Definition uniform_announce_handling (c : component) (ac : Action) : Prop :=
  (own_id c <> ac_Id ac -> is_hello ac ->
   on_announceCoordinator c ac = [join_call ac; own_reply c]) /\
  (own_id c = ac_Id ac -> is_hello ac -> on_announceCoordinator c ac = []) /\
  (own_id c <> ac_Id ac -> is_bye ac ->
   on_announceCoordinator c ac = [leave_call ac]).

(** ** Statements about decimal strings and the fac computation *)

Definition is_digit (c : ascii) : bool :=
  (48 <=? strconv.char_code c) && (strconv.char_code c <=? 57).

Fixpoint is_decimal (s : string) : bool :=
  match s with
  | EmptyString => true
  | String c s' => is_digit c && is_decimal s'
  end.

(** Value of a string of decimal digits read after the value [n]. *)
Fixpoint dec_value (n : Z) (s : string) : Z :=
  match s with
  | EmptyString => n
  | String c s' => dec_value (n * 10 + (strconv.char_code c - 48)) s'
  end.

(** The cutoff of [ParseUint] in base 10. *)
Definition cutoff10 : Z := Z.quot max_uint64 10 + 1.

(** The input the fac partition emits for [i]. *)
Definition encode (i : Z) : BinaryData := bytes_of_string (strconv.FormatUint i 10).

Definition factorial (n : Z) : Z := Z.of_nat (fact (Z.to_nat n)).

(** [Accumulate] called on each output in turn. *)
Definition accumulate_all (outs : list BinaryData) (c : fac.FacState) : fac.FacState :=
  fold_left (fun c o => fst (fac.Accumulate o c)) outs c.

Definition fac_Partition_accepts (s : string) : Prop :=
  exists st ch, fac.Partition (mkRequest "fac" [s]) = inr (st, ch).

(** The statement that [Partition] accepts every non-negative decimal
    integer. *)
Definition fac_accepts_every_decimal : Prop :=
  forall s, s <> ""%string -> is_decimal s = true -> fac_Partition_accepts s.

(** ** Statements about the loop *)

Definition state_of {cm : Computation} (r : iter_result cm) : LoopState cm :=
  match r with Continue s | Break s => s end.

(** The select case and state in which an iteration sets [failFast]: the
    context is done, or a helper delivers a resubmit while the queue is
    full, or a helper delivers a result without data. *)
Definition fail_fast_cause {cm : Computation} (sel : select_case) (s : LoopState cm) : Prop :=
  match sel with
  | CaseDone => True
  | CaseCompleted k r =>
      exists input res,
        helpers cm s !! k = Some input /\
        performPartialComputation input r = Some res /\
        ((pr_resubmit res <> None /\ pcResubmit_cap <= Z.of_nat (length (pcResubmit cm s))) \/
         (pr_resubmit res = None /\ len (pr_data res) = 0))
  | _ => False
  end.

(** A reply that makes [performPartialComputation] ask for a resubmit: an
    error other than a cancellation, on publishing or on receiving. *)
Definition resubmit_error (r : dispatch_reply) : Prop :=
  exists code, code <> Canceled /\ (r = PublishFailed code \/ r = RecvFailed code).

(** Counting invariant of a running coordinator. *)
Definition counting_inv {cm : Computation} (s : Sys cm) : Prop :=
  fits (tracker cm s) = true /\
  Z.of_nat (length (helpers cm (loop cm s))) <= l_pcProc cm (loop cm s) <= max_int.

(** What the calls and the output of the loop goroutine look like, while it
    is in the loop and after it has left it. *)
Definition finalize_inv {cm : Computation} (req : ComputeRequest) (start : Z)
    (s : Sys cm) : Prop :=
  let l := loop cm s in
  if exited cm s then
    if failFast cm l then
      count_finalize (calls cm l) = 0%nat /\
      exists cs ws, calls cm l = cs ++ [DidFailureMessage] /\
                    output cm l = ws ++ [failure_message req]
    else
      count_finalize (calls cm l) = 1%nat /\
      in_ cm l = None /\ l_pcProc cm l = 0 /\ pcResubmit cm l = [] /\
      exists cs ws, calls cm l = cs ++ [DidFinalize start] /\
                    output cm l = ws ++ Finalize cm start (cmState cm l)
  else
    failFast cm l = false /\ count_finalize (calls cm l) = 0%nat.

(** The schedule of a coordinator c1 that computes fac 5: two workers join,
    two inputs are dispatched, then both workers leave and the loop makes
    one more iteration. *)
Definition workers_leave_schedule : list sys_event :=
  [ EvWorkerEvent (mkEvent EventTypeAnnounceWorker "w1" "worker" DataAnnounceJoin);
    EvWorkerEvent (mkEvent EventTypeAnnounceWorker "w2" "worker" DataAnnounceJoin);
    EvIter CaseIn;
    EvIter CaseIn;
    EvWorkerEvent (mkEvent EventTypeAnnounceWorker "w1" "worker" DataAnnounceLeave);
    EvWorkerEvent (mkEvent EventTypeAnnounceWorker "w2" "worker" DataAnnounceLeave);
    EvIter CaseDefault ].

Definition fac5_request : ComputeRequest := mkRequest "fac" ["5"%string].

Definition fac5_init : Sys fac.FacComputation :=
  sys_init fac.FacComputation (mkTracker {[ "c1"%string ]} ∅)
    (fac.mkFacState fac5_request 1) (fac.mkFacChan 2 5).

(** A coordinator c1 with one worker that computes fac 0: the first receive
    on the input channel finds it closed. *)
Definition fac0_request : ComputeRequest := mkRequest "fac" ["0"%string].

Definition fac0_init : Sys fac.FacComputation :=
  sys_init fac.FacComputation (mkTracker {[ "c1"%string ]} {[ "w1"%string ]})
    (fac.mkFacState fac0_request 1) (fac.mkFacChan 2 0).

Definition fac0_final : Sys fac.FacComputation :=
  mkSys fac.FacComputation (mkTracker {[ "c1"%string ]} {[ "w1"%string ]})
    (mkLoop fac.FacComputation None 0 [] false (fac.mkFacState fac0_request 1)
       (fac.Finalize 7 (fac.mkFacState fac0_request 1)) [] [DidFinalize 7])
    true.

(** The states a coordinator visits, the first one included. *)
Definition visited (cm : Computation) (req : ComputeRequest) (start : Z) (c_id : string)
    (tr : list sys_event) (s0 : Sys cm) : list (Sys cm) :=
  s0 :: sys_states cm req start c_id tr s0.

(** ** Statements about the coordinator command *)

(** The tracker after [c.tracker.TryJoin(RoleCoordinator, c.id)]. *)
Definition self_tracker (c_id : string) : Tracker := mkTracker ({[ c_id ]} ∪ ∅) ∅.

Definition banner (req : ComputeRequest) : written :=
  Fprintf "Starting a coordinator to compute %s%v...\n"
    [ArgString (req_Name req); ArgStrings (req_Args req)].

Definition request_of (flags : Flags) : ComputeRequest :=
  mkRequest (nth 0 (flag_Args flags) "") (drop 1 (flag_Args flags)).

(** The process ends with a status other than 0. *)
Definition exits_nonzero (r : option process_end) : Prop :=
  exists e, r = Some e /\ exit_status e <> 0.

(** The coordinator when [Start] has registered its own id. *)
Definition early_init (c_id : string) : Early := mkEarly (self_tracker c_id) [] None.

(** The signal line printed before [partitionAccumulate] is called. *)
Definition early_out (x : Early) : list written :=
  match early_signal x with
  | Some name => [signal_line name]
  | None => []
  end.

(** The announcement that an event delivers names the role coordinator or
    worker. *)
Definition names_known_role (ev : main_event) : Prop :=
  match ev with
  | Step (EvAnnounceReply ar) => valid_role (ParseComponentRole (ar_Context ar))
  | Step (EvCoordinatorAction ac) => valid_role (ParseComponentRole (ac_Source ac))
  | Step (EvWorkerEvent evt) => valid_role (ParseComponentRole (ev_Source evt))
  | _ => True
  end.

(** fac 0 with a worker w1 and a reply to HELLO that names the role
    observer, received before the loop goroutine starts. *)
Definition flags_fac0 : Flags := mkFlags ":8900" false false ["fac"%string; "0"%string].

Definition observer_replies : list main_event :=
  [ Step (EvWorkerEvent (mkEvent EventTypeAnnounceWorker "w1" "worker" DataAnnounceJoin));
    Step (EvAnnounceReply (mkActionResult "observer" (bytes_of_string "o1"))) ].

(** Three command lines: an unknown computation, an argument that fac
    rejects, and fac 5 interrupted by a termination signal. *)
Definition flags_unknown : Flags := mkFlags ":8900" false false ["sum"%string].
Definition flags_rejected : Flags := mkFlags ":8900" false false ["fac"%string; "five"%string].
Definition flags_fac5 : Flags := mkFlags ":8900" false false ["fac"%string; "5"%string].

(** ** Further code: identifiers and announcements (common.go, coordinator.go,
    worker.go) *)

(** [strings.Index(s, substr)]: the index of the first instance of [substr]
    in [s], or -1. *)
Fixpoint strings_Index (s substr : string) : Z :=
  if String.prefix substr s then 0
  else
    match s with
    | EmptyString => -1
    | String _ s' =>
        let i := strings_Index s' substr in
        if i =? -1 then -1 else i + 1
    end.

Definition UuidShort (uuid : string) : string :=
  let i := strings_Index uuid "-" in
  if negb (i =? -1) then String.substring 0 (Z.to_nat i) uuid else uuid.

(** The event [Worker.announce] publishes. *)
Definition Worker_announce (w_id : string) (join : bool) : Event :=
  mkEvent EventTypeAnnounceWorker w_id (ComponentRole_String RoleWorker)
    (if join then DataAnnounceJoin else DataAnnounceLeave).

(** A tracking event that removes the coordinator's own id from its
    coordinator set: a leave for that id with the role coordinator. *)
Definition leaves_self (c_id : string) (e : sys_event) : Prop :=
  match e with
  | EvCoordinatorAction ac =>
      bytes_Equal (ac_Params ac) DataAnnounceJoin = false /\
      ParseComponentRole (ac_Source ac) = RoleCoordinator /\ ac_Id ac = c_id
  | EvWorkerEvent evt =>
      bytes_Equal (ev_Data evt) DataAnnounceJoin = false /\
      ParseComponentRole (ev_Source evt) = RoleCoordinator /\ ev_Id evt = c_id
  | _ => False
  end.

(** The number of ids tracked under a role. *)
Definition count_of (role : ComponentRole) (t : Tracker) : Z :=
  Z.of_nat (size (role_set role t)).

(** ** Further statements about the registry *)

(** Every computation of the registry is found under its own name. *)
Definition names_agree (r : Registry) : Prop :=
  forall name cm, ComputationByName name r = Some cm -> Name cm = name.

(** ** Further statements about runs of the loop *)

(** The data passed to [Accumulate], in call order. *)
Fixpoint accumulated (cs : list loop_call) : list BinaryData :=
  match cs with
  | [] => []
  | DidAccumulate d :: cs' => d :: accumulated cs'
  | _ :: cs' => accumulated cs'
  end.

(** [Accumulate] called on each output in turn: the state reached and what
    has been written. *)
Definition accumulate_seq (cm : Computation) (outs : list BinaryData)
    (st : cm_State cm) : cm_State cm * list written :=
  fold_left
    (fun acc o => let '(st', w) := Accumulate cm o (fst acc) in (st', snd acc ++ w))
    outs (st, []).

(** The first [n] inputs the channel delivers and the state it is left in;
    [None] when it is closed before. *)
Fixpoint chan_take (cm : Computation) (n : nat) (ch : cm_Chan cm)
  : option (list BinaryData * cm_Chan cm) :=
  match n with
  | O => Some ([], ch)
  | S n' =>
      match cm_recv cm ch with
      | None => None
      | Some (x, ch1) => (fun p => (x :: fst p, snd p)) <$> chan_take cm n' ch1
      end
  end.

(** An event of a run in which no helper is canceled and every result a
    helper receives carries the output of [PartialCompute] on the helper's
    input. *)
Definition honest_event {cm : Computation} (s : Sys cm) (e : sys_event) : Prop :=
  match e with
  | EvHelperCanceled _ => False
  | EvIter (CaseCompleted k (RecvResult ar)) =>
      forall input, helpers cm (loop cm s) !! k = Some input ->
                    ar_Data ar = PartialCompute cm input
  | _ => True
  end.

Fixpoint honest_run (cm : Computation) (req : ComputeRequest) (start : Z)
    (c_id : string) (tr : list sys_event) (s : Sys cm) : Prop :=
  match tr with
  | [] => True
  | e :: tr' =>
      honest_event s e /\
      match sys_step cm req start c_id e s with
      | Some (Ok s') => honest_run cm req start c_id tr' s'
      | _ => True
      end
  end.

(** The schedule that dispatches one input at a time to worker [w_id] and
    waits for its result, then finds the input channel closed. *)
Fixpoint sequential_schedule (cm : Computation) (w_id : string)
    (inputs : list BinaryData) : list sys_event :=
  match inputs with
  | [] => [EvIter CaseIn]
  | x :: inputs' =>
      EvIter CaseIn
      :: EvIter (CaseCompleted 0 (RecvResult (mkActionResult w_id (PartialCompute cm x))))
      :: sequential_schedule cm w_id inputs'
  end.

(** While the loop runs, [failFast] is unset and [in] is not nil; once it
    is left, [failFast] is set. *)
Definition starved_inv {cm : Computation} (s : Sys cm) : Prop :=
  if exited cm s then failFast cm (loop cm s) = true
  else failFast cm (loop cm s) = false /\ in_ cm (loop cm s) <> None.

(** A coordinator c1 without any worker that computes fac 0, left waiting
    and then interrupted. *)
Definition fac0_alone : Sys fac.FacComputation :=
  sys_init fac.FacComputation (mkTracker {[ "c1"%string ]} ∅)
    (fac.mkFacState fac0_request 1) (fac.mkFacChan 2 0).

Definition wait_then_signal : list sys_event := [EvIter CaseDefault; EvIter CaseDone].

(** Conservation of inputs in the loop: the inputs taken from the channel
    [ch0] so far are, as outputs, those accumulated and those still in
    flight or queued for resubmission; the computation's state and the
    output are what the calls of [Accumulate] made them, followed by [fin]. *)
Definition loop_conservation {cm : Computation} (st0 : cm_State cm) (ch0 : cm_Chan cm)
    (fin : list written) (l : LoopState cm) : Prop :=
  exists n taken ch',
    chan_take cm n ch0 = Some (taken, ch') /\
    match in_ cm l with
    | Some c => c = ch'
    | None => cm_recv cm ch' = None
    end /\
    PartialCompute cm <$> taken
      ≡ₚ accumulated (calls cm l) ++ (PartialCompute cm <$> (helpers cm l ++ pcResubmit cm l)) /\
    cmState cm l = fst (accumulate_seq cm (accumulated (calls cm l)) st0) /\
    output cm l = snd (accumulate_seq cm (accumulated (calls cm l)) st0) ++ fin.

Definition conservation_inv {cm : Computation} (start : Z) (st0 : cm_State cm)
    (ch0 : cm_Chan cm) (s : Sys cm) : Prop :=
  failFast cm (loop cm s) = false ->
  loop_conservation st0 ch0
    (if exited cm s then Finalize cm start (cmState cm (loop cm s)) else [])
    (loop cm s).

(** The select case is honest for the state: see [honest_event]. *)
Definition honest_case {cm : Computation} (l : LoopState cm) (sel : select_case) : Prop :=
  match sel with
  | CaseCompleted k (RecvResult ar) =>
      forall input, helpers cm l !! k = Some input -> ar_Data ar = PartialCompute cm input
  | _ => True
  end.

(** A coordinator c1 with one worker w1 that computes fac 5. *)
Definition fac5_one_worker : Tracker := mkTracker {[ "c1"%string ]} {[ "w1"%string ]}.

Definition fac5_inputs : list BinaryData := encode <$> [2; 3; 4; 5].

(** The factor [Accumulate] of fac multiplies the result with: the decoded
    output as an [int64], or 1 when the output is skipped. *)
Definition fac_value (o : BinaryData) : Z :=
  match strconv.ParseUint (string_of_bytes o) 10 0 with
  | (_, Some _) => 1
  | (n, None) => int64_of_uint64 n
  end.

Definition fac_product (outs : list BinaryData) : Z :=
  foldr (fun o acc => fac_value o * acc) 1 outs.

(** What the variable [in] of the loop is: the input channel [ch0] after
    some receives, or nil once a receive has found it closed. *)
Definition chan_inv {cm : Computation} (ch0 : cm_Chan cm) (l : LoopState cm) : Prop :=
  match in_ cm l with
  | Some c => exists n taken, chan_take cm n ch0 = Some (taken, c)
  | None => exists fuel inputs, chan_drain cm fuel ch0 = Some inputs
  end.

(** The largest argument fac accepts. *)
Definition fac_max_request : ComputeRequest := mkRequest "fac" ["18446744073709551615"%string].

(** ** The worker command (cmd/worker/main.go) *)

(** [strconv.Atoi(s)]: [strconv.ParseInt(s, 10, 0)] converted to [int]. *)
Definition Atoi (s : string) : Z * option strconv.NumError :=
  match s with
  | EmptyString => (0, Some strconv.ErrSyntax)
  | String c s' =>
      let neg := Ascii.eqb c "-" in
      let digits := if Ascii.eqb c "+" || neg then s' else s in
      match strconv.ParseUint digits 10 0 with
      | (_, Some strconv.ErrRange) =>
          (if neg then min_int else max_int, Some strconv.ErrRange)
      | (_, Some e) => (0, Some e)
      | (un, None) =>
          let cutoff := 2 ^ 63 in
          if negb neg && (un >=? cutoff) then (max_int, Some strconv.ErrRange)
          else if neg && (un >? cutoff) then (min_int, Some strconv.ErrRange)
          else (if neg then wrap_int (- wrap_int un) else wrap_int un, None)
      end
  end.

(** [err != nil]. *)
Definition not_nil (err : option strconv.NumError) : bool :=
  match err with Some _ => true | None => false end.

Definition defaultWorkers : Z := 10.
Definition maxWorkers : Z := 100.

(** What [main] of the worker command does before it starts workers:
    it shows the usage and exits, refuses the count, or goes on to start
    [count] workers. *)
Inductive worker_start : Type :=
| ShowsUsage
| RefusesCount (stdout : list written)
| StartsWorkers (count : Z).

Definition worker_main_count (help : bool) (args : list string) : worker_start :=
  if negb (String.eqb (nth 1 args "") "") || help then ShowsUsage
  else
    let '(count, err) := Atoi (nth 0 args "") in
    if not_nil err && String.eqb (nth 0 args "") "" then StartsWorkers 10
    else if not_nil err || (count <? 1) || (count >? maxWorkers) then
      RefusesCount [Fprintf "Number of workers must be between 1 and %d\n" [ArgInt maxWorkers]]
    else StartsWorkers count.

(** How the initializations of [Worker.Start] turn out. *)
Inductive worker_env : Type :=
| InitDdaFails
| OpenFails
| TrackFails
| SubscribeFails
| WorkerServes.

Definition serves (env : worker_env) : bool :=
  match env with WorkerServes => true | _ => false end.

(** Where the goroutine of [Worker.Start] is: not yet run, blocked in
    [<-ctx.Done()], blocked in the deferred send on [completed], or
    returned. *)
Inductive worker_status : Type :=
| NotStarted
| AwaitsDone
| SendsCompleted
| Returned.

Record WorkerProc : Type := mkWorkerProc {
  wp_id : string;
  wp_env : worker_env;
  wp_status : worker_status;
  wp_published : list Event;        (* events passed to PublishEvent *)
  wp_errors : list string           (* formats passed to Errorf by Start *)
}.

Definition start_error (env : worker_env) : list string :=
  match env with
  | InitDdaFails => ["Failed initializing DDA: %v"%string]
  | OpenFails => ["Failed opening DDA: %v"%string]
  | TrackFails => ["Failed tracking coordinators: %v"%string]
  | SubscribeFails => ["Failed subscribing computations: %v"%string]
  | WorkerServes => []
  end.

(** [Worker.Start] up to the point where it blocks for the first time. *)
Definition Worker_Start_runs (w : WorkerProc) : WorkerProc :=
  if serves (wp_env w) then
    mkWorkerProc (wp_id w) (wp_env w) AwaitsDone
      (wp_published w ++ [Worker_announce (wp_id w) true]) (wp_errors w)
  else
    mkWorkerProc (wp_id w) (wp_env w) SendsCompleted (wp_published w)
      (wp_errors w ++ start_error (wp_env w)).

(** [Worker.Start] from [<-ctx.Done()] to the deferred send. *)
Definition Worker_Start_shuts_down (w : WorkerProc) : WorkerProc :=
  mkWorkerProc (wp_id w) (wp_env w) SendsCompleted
    (wp_published w ++ [Worker_announce (wp_id w) false]) (wp_errors w).

Definition Worker_Start_returns (w : WorkerProc) : WorkerProc :=
  mkWorkerProc (wp_id w) (wp_env w) Returned (wp_published w) (wp_errors w).

(** The worker process after [main] has started its workers: the loop
    variable [sw], whether [signaled] has been set to nil, how often
    [cancel] was called, and the workers. *)
Record WorkerMain : Type := mkWorkerMain {
  wm_sw : Z;
  wm_signaled_nil : bool;
  wm_cancels : nat;
  wm_workers : list WorkerProc
}.

Definition worker_main_init (ws : list (string * worker_env)) : WorkerMain :=
  mkWorkerMain (Z.of_nat (length ws)) false 0
    ((fun p => mkWorkerProc (fst p) (snd p) NotStarted [] []) <$> ws).

Inductive worker_main_event : Type :=
| GoStart (i : nat)           (* worker i runs up to its first blocking point *)
| GoShutdown (i : nat)        (* worker i finds ctx done and runs to the deferred send *)
| CaseSignaled                (* main takes [case <-signaled] *)
| CaseCompletedBy (i : nat).  (* main takes [case <-completed], the sender being worker i *)

Definition ctx_done (m : WorkerMain) : bool := negb (wm_cancels m =? 0)%nat.

(** One step of the process; [None] when the step cannot be taken.  Once
    [sw] is 0, [main] returns and the process is gone. *)
Definition worker_main_step (e : worker_main_event) (m : WorkerMain) : option WorkerMain :=
  if negb (0 <? wm_sw m) then None
  else
    match e with
    | GoStart i =>
        w ← wm_workers m !! i;
        match wp_status w with
        | NotStarted =>
            Some (mkWorkerMain (wm_sw m) (wm_signaled_nil m) (wm_cancels m)
                    (<[i := Worker_Start_runs w]> (wm_workers m)))
        | _ => None
        end
    | GoShutdown i =>
        w ← wm_workers m !! i;
        match wp_status w with
        | AwaitsDone =>
            if ctx_done m then
              Some (mkWorkerMain (wm_sw m) (wm_signaled_nil m) (wm_cancels m)
                      (<[i := Worker_Start_shuts_down w]> (wm_workers m)))
            else None
        | _ => None
        end
    | CaseSignaled =>
        if wm_signaled_nil m then None
        else Some (mkWorkerMain (wm_sw m) true (S (wm_cancels m)) (wm_workers m))
    | CaseCompletedBy i =>
        w ← wm_workers m !! i;
        match wp_status w with
        | SendsCompleted =>
            Some (mkWorkerMain (int_sub (wm_sw m) 1) (wm_signaled_nil m) (wm_cancels m)
                    (<[i := Worker_Start_returns w]> (wm_workers m)))
        | _ => None
        end
    end.

Fixpoint worker_main_exec (tr : list worker_main_event) (m : WorkerMain) : option WorkerMain :=
  match tr with
  | [] => Some m
  | e :: tr' => m' ← worker_main_step e m; worker_main_exec tr' m'
  end.

(** The workers whose goroutine has not returned. *)
Fixpoint not_returned (ws : list WorkerProc) : Z :=
  match ws with
  | [] => 0
  | w :: ws' =>
      (match wp_status w with Returned => 0 | _ => 1 end) + not_returned ws'
  end.

(** What a worker has published and logged, given where it is. *)
Definition worker_proc_inv (w : WorkerProc) : Prop :=
  match wp_status w with
  | NotStarted => wp_published w = [] /\ wp_errors w = []
  | AwaitsDone =>
      serves (wp_env w) = true /\
      wp_published w = [Worker_announce (wp_id w) true] /\ wp_errors w = []
  | SendsCompleted | Returned =>
      if serves (wp_env w) then
        wp_published w = [Worker_announce (wp_id w) true; Worker_announce (wp_id w) false] /\
        wp_errors w = []
      else wp_published w = [] /\ wp_errors w = start_error (wp_env w)
  end.

Definition worker_main_inv (m : WorkerMain) : Prop :=
  wm_sw m = not_returned (wm_workers m) /\
  Z.of_nat (length (wm_workers m)) <= max_int /\
  (wm_cancels m <= 1)%nat /\
  (wm_signaled_nil m = false -> wm_cancels m = 0%nat) /\
  Forall worker_proc_inv (wm_workers m) /\
  Forall (fun w => serves (wp_env w) = true -> ctx_done m = false ->
                   wp_status w = NotStarted \/ wp_status w = AwaitsDone) (wm_workers m).

(** Two workers, the second of which cannot open its DDA instance; the
    first one serves until the process is signaled. *)
Definition two_workers : list (string * worker_env) :=
  [("w1"%string, WorkerServes); ("w2"%string, OpenFails)].

Definition two_workers_run : list worker_main_event :=
  [GoStart 0; GoStart 1; CaseCompletedBy 1; CaseSignaled; GoShutdown 0; CaseCompletedBy 0].

Definition worker_ids (m : WorkerMain) : list (string * worker_env) :=
  (fun w => (wp_id w, wp_env w)) <$> wm_workers m.

(** ** The wf computation (registry/wf/wf.go)

    [Partition], [partitionFile] and [Accumulate]; the file system, the
    glob matcher and the gob decoder are given from outside. *)

Module wf.

(** [type WordFrequency = map[string]int]. *)
Definition WordFrequency : Type := gmap string Z.

Record WfState : Type := mkWfState {
  request : ComputeRequest;
  result : WordFrequency;
  fileCount : Z
}.

(** What [os.Open] and the line scanner give for a path: an error, or the
    lines (without their end-of-line markers) and the error the scanner
    ended with, if any. *)
Inductive file : Type :=
| Unopenable (err : string)
| Opened (lines : list (list byte)) (scan_err : option string).

(** The variables of the loop of [partitionFile] and what has been sent. *)
Record scan : Type := mkScan {
  paragraph : list byte;
  eop : bool;
  sent : list BinaryData
}.

Definition newline : byte := x0a.

(** One turn of [for scanner.Scan()]. *)
Definition scan_line (s : scan) (line : list byte) : scan :=
  if Z.of_nat (length line) =? 0 then
    if eop s then s
    else mkScan [] true (sent s ++ [Some (paragraph s)])
  else mkScan ((paragraph s ++ line) ++ [newline]) false (sent s).

(** The paragraphs [partitionFile] sends for the lines of a file. *)
Definition paragraphs (lines : list (list byte)) : list BinaryData :=
  let s := fold_left scan_line lines (mkScan [] false []) in
  sent s ++ (if Z.of_nat (length (paragraph s)) =? 0 then [] else [Some (paragraph s)]).

Definition partitionFile (path : string) (f : file) (c : WfState)
  : WfState * list BinaryData * list written :=
  let c1 := mkWfState (request c) (result c) (int_add (fileCount c) 1) in
  match f with
  | Unopenable err =>
      (c1, [], [Fprintf "Skipping unopenable file %s: %v\n" [ArgString path; ArgError err]])
  | Opened lines scan_err =>
      (c1, paragraphs lines,
       match scan_err with
       | Some err =>
           [Fprintf "Error encountered reading file %s: %v\n" [ArgString path; ArgError err]]
       | None => []
       end)
  end.

(** The goroutine of [Partition] for one glob; [glob] is
    [doublestar.FilepathGlob], [None] standing for its error. *)
Definition partition_glob (glob : string -> option (list string)) (fs : string -> file)
    (acc : WfState * list BinaryData * list written) (pattern : string)
  : WfState * list BinaryData * list written :=
  match glob pattern with
  | None =>
      (acc.1.1, acc.1.2,
       acc.2 ++ [Fprintf "Skipping bad file glob pattern: %s\n" [ArgString pattern]])
  | Some [] =>
      (acc.1.1, acc.1.2,
       acc.2 ++ [Fprintf "No matches for file glob pattern: %s\n" [ArgString pattern]])
  | Some matches =>
      fold_left
        (fun acc path =>
           let '(c, inputs, out) := partitionFile path (fs path) acc.1.1 in
           (c, acc.1.2 ++ inputs, acc.2 ++ out))
        matches acc
  end.

(** [Partition]: the error, or the state, the inputs sent on the channel
    and the output written once the goroutine has closed the channel. *)
Definition Partition (glob : string -> option (list string)) (fs : string -> file)
    (request : ComputeRequest) : error + (WfState * list BinaryData * list written) :=
  if Z.of_nat (length (req_Args request)) =? 0 then
    inl "specify file globs (with ?, *, **, [], {}), e.g. f?o/**/bar-*.txt"
  else
    inr (fold_left (partition_glob glob fs) (req_Args request)
           (mkWfState request ∅ 0, [], [])).

(** [for word, count := range data { c.result[word] += count }], the
    entries being visited in the order [entries]. *)
Definition range_add (entries : list (string * Z)) (r : WordFrequency) : WordFrequency :=
  fold_left (fun r e => <[e.1 := int_add (default 0 (r !! e.1)) e.2]> r) entries r.

(** [Accumulate]; [decodeOutput] is the gob decoder and [range] the order
    in which the runtime visits the entries of a map. *)
Definition Accumulate (decodeOutput : BinaryData -> error + WordFrequency)
    (range : WordFrequency -> list (string * Z))
    (output : BinaryData) (c : WfState) : WfState * list written :=
  match decodeOutput output with
  | inl err => (c, [Fprintf "Skipping undecodable output: %v\n" [ArgError err]])
  | inr data => (mkWfState (request c) (range_add (range data) (result c)) (fileCount c), [])
  end.

End wf.

(** The paths the globs of a request match, in the order they are visited. *)
Definition wf_matches (glob : string -> option (list string)) (args : list string)
  : list string :=
  concat ((fun g => default [] (glob g)) <$> args).

Definition wf_nonempty (p : BinaryData) : Prop := contents p <> [] /\ is_nil p = false.

(** The word count [Accumulate] leaves for a word. *)
Definition wf_added (data r : wf.WordFrequency) (w : string) : option Z :=
  match data !! w with
  | Some c => Some (int_add (default 0 (r !! w)) c)
  | None => r !! w
  end.

Definition wf_hello_world_lines : list (list byte) :=
  [ []; contents (bytes_of_string "hello"); contents (bytes_of_string "world"); []; [];
    contents (bytes_of_string "bye") ].

(** While [eop] is set the paragraph is empty, and it is not empty
    otherwise: the state of the loop after its first turn. *)
Definition scan_inv (s : wf.scan) : Prop :=
  if wf.eop s then wf.paragraph s = [] else wf.paragraph s <> [].

(** The paragraphs [partitionFile] sends for a path. *)
Definition wf_file_inputs (fs : string -> wf.file) (path : string) : list BinaryData :=
  match fs path with
  | wf.Opened lines _ => wf.paragraphs lines
  | wf.Unopenable _ => []
  end.

(** A directory with a.txt, which can be read, and b.txt, which cannot;
    a request with a pattern that matches both and a malformed pattern. *)
Definition wf_example_glob (pattern : string) : option (list string) :=
  if String.eqb pattern "*.txt" then Some ["a.txt"%string; "b.txt"%string] else None.

Definition wf_example_fs (path : string) : wf.file :=
  if String.eqb path "a.txt" then wf.Opened wf_hello_world_lines None
  else wf.Unopenable "permission denied".

Definition wf_example_request : ComputeRequest := mkRequest "wf" ["*.txt"%string; "["%string].

(** A decoder and two outputs for it, standing for the gob decoder. *)
Definition wf_example_decode (output : BinaryData) : error + wf.WordFrequency :=
  if bytes_Equal output (bytes_of_string "1") then inr {[ "a"%string := 2; "b"%string := 1 ]}
  else if bytes_Equal output (bytes_of_string "2") then inr {[ "a"%string := 3 ]}
  else inl "unexpected EOF".

(** Another coordinator, [p_id], handling announcements in turn. *)
Fixpoint peer_handles (p_id : string) (acs : list Action) (t : Tracker) : outcome Tracker :=
  match acs with
  | [] => Ok t
  | ac :: acs' =>
      r ← run_effects (Coordinator_trackCoordinators p_id ac) t;
      peer_handles p_id acs' r.1
  end.

Definition request_rejected (reg : Registry) (req : ComputeRequest) : Prop :=
  (partitionAccumulate_setup reg req).2 = None.

Definition sum_request : ComputeRequest := mkRequest "sum" ["1"%string; "2"%string].

(** ** The pi computation (registry/pi/pi.go)

    The argument check of [Partition] and the integers of [PartialCompute];
    the floating-point part of the computation is not modelled. *)

Module pi.

(** [MulRange(a, b)] of [math/big.Int]: the product of all integers in [a, b],
    which is 1 when a > b. *)
Definition MulRange (a b : Z) : Z := foldr Z.mul 1 (seqZ a (b - a + 1)).

Definition int64_add (a b : Z) : Z := wrap_int (a + b).
Definition int64_mul (a b : Z) : Z := wrap_int (a * b).

(** The numbers of decimal digits [Partition] accepts: the first part of
    [Partition], up to [c.request = request]. *)
Definition Partition_digits (request : ComputeRequest) : error + Z :=
  if negb (Z.of_nat (length (req_Args request)) =? 1) then
    inl "one positive integer argument required"
  else
    match strconv.ParseUint (nth 0 (req_Args request) "") 10 0 with
    | (_, Some _) => inl "one positive integer argument required"
    | (digits, None) =>
        if digits =? 0 then inl "one positive integer argument required"
        else inr digits
    end.

(** The big integers [k6f] and [mkd] that [PartialCompute] computes for
    the iteration value [K] before it divides them as floats. *)
Definition mk_integers (K : Z) : Z * Z :=
  let kf := MulRange 2 K in
  let k3f := MulRange (int64_add K 1) (int64_mul 3 K) in
  let k3f := kf * k3f in
  let k6f := MulRange (int64_add (int64_mul 3 K) 1) (int64_mul 6 K) in
  let k6f := k3f * k6f in
  let mkd := kf ^ 3 in
  let mkd := k3f * mkd in
  (k6f, mkd).

End pi.

(** A schedule in which no helper returns without sending its result. *)
Definition no_cancel (tr : list sys_event) : Prop :=
  Forall (fun e => match e with EvHelperCanceled _ => False | _ => True end) tr.

(** Once the signal line is printed it stays where it is, and the loop
    goroutine only adds to its output. *)
Definition signal_inv {cm : Computation} (r : Run cm) : Prop :=
  match run_signal cm r with
  | Some (k, _) => (k <= length (output cm (loop cm (run_sys cm r))))%nat
  | None => True
  end.

(** The coordinator of fac 0 once the loop is left, the goroutine that
    receives the replies to HELLO having panicked before. *)
Definition fac0_blocked_run : Run fac.FacComputation :=
  mkRun fac.FacComputation fac0_final
    [(AnnounceReplies, "assignment to entry in nil map"%string)] None.

(** The coordinator c1 without any worker after it was left waiting and
    then interrupted: the loop is left with [failFast] set. *)
Definition fac0_failed : Sys fac.FacComputation :=
  mkSys fac.FacComputation (mkTracker {[ "c1"%string ]} ∅)
    (mkLoop fac.FacComputation (Some (fac.mkFacChan 2 0)) 0 [] true
       (fac.mkFacState fac0_request 1)
       [Fprintf "Computation %s%v failed\n" [ArgString "fac"; ArgStrings ["0"%string]]]
       [] [DidFailureMessage])
    true.

(** * Properties *)

(** ** Go arithmetic *)

Lemma wrap_int_id z : is_int z -> wrap_int z = z.
Proof.
  unfold is_int, min_int, max_int, wrap_int. intros H.
  rewrite Z.mod_small; lia.
Qed.

Lemma wrap_uint64_id z : 0 <= z <= max_uint64 -> wrap_uint64 z = z.
Proof.
  unfold max_uint64, wrap_uint64. intros H. rewrite Z.mod_small; lia.
Qed.

Lemma string_of_bytes_of_string s : string_of_bytes (bytes_of_string s) = s.
Proof. apply string_of_list_byte_of_string. Qed.

Lemma int_quo_nonneg a b :
  0 <= a <= max_int -> 0 < b -> int_quo a b = a / b /\ 0 <= a / b <= a.
Proof.
  intros Ha Hb. unfold int_quo.
  rewrite Z.quot_div_nonneg by lia.
  assert (0 <= a / b) by (apply Z.div_pos; lia).
  assert (a / b <= a) by (apply Z.div_le_upper_bound; nia).
  split; [|lia]. apply wrap_int_id. unfold is_int, min_int, max_int in *. lia.
Qed.

(** ** The free-worker estimate *)

Lemma Free_zero_coordinators cw p : Free (mkFreeState 0 cw p) = 0.
Proof. reflexivity. Qed.

Lemma Free_share cc cw p :
  0 < cc -> 0 <= cw <= max_int -> 0 <= p <= max_int ->
  Free (mkFreeState cc cw p) = cw / cc - p.
Proof.
  intros Hc Hw Hp. unfold Free; simpl.
  destruct (Z.eqb_spec cc 0) as [->|_]; [lia|].
  destruct (int_quo_nonneg cw cc Hw Hc) as [-> Hq].
  unfold int_sub. apply wrap_int_id.
  unfold is_int, min_int, max_int in *. lia.
Qed.

(** C1.  For the counts (C, W) of any tracker and any number P >= 0 of
    partial computations in flight, [Free] is the integer quotient W / C
    minus P when C > 0 and 0 when C = 0 (counts and P being values of type
    [int]). *)
Theorem Free_is_share_minus_in_flight (t : Tracker) (P : Z) :
  tracker_fits t -> 0 <= P <= max_int ->
  let C := fst (Count t) in
  let W := snd (Count t) in
  (0 < C -> Free (mkFreeState C W P) = W / C - P) /\
  (C = 0 -> Free (mkFreeState C W P) = 0).
Proof.
  intros [Hc Hw] HP C W. split.
  - intros HC. apply Free_share; subst C W; simpl in *; lia.
  - intros ->. apply Free_zero_coordinators.
Qed.

Lemma Free_is_share_minus_in_flight_witness :
  Free (mkFreeState 1 3 1) = 2 /\ Free (mkFreeState 0 3 1) = 0.
Proof.
  pose (t := mkTracker {[ "c1"%string ]} {[ "w1"%string; "w2"%string; "w3"%string ]}).
  assert (Hfit : tracker_fits t) by (split; vm_compute; discriminate).
  assert (HP : 0 <= 1 <= max_int) by (vm_compute; split; discriminate).
  destruct (Free_is_share_minus_in_flight t 1 Hfit HP) as [H1 _].
  split; [|reflexivity].
  change (Free (mkFreeState (fst (Count t)) (snd (Count t)) 1) = 3 / 1 - 1).
  apply H1. vm_compute. reflexivity.
Defined.

(** ** Tracker *)

Lemma role_set_coordinator t : role_set RoleCoordinator t = coordinators t.
Proof. reflexivity. Qed.

Lemma role_set_worker t : role_set RoleWorker t = workers t.
Proof. reflexivity. Qed.

Lemma TryJoin_valid r i t :
  valid_role r ->
  exists t',
    TryJoin r i t = Ok (bool_decide (i ∉ role_set r t), t') /\
    forall role, valid_role role ->
      role_set role t' = if decide (role = r) then {[ i ]} ∪ role_set role t
                         else role_set role t.
Proof.
  intros [-> | ->]; unfold TryJoin; simpl;
    [ change (set_read SetCoordinators t) with (role_set RoleCoordinator t)
    | change (set_read SetWorkers t) with (role_set RoleWorker t) ].
  all: case_bool_decide as Hin.
  all: try (exists t; split;
            [ by rewrite bool_decide_eq_false_2 by (intros Hn; by apply Hn)
            | intros role [-> | ->]; case_decide; try done;
              apply leibniz_equiv; set_solver ]).
  all: eexists; split;
    [ by rewrite bool_decide_eq_true_2 by done
    | intros role [-> | ->]; case_decide; done ].
Qed.

Lemma Leave_role_set r i t role :
  valid_role role ->
  role_set role (Leave r i t) =
    if decide (role = r) then role_set role t ∖ {[ i ]} else role_set role t.
Proof.
  intros [-> | ->]; unfold Leave;
    destruct (Z.eqb_spec r RoleCoordinator) as [-> | H1];
    try destruct (Z.eqb_spec r RoleWorker) as [-> | H2];
    case_decide; try done; congruence.
Qed.

Lemma Leave_absent r i t : i ∉ role_set r t -> Leave r i t = t.
Proof.
  unfold Leave, role_set, select_set.
  destruct (Z.eqb_spec r RoleCoordinator) as [-> | H1];
    [| destruct (Z.eqb_spec r RoleWorker) as [-> | H2] ];
    simpl; intros Hn; destruct t as [cs ws]; simpl in *; f_equal;
    try done; apply leibniz_equiv; set_solver.
Qed.

(** Membership after one call, for a valid role. *)
Lemma apply_call_member c t role id :
  valid_role (call_role c) -> valid_role role ->
  exists t', apply_call c t = Ok t' /\
    (id ∈ role_set role t' <->
     match last_call role id [c] with
     | Some b => b = true
     | None => id ∈ role_set role t
     end).
Proof.
  intros Hc Hrole. destruct c as [r i | r i]; simpl in *.
  - destruct (TryJoin_valid r i t Hc) as (t' & -> & Hset). exists t'.
    split; [done|]. rewrite (Hset role Hrole).
    case_bool_decide as Hm; case_decide; set_solver.
  - eexists; split; [done|]. rewrite Leave_role_set by done.
    case_bool_decide as Hm; case_decide; set_solver.
Qed.

Lemma apply_calls_last_call cs : forall t role id,
  Forall (fun c => valid_role (call_role c)) cs -> valid_role role ->
  exists t', apply_calls cs t = Ok t' /\
    (id ∈ role_set role t' <->
     match last_call role id cs with
     | Some b => b = true
     | None => id ∈ role_set role t
     end).
Proof.
  induction cs as [|c cs IH]; intros t role id Hcs Hrole.
  - exists t. by split.
  - inversion Hcs as [|? ? Hc Hcs']; subst.
    destruct (apply_call_member c t role id Hc Hrole) as (t1 & E1 & H1).
    destruct (IH t1 role id Hcs' Hrole) as (t' & E' & H').
    exists t'. split.
    + cbn [apply_calls]. rewrite E1. exact E'.
    + rewrite H'. cbn [last_call] in *.
      destruct (last_call role id cs) as [b|]; [done|]. exact H1.
Qed.

(** C7.  For a role among coordinator and worker: [TryJoin] returns true
    iff the id was not yet in the role's set and leaves it there, so that a
    second [TryJoin] returns false and changes nothing; [Leave] removes the
    id and changes nothing when it is absent; hence after any sequence of
    calls the membership of an id is decided by the last call made for that
    id and role (and is unchanged when there is none). *)
Theorem Tracker_membership_follows_last_call (role : ComponentRole) (id : string)
    (t : Tracker) (cs : list tracker_call) :
  valid_role role ->
  Forall (fun c => valid_role (call_role c)) cs ->
  (exists t',
     TryJoin role id t = Ok (bool_decide (id ∉ role_set role t), t') /\
     role_set role t' = {[ id ]} ∪ role_set role t /\
     TryJoin role id t' = Ok (false, t')) /\
  role_set role (Leave role id t) = role_set role t ∖ {[ id ]} /\
  (id ∉ role_set role t -> Leave role id t = t) /\
  (exists t',
     apply_calls cs t = Ok t' /\
     (id ∈ role_set role t' <->
      match last_call role id cs with
      | Some b => b = true
      | None => id ∈ role_set role t
      end)).
Proof.
  intros Hrole Hcs. repeat split.
  - destruct (TryJoin_valid role id t Hrole) as (t' & E & Hset).
    exists t'. split; [done|].
    specialize (Hset role Hrole). rewrite decide_True in Hset by done.
    split; [done|].
    unfold TryJoin. fold (role_set role t').
    rewrite bool_decide_eq_true_2; [done|]. rewrite Hset. set_solver.
  - rewrite Leave_role_set by done. by rewrite decide_True.
  - apply Leave_absent.
  - by apply apply_calls_last_call.
Qed.

Lemma Tracker_membership_follows_last_call_witness :
  exists t',
    apply_calls
      [CallTryJoin RoleWorker "w1"; CallLeave RoleWorker "w1";
       CallTryJoin RoleWorker "w1"] NewTracker = Ok t' /\
    ("w1"%string ∈ role_set RoleWorker t' <-> true = true).
Proof.
  assert (Hrole : valid_role RoleWorker) by (right; reflexivity).
  assert (Hcs : Forall (fun c => valid_role (call_role c))
                  [CallTryJoin RoleWorker "w1"; CallLeave RoleWorker "w1";
                   CallTryJoin RoleWorker "w1"])
    by (repeat constructor; right; reflexivity).
  exact (proj2 (proj2 (proj2
    (Tracker_membership_follows_last_call RoleWorker "w1" NewTracker _ Hrole Hcs)))).
Defined.

Lemma ParseComponentRole_other ctx :
  ctx <> "coordinator"%string -> ctx <> "worker"%string ->
  ParseComponentRole ctx = RoleUndefined.
Proof.
  intros H1 H2. unfold ParseComponentRole.
  destruct (String.eqb_spec ctx "coordinator"); [done|].
  destruct (String.eqb_spec ctx "worker"); done.
Qed.

Lemma TryJoin_invalid_role role id t :
  role <> RoleCoordinator -> role <> RoleWorker ->
  TryJoin role id t = Panic "assignment to entry in nil map".
Proof.
  intros H1 H2. unfold TryJoin, select_set.
  destruct (Z.eqb_spec role RoleCoordinator); [done|].
  destruct (Z.eqb_spec role RoleWorker); [done|].
  simpl. rewrite bool_decide_eq_false_2; [done | set_solver].
Qed.

Lemma Leave_invalid_role role id t :
  role <> RoleCoordinator -> role <> RoleWorker -> Leave role id t = t.
Proof.
  intros H1 H2. unfold Leave.
  destruct (Z.eqb_spec role RoleCoordinator); [done|].
  destruct (Z.eqb_spec role RoleWorker); done.
Qed.

(** C10.  [TryJoin] with a role other than coordinator and worker panics on
    the assignment to the nil map, for every id; [ParseComponentRole] gives
    such a role, [RoleUndefined], for every string other than the two role
    names; so a reply to the join announcement whose context is another
    string makes the receive loop of [announce] panic, which ends the
    coordinator; [Leave] with such a role changes nothing. *)
Theorem TryJoin_undefined_role_panics (role : ComponentRole) (id : string)
    (t : Tracker) (ar : ActionResult)
    (cm : Computation) (req : ComputeRequest) (start : Z) (c_id : string)
    (s : Sys cm) :
  role <> RoleCoordinator -> role <> RoleWorker ->
  ar_Context ar <> "coordinator"%string -> ar_Context ar <> "worker"%string ->
  TryJoin role id t = Panic "assignment to entry in nil map" /\
  ParseComponentRole (ar_Context ar) = RoleUndefined /\
  run_effects (Coordinator_announce_recv ar) t = Panic "assignment to entry in nil map" /\
  sys_step cm req start c_id (EvAnnounceReply ar) s
    = Some (Panic "assignment to entry in nil map") /\
  Leave role id t = t /\
  Leave (ParseComponentRole (ar_Context ar)) id t = t.
Proof.
  intros Hr1 Hr2 Hc1 Hc2.
  pose proof (ParseComponentRole_other _ Hc1 Hc2) as Hparse.
  assert (Hrecv : forall t0,
    run_effects (Coordinator_announce_recv ar) t0 = Panic "assignment to entry in nil map").
  { intros t0. unfold Coordinator_announce_recv. cbn [run_effects apply_call].
    rewrite Hparse. by rewrite TryJoin_invalid_role. }
  repeat split.
  - by apply TryJoin_invalid_role.
  - exact Hparse.
  - apply Hrecv.
  - cbn [sys_step]. unfold track. by rewrite Hrecv.
  - by apply Leave_invalid_role.
  - rewrite Hparse. by apply Leave_invalid_role.
Qed.

Lemma TryJoin_undefined_role_panics_witness :
  TryJoin RoleUndefined "x" NewTracker = Panic "assignment to entry in nil map" /\
  ParseComponentRole "observer" = RoleUndefined /\
  run_effects (Coordinator_announce_recv (mkActionResult "observer" (bytes_of_string "x")))
    NewTracker = Panic "assignment to entry in nil map".
Proof.
  assert (H1 : RoleUndefined <> RoleCoordinator) by discriminate.
  assert (H2 : RoleUndefined <> RoleWorker) by discriminate.
  assert (H3 : "observer"%string <> "coordinator"%string) by discriminate.
  assert (H4 : "observer"%string <> "worker"%string) by discriminate.
  pose proof (TryJoin_undefined_role_panics RoleUndefined "x" NewTracker
    (mkActionResult "observer" (bytes_of_string "x"))
    fac.FacComputation (mkRequest "fac" ["3"%string]) 0 "c1"
    (sys_init fac.FacComputation NewTracker
       (fac.mkFacState (mkRequest "fac" ["3"%string]) 1) (fac.mkFacChan 2 3))
    H1 H2 H3 H4) as (Ha & Hb & Hc & _).
  exact (conj Ha (conj Hb Hc)).
Defined.

(** ** Worker *)

(** C5.  A worker that receives a partial-compute action looks the
    computation named by the action's id up: it publishes nothing when the
    name is not registered; otherwise it calls [PartialCompute] on the
    action's params and publishes nothing when the output is nil, and
    exactly one action result, with the worker's id as context and the
    output as data, when the output is not nil (an empty output included). *)
Theorem handlePartialComputation_publishes (w_id : string) (reg : Registry)
    (ac : Action) :
  (ComputationByName (ac_Id ac) reg = None ->
   handlePartialComputation w_id reg ac = []) /\
  (forall cm, ComputationByName (ac_Id ac) reg = Some cm ->
     (PartialCompute cm (ac_Params ac) = None ->
      handlePartialComputation w_id reg ac = []) /\
     (forall out, PartialCompute cm (ac_Params ac) = Some out ->
      handlePartialComputation w_id reg ac = [mkActionResult w_id (Some out)])).
Proof.
  unfold handlePartialComputation. split.
  - by intros ->.
  - intros cm ->. split.
    + by intros ->.
    + by intros out ->.
Qed.

Lemma handlePartialComputation_publishes_witness :
  handlePartialComputation "w1" example_registry
    (mkAction ActionTypeCompute "fac" "c1" (Some [])) = [mkActionResult "w1" (Some [])] /\
  handlePartialComputation "w1" example_registry
    (mkAction ActionTypeCompute "fac" "c1" None) = [] /\
  handlePartialComputation "w1" example_registry
    (mkAction ActionTypeCompute "sum" "c1" (Some [])) = [].
Proof.
  split; [|split].
  - apply (proj2 (handlePartialComputation_publishes "w1" example_registry
             (mkAction ActionTypeCompute "fac" "c1" (Some []))) fac.FacComputation);
      reflexivity.
  - apply (proj2 (handlePartialComputation_publishes "w1" example_registry
             (mkAction ActionTypeCompute "fac" "c1" None)) fac.FacComputation);
      reflexivity.
  - apply (proj1 (handlePartialComputation_publishes "w1" example_registry
             (mkAction ActionTypeCompute "sum" "c1" (Some [])))).
    reflexivity.
Defined.

(** ** Announcements of coordinators *)

Lemma hello_not_bye ac : is_hello ac -> is_bye ac -> False.
Proof.
  unfold is_hello, is_bye, bytes_Equal. intros H1 H2.
  apply bool_decide_eq_true_1 in H1. apply bool_decide_eq_true_1 in H2.
  rewrite H1 in H2. discriminate H2.
Qed.

(** A worker that receives the HELLO of coordinator c1 replies but makes no
    tracker call: the uniform handling fails for workers. *)
Lemma worker_makes_no_tracker_call :
  ~ uniform_announce_handling (AsWorker "w1")
      (mkAction ActionEventTypeAnnounceCoordinator "c1" "coordinator" DataAnnounceJoin).
Proof.
  intros (H & _ & _).
  assert (Hne : own_id (AsWorker "w1") <>
                ac_Id (mkAction ActionEventTypeAnnounceCoordinator "c1" "coordinator"
                         DataAnnounceJoin)) by discriminate.
  specialize (H Hne eq_refl). discriminate H.
Qed.

(** C6, as the code has it.  On HELLO from another id a coordinator calls
    [TryJoin] with the role of the source and the id; when the source is
    "coordinator" or "worker" it then replies once with its own role and
    id, and with any other source [TryJoin] panics and no reply is sent.
    It ignores the echo of its own HELLO; on BYE it calls [Leave], for its
    own id too, and does not reply.  A worker keeps no tracker: on HELLO it
    replies once with role worker and its own id, whatever the id of the
    action, and on BYE it does nothing. *)
Theorem announceCoordinator_handling (c_id w_id : string) (ac : Action) (t : Tracker) :
  uniform_announce_handling (AsCoordinator c_id) ac /\
  (c_id <> ac_Id ac -> is_hello ac -> valid_role (ParseComponentRole (ac_Source ac)) ->
   exists b t',
     TryJoin (ParseComponentRole (ac_Source ac)) (ac_Id ac) t = Ok (b, t') /\
     run_effects (on_announceCoordinator (AsCoordinator c_id) ac) t
       = Ok (t', [mkActionResult "coordinator" (bytes_of_string c_id)])) /\
  (c_id <> ac_Id ac -> is_hello ac -> ~ valid_role (ParseComponentRole (ac_Source ac)) ->
   TryJoin (ParseComponentRole (ac_Source ac)) (ac_Id ac) t
     = Panic "assignment to entry in nil map" /\
   run_effects (on_announceCoordinator (AsCoordinator c_id) ac) t
     = Panic "assignment to entry in nil map") /\
  (valid_role (ParseComponentRole (ac_Source ac)) <->
   ac_Source ac = "coordinator"%string \/ ac_Source ac = "worker"%string) /\
  (is_bye ac ->
   run_effects (on_announceCoordinator (AsCoordinator c_id) ac) t
     = Ok (Leave (ParseComponentRole (ac_Source ac)) (ac_Id ac) t, [])) /\
  (is_hello ac ->
   on_announceCoordinator (AsWorker w_id) ac
     = [Reply (mkActionResult "worker" (bytes_of_string w_id))]) /\
  (is_bye ac -> on_announceCoordinator (AsWorker w_id) ac = []).
Proof.
  assert (Hbye : is_bye ac -> bytes_Equal (ac_Params ac) DataAnnounceJoin = false).
  { intros Hb. destruct (bytes_Equal (ac_Params ac) DataAnnounceJoin) eqn:E; [|done].
    destruct (hello_not_bye ac E Hb). }
  split; [|split; [|split; [|split; [|split; [|split]]]]].
  - unfold uniform_announce_handling, is_hello; simpl.
    unfold Coordinator_trackCoordinators. split; [|split].
    + intros Hne ->. destruct (String.eqb_spec (ac_Id ac) c_id); [congruence|done].
    + intros -> ->. by rewrite String.eqb_refl.
    + intros _ Hb. by rewrite (Hbye Hb).
  - intros Hne Hh Hrole. simpl. unfold Coordinator_trackCoordinators.
    rewrite Hh. destruct (String.eqb_spec (ac_Id ac) c_id); [congruence|].
    destruct (TryJoin_valid _ (ac_Id ac) t Hrole) as (t' & E & _).
    eexists _, t'. split; [exact E|].
    simpl. by rewrite E.
  - intros Hne Hh Hrole.
    assert (E : TryJoin (ParseComponentRole (ac_Source ac)) (ac_Id ac) t
                = Panic "assignment to entry in nil map").
    { apply TryJoin_invalid_role; intros H; apply Hrole; [by left | by right]. }
    split; [exact E|]. simpl. unfold Coordinator_trackCoordinators.
    rewrite Hh. destruct (String.eqb_spec (ac_Id ac) c_id); [congruence|].
    simpl. by rewrite E.
  - unfold valid_role, ParseComponentRole.
    destruct (String.eqb_spec (ac_Source ac) "coordinator") as [->|H1]; [by split; left|].
    destruct (String.eqb_spec (ac_Source ac) "worker") as [->|H2]; [by split; right|].
    split; [by intros [?|?] | by intros [?|?]].
  - intros Hb. simpl. unfold Coordinator_trackCoordinators. by rewrite (Hbye Hb).
  - intros Hh. simpl. unfold Worker_trackCoordinators. by rewrite Hh.
  - intros Hb. simpl. unfold Worker_trackCoordinators. by rewrite (Hbye Hb).
Qed.

Lemma announceCoordinator_handling_witness :
  on_announceCoordinator (AsCoordinator "c2")
    (mkAction ActionEventTypeAnnounceCoordinator "c1" "coordinator" DataAnnounceJoin)
  = [Track (CallTryJoin RoleCoordinator "c1");
     Reply (mkActionResult "coordinator" (bytes_of_string "c2"))] /\
  on_announceCoordinator (AsWorker "w1")
    (mkAction ActionEventTypeAnnounceCoordinator "c1" "coordinator" DataAnnounceJoin)
  = [Reply (mkActionResult "worker" (bytes_of_string "w1"))] /\
  run_effects
    (on_announceCoordinator (AsCoordinator "c2")
       (mkAction ActionEventTypeAnnounceCoordinator "o1" "observer" DataAnnounceJoin))
    NewTracker
  = Panic "assignment to entry in nil map".
Proof.
  pose (ac := mkAction ActionEventTypeAnnounceCoordinator "c1" "coordinator" DataAnnounceJoin).
  destruct (announceCoordinator_handling "c2" "w1" ac NewTracker)
    as ((Hc & _ & _) & _ & _ & _ & _ & Hw & _).
  assert (Hne : own_id (AsCoordinator "c2") <> ac_Id ac) by discriminate.
  split; [exact (Hc Hne eq_refl)|]. split; [exact (Hw eq_refl)|].
  pose (ao := mkAction ActionEventTypeAnnounceCoordinator "o1" "observer" DataAnnounceJoin).
  destruct (announceCoordinator_handling "c2" "w1" ao NewTracker)
    as (_ & _ & Hp & _).
  assert (Hne' : "c2"%string <> ac_Id ao) by discriminate.
  assert (Hrole : ~ valid_role (ParseComponentRole (ac_Source ao))).
  { by intros [H | H]. }
  exact (proj2 (Hp Hne' eq_refl Hrole)).
Defined.

(** ** Decimal strings: ParseUint and FormatUint in base 10 *)

Lemma is_digit_code c :
  is_digit c = true -> 48 <= strconv.char_code c <= 57.
Proof. unfold is_digit. intros H. apply andb_true_iff in H. lia. Qed.

Lemma digit_of_digit c :
  is_digit c = true -> strconv.digit_of (strconv.char_code c) = Some (strconv.char_code c - 48).
Proof. unfold is_digit, strconv.digit_of. by intros ->. Qed.

(** A character whose digit value is below ten is a decimal digit. *)
Lemma digit_of_below_ten c d :
  strconv.digit_of (strconv.char_code c) = Some d -> d < 10 -> is_digit c = true.
Proof.
  unfold strconv.digit_of, is_digit.
  destruct ((48 <=? strconv.char_code c) && (strconv.char_code c <=? 57)); [done|].
  destruct ((97 <=? strconv.lower (strconv.char_code c)) &&
            (strconv.lower (strconv.char_code c) <=? 122)) eqn:E; [|done].
  intros [= <-] Hd. apply andb_true_iff in E. lia.
Qed.

Lemma dec_value_ge s : forall n, 0 <= n -> is_decimal s = true -> n <= dec_value n s.
Proof.
  induction s as [|c s IH]; intros n Hn Hs; simpl in *; [lia|].
  apply andb_true_iff in Hs as [Hc Hs]. apply is_digit_code in Hc.
  etrans; [|apply IH]; [lia | lia | done].
Qed.

Lemma parse_loop_decimal s : forall n,
  0 <= n -> is_decimal s = true -> dec_value n s <= max_uint64 ->
  strconv.parse_loop 10 cutoff10 max_uint64 n s = (dec_value n s, None).
Proof.
  induction s as [|c s IH]; intros n Hn Hs Hv; simpl in *; [done|].
  apply andb_true_iff in Hs as [Hc Hs].
  rewrite (digit_of_digit c Hc). apply is_digit_code in Hc.
  set (d := strconv.char_code c - 48) in *.
  assert (Hle : n * 10 + d <= max_uint64).
  { etrans; [apply (dec_value_ge s)|exact Hv]; [lia|done]. }
  unfold cutoff10, max_uint64 in *. change (Z.quot (2 ^ 64 - 1) 10 + 1) with 1844674407370955162.
  destruct (Z.geb_spec d 10); [lia|].
  destruct (Z.geb_spec n 1844674407370955162); [lia|].
  rewrite (wrap_uint64_id (n * 10)) by (unfold max_uint64; lia).
  rewrite (wrap_uint64_id (n * 10 + d)) by (unfold max_uint64; lia).
  destruct (Z.ltb_spec (n * 10 + d) (n * 10)); [lia|].
  destruct (Z.gtb_spec (n * 10 + d) (2 ^ 64 - 1)); [lia|].
  simpl. apply IH; [lia | done | done].
Qed.

Lemma parse_loop_overflow s : forall n,
  0 <= n <= max_uint64 -> is_decimal s = true -> max_uint64 < dec_value n s ->
  strconv.parse_loop 10 cutoff10 max_uint64 n s = (max_uint64, Some strconv.ErrRange).
Proof.
  induction s as [|c s IH]; intros n Hn Hs Hv; simpl in *; [lia|].
  apply andb_true_iff in Hs as [Hc Hs].
  rewrite (digit_of_digit c Hc). apply is_digit_code in Hc.
  set (d := strconv.char_code c - 48) in *.
  unfold cutoff10, max_uint64 in *. change (Z.quot (2 ^ 64 - 1) 10 + 1) with 1844674407370955162.
  destruct (Z.geb_spec d 10); [lia|].
  destruct (Z.geb_spec n 1844674407370955162); [done|].
  rewrite (wrap_uint64_id (n * 10)) by (unfold max_uint64; lia).
  destruct (Z_le_gt_dec (n * 10 + d) (2 ^ 64 - 1)) as [Hfit | Hover].
  - rewrite (wrap_uint64_id (n * 10 + d)) by (unfold max_uint64; lia).
    destruct (Z.ltb_spec (n * 10 + d) (n * 10)); [lia|].
    destruct (Z.gtb_spec (n * 10 + d) (2 ^ 64 - 1)); [lia|].
    simpl. apply IH; [lia | done | done].
  - assert (Hw : wrap_uint64 (n * 10 + d) = n * 10 + d - 2 ^ 64).
    { unfold wrap_uint64. symmetry. apply (Z.mod_unique _ _ 1); lia. }
    rewrite Hw. destruct (Z.ltb_spec (n * 10 + d - 2 ^ 64) (n * 10)); [done|lia].
Qed.

Lemma parse_loop_not_decimal s : forall n,
  is_decimal s = false ->
  snd (strconv.parse_loop 10 cutoff10 max_uint64 n s) <> None.
Proof.
  induction s as [|c s IH]; intros n Hs; simpl in *; [done|].
  destruct (strconv.digit_of (strconv.char_code c)) as [d|] eqn:Ed; [|done].
  destruct (Z.geb_spec d 10); [done|].
  rewrite (digit_of_below_ten c d Ed) in Hs by lia. simpl in Hs.
  destruct (n >=? cutoff10); [done|].
  match goal with |- context [if ?b then _ else _] => destruct b end; [done|].
  by apply IH.
Qed.

Lemma ParseUint_base10 s :
  s <> ""%string ->
  strconv.ParseUint s 10 0 = strconv.parse_loop 10 cutoff10 max_uint64 0 s.
Proof.
  intros Hs. unfold strconv.ParseUint.
  destruct (String.eqb_spec s ""); [done|]. reflexivity.
Qed.

(** [ParseUint] in base 10 accepts exactly the non-empty strings of decimal
    digits whose value fits a [uint64], and returns that value. *)
Lemma ParseUint_accepts s :
  s <> ""%string -> is_decimal s = true -> dec_value 0 s <= max_uint64 ->
  strconv.ParseUint s 10 0 = (dec_value 0 s, None).
Proof.
  intros Hs Hd Hv. rewrite ParseUint_base10 by done.
  by apply parse_loop_decimal.
Qed.

Lemma ParseUint_accepted s n :
  strconv.ParseUint s 10 0 = (n, None) ->
  s <> ""%string /\ is_decimal s = true /\ dec_value 0 s = n /\ n <= max_uint64.
Proof.
  intros H.
  assert (Hs : s <> ""%string) by (intros ->; discriminate H).
  rewrite ParseUint_base10 in H by done.
  destruct (is_decimal s) eqn:Hd.
  - destruct (Z_le_gt_dec (dec_value 0 s) max_uint64) as [Hle | Hgt].
    + rewrite parse_loop_decimal in H by done. by injection H as <-.
    + rewrite parse_loop_overflow in H; [done | by vm_compute | done | lia].
  - pose proof (parse_loop_not_decimal s 0 Hd) as Hn. by rewrite H in Hn.
Qed.

Lemma char_code_digit_char d :
  0 <= d < 10 -> strconv.char_code (strconv.digit_char d) = 48 + d.
Proof.
  intros Hd. unfold strconv.char_code, strconv.digit_char.
  destruct (Z.ltb_spec d 10); [|lia].
  rewrite nat_ascii_embedding by lia. lia.
Qed.

Lemma is_digit_digit_char d : 0 <= d < 10 -> is_digit (strconv.digit_char d) = true.
Proof.
  intros Hd. unfold is_digit. rewrite char_code_digit_char by done.
  apply andb_true_iff. lia.
Qed.

Lemma format_digits_nonempty fuel : forall u acc,
  strconv.format_digits fuel u 10 acc <> ""%string.
Proof.
  induction fuel as [|fuel IH]; intros u acc; simpl; [done|].
  destruct (u <? 10); [done | apply IH].
Qed.

Lemma format_digits_decimal fuel : forall u acc,
  0 <= u -> is_decimal acc = true ->
  is_decimal (strconv.format_digits fuel u 10 acc) = true.
Proof.
  induction fuel as [|fuel IH]; intros u acc Hu Hacc;
    assert (Hm : 0 <= u mod 10 < 10) by (apply Z.mod_pos_bound; lia);
    cbn [strconv.format_digits].
  - simpl. by rewrite is_digit_digit_char, Hacc.
  - destruct (u <? 10).
    + simpl. by rewrite is_digit_digit_char, Hacc.
    + apply IH; [apply Z.div_pos; lia|].
      simpl. by rewrite is_digit_digit_char, Hacc.
Qed.

Lemma format_digits_value fuel : forall u acc,
  0 <= u < 10 ^ (Z.of_nat fuel + 1) ->
  dec_value 0 (strconv.format_digits fuel u 10 acc) = dec_value u acc.
Proof.
  induction fuel as [|fuel IH]; intros u acc Hu;
    assert (Hm : 0 <= u mod 10 < 10) by (apply Z.mod_pos_bound; lia);
    cbn [strconv.format_digits].
  - change (10 ^ (Z.of_nat 0 + 1)) with 10 in Hu.
    simpl. rewrite char_code_digit_char by done.
    rewrite Z.mod_small by lia. f_equal. lia.
  - destruct (Z.ltb_spec u 10).
    + simpl. rewrite char_code_digit_char by done.
      rewrite Z.mod_small by lia. f_equal. lia.
    + rewrite IH.
      * simpl. rewrite char_code_digit_char by done. f_equal.
        pose proof (Z.div_mod u 10). lia.
      * split; [apply Z.div_pos; lia|].
        apply Z.div_lt_upper_bound; [lia|].
        replace (Z.of_nat (S fuel) + 1) with (Z.succ (Z.of_nat fuel + 1)) in Hu by lia.
        rewrite Z.pow_succ_r in Hu by lia. lia.
Qed.

(** Round trip: a [uint64] is parsed back from its decimal string. *)
Lemma ParseUint_FormatUint u :
  0 <= u <= max_uint64 ->
  strconv.ParseUint (strconv.FormatUint u 10) 10 0 = (u, None).
Proof.
  intros Hu. unfold strconv.FormatUint.
  assert (Hv : dec_value 0 (strconv.format_digits 64 u 10 "") = u).
  { rewrite format_digits_value; [done|].
    split; [lia|]. unfold max_uint64 in Hu.
    assert (2 ^ 64 < 10 ^ (Z.of_nat 64 + 1)) by (vm_compute; done). lia. }
  rewrite ParseUint_accepts.
  - by rewrite Hv.
  - apply format_digits_nonempty.
  - by apply format_digits_decimal; [lia|].
  - rewrite Hv. lia.
Qed.

(** ** The fac computation *)

Lemma fac_Accumulate_encode c k :
  0 <= k <= max_int ->
  fac.Accumulate (encode k) c = (fac.mkFacState (fac.request c) (fac.result c * k), []).
Proof.
  intros Hk. unfold fac.Accumulate, encode.
  rewrite string_of_bytes_of_string, ParseUint_FormatUint
    by (unfold max_int, max_uint64 in *; lia).
  unfold int64_of_uint64. rewrite wrap_int_id; [done|].
  unfold is_int, min_int, max_int in *. lia.
Qed.

Lemma accumulate_all_range k : forall c,
  Z.of_nat k + 1 <= max_int ->
  accumulate_all (encode <$> seqZ 2 (Z.of_nat k)) c
  = fac.mkFacState (fac.request c) (fac.result c * Z.of_nat (fact (S k))).
Proof.
  induction k as [|k IH]; intros c Hk.
  - simpl. destruct c; simpl. f_equal. lia.
  - rewrite seqZ_S, fmap_app. unfold accumulate_all in *.
    change (encode <$> [2 + Z.of_nat k]) with [encode (2 + Z.of_nat k)].
    rewrite fold_left_app, IH by lia. cbn [fold_left].
    rewrite fac_Accumulate_encode by lia. cbn [fst fac.request fac.result].
    f_equal.
    assert (Hf : Z.of_nat (fact (S (S k))) = (2 + Z.of_nat k) * Z.of_nat (fact (S k))).
    { change (fact (S (S k))) with ((S (S k) * fact (S k))%nat).
      rewrite Nat2Z.inj_mul. lia. }
    rewrite Hf. lia.
Qed.

Lemma accumulate_all_factorial c n :
  0 <= n <= max_int ->
  fac.result (accumulate_all (fac.PartialCompute <$> (encode <$> seqZ 2 (n - 1))) c)
  = fac.result c * factorial n.
Proof.
  intros Hn. unfold factorial.
  replace (fac.PartialCompute <$> (encode <$> seqZ 2 (n - 1)))
    with (encode <$> seqZ 2 (n - 1))
    by (unfold fac.PartialCompute; by rewrite list_fmap_id).
  destruct (Z_le_gt_dec n 1) as [Hsmall | Hbig].
  - rewrite seqZ_nil by lia. simpl.
    assert (Hf : fact (Z.to_nat n) = 1%nat).
    { destruct (Z.eq_dec n 0) as [->|]; [done|].
      replace n with 1 by lia. done. }
    rewrite Hf. lia.
  - replace (n - 1) with (Z.of_nat (Z.to_nat (n - 1))) by lia.
    rewrite accumulate_all_range by lia. cbn [fac.result].
    by replace (S (Z.to_nat (n - 1))) with (Z.to_nat n) by lia.
Qed.

Lemma fac_chan_drain m : forall extra k n,
  0 <= k -> n < max_uint64 -> Z.of_nat m = n + 1 - k ->
  chan_drain fac.FacComputation (m + extra) (fac.mkFacChan k n)
  = Some (encode <$> seqZ k (Z.of_nat m)).
Proof.
  induction m as [|m IH]; intros extra k n Hk Hn Hm.
  - assert (Hr : cm_recv fac.FacComputation (fac.mkFacChan k n) = None).
    { simpl. unfold fac.recv. simpl. destruct (Z.leb_spec k n); [lia|done]. }
    change (0 + extra)%nat with extra.
    destruct extra; cbn [chan_drain]; by rewrite Hr.
  - change (S m + extra)%nat with (S (m + extra)). cbn [chan_drain].
    assert (Hr : cm_recv fac.FacComputation (fac.mkFacChan k n)
                 = Some (encode k, fac.mkFacChan (k + 1) n)).
    { simpl. unfold fac.recv. simpl. destruct (Z.leb_spec k n); [|lia].
      rewrite wrap_uint64_id by lia. done. }
    rewrite Hr, IH by lia.
    rewrite (seqZ_cons k (Z.of_nat (S m))) by lia.
    replace (Z.succ k) with (k + 1) by lia.
    by replace (Z.pred (Z.of_nat (S m))) with (Z.of_nat m) by lia.
Qed.

(** With [n] the largest [uint64], the loop variable wraps around and the
    channel is never closed. *)
Lemma fac_chan_never_closes fuel : forall k,
  0 <= k <= max_uint64 ->
  chan_drain fac.FacComputation fuel (fac.mkFacChan k max_uint64) = None.
Proof.
  induction fuel as [|fuel IH]; intros k Hk; cbn [chan_drain]; simpl;
    unfold fac.recv; simpl; destruct (Z.leb_spec k max_uint64); try lia; [done|].
  rewrite IH; [done|].
  unfold wrap_uint64, max_uint64.
  pose proof (Z.mod_pos_bound (k + 1) (2 ^ 64)). lia.
Qed.

Lemma accumulate_all_request outs : forall c,
  fac.request (accumulate_all outs c) = fac.request c.
Proof.
  induction outs as [|o outs IH]; intros c; [done|].
  unfold accumulate_all in *. cbn [fold_left]. rewrite IH.
  unfold fac.Accumulate.
  by destruct (strconv.ParseUint (string_of_bytes o) 10 0) as [v [e|]].
Qed.

(** The decimal integer 2^64 is rejected: it does not fit the [uint64]
    that [Partition] parses its argument into. *)
Lemma fac_Partition_rejects_2_pow_64 :
  is_decimal "18446744073709551616" = true /\
  dec_value 0 "18446744073709551616" = 2 ^ 64 /\
  fac.Partition (mkRequest "fac" ["18446744073709551616"%string])
    = inl "one non-negative integer argument required"%string /\
  ~ fac_accepts_every_decimal.
Proof.
  assert (E : fac.Partition (mkRequest "fac" ["18446744073709551616"%string])
              = inl "one non-negative integer argument required"%string)
    by (vm_compute; reflexivity).
  split; [reflexivity|]. split; [vm_compute; reflexivity|]. split; [exact E|].
  intros H.
  destruct (H "18446744073709551616"%string) as (st & ch & Hp);
    [discriminate | reflexivity |].
  rewrite E in Hp. discriminate Hp.
Qed.

(** C8, as the code has it.  For an argument list [[s]] whose [s] is a
    non-empty string of decimal digits of value n at most 2^64 - 1,
    [Partition] succeeds with the product set to 1; for n below 2^64 - 1 the
    channel delivers exactly the decimal strings of 2, 3, ..., n in order
    (none when n is 0 or 1) and is then closed; [PartialCompute] is the
    identity; for n at most 2^63 - 1, calling [Accumulate] on every partial
    output leaves the product n!, which [Finalize] writes.  [Partition]
    returns an error for every other argument list. *)
Theorem fac_partition_compute_accumulate (s : string) (n : Z) (name : string)
    (args : list string) (input : BinaryData) (start : Z) :
  s <> ""%string -> is_decimal s = true -> dec_value 0 s = n -> n <= max_uint64 ->
  let req := mkRequest name [s] in
  let outputs := fac.PartialCompute <$> (encode <$> seqZ 2 (n - 1)) in
  fac.Partition req = inr (fac.mkFacState req 1, fac.mkFacChan 2 n) /\
  (n < max_uint64 ->
   chan_drain fac.FacComputation (Z.to_nat n) (fac.mkFacChan 2 n)
     = Some (encode <$> seqZ 2 (n - 1))) /\
  fac.PartialCompute input = input /\
  (n <= max_int ->
   fac.result (accumulate_all outputs (fac.mkFacState req 1)) = factorial n /\
   fac.Finalize start (accumulate_all outputs (fac.mkFacState req 1))
     = [ Fprintf "Computation time: %v\n" [ArgSince start];
         Fprintf "Computation %s%v = %v\n"
           [ArgString name; ArgStrings [s]; ArgBigInt (factorial n)] ]) /\
  (forall st ch, fac.Partition (mkRequest name args) = inr (st, ch) ->
     exists s', args = [s'] /\ s' <> ""%string /\ is_decimal s' = true /\
                dec_value 0 s' <= max_uint64).
Proof.
  intros Hs Hd Hv Hn req outputs.
  assert (H0 : 0 <= n) by (subst n; by apply dec_value_ge).
  split; [|split; [|split; [|split]]].
  - unfold fac.Partition. simpl. rewrite ParseUint_accepts by (try done; lia).
    by rewrite Hv.
  - intros Hlt. destruct (Z_le_gt_dec n 1) as [Hsmall | Hbig].
    + rewrite seqZ_nil by lia.
      assert (Hr : cm_recv fac.FacComputation (fac.mkFacChan 2 n) = None).
      { simpl. unfold fac.recv. simpl. destruct (Z.leb_spec 2 n); [lia|done]. }
      destruct (Z.to_nat n); cbn [chan_drain]; by rewrite Hr.
    + replace (Z.to_nat n) with (Z.to_nat (n - 1) + 1)%nat by lia.
      rewrite (fac_chan_drain (Z.to_nat (n - 1)) 1 2 n) by lia.
      by replace (Z.of_nat (Z.to_nat (n - 1))) with (n - 1) by lia.
  - reflexivity.
  - intros Hi.
    pose proof (accumulate_all_factorial (fac.mkFacState req 1) n (conj H0 Hi)) as Hf.
    fold outputs in Hf. cbn [fac.result] in Hf. rewrite Z.mul_1_l in Hf.
    split; [exact Hf|].
    unfold fac.Finalize. rewrite Hf.
    assert (Hreq : fac.request (accumulate_all outputs (fac.mkFacState req 1)) = req)
      by apply accumulate_all_request.
    by rewrite Hreq.
  - intros st ch Hp. unfold fac.Partition in Hp. cbn [req_Args] in Hp.
    destruct (Z.eqb_spec (Z.of_nat (length args)) 1) as [Hl|]; [|discriminate Hp].
    destruct args as [|s' [|? ?]]; simpl in Hl; try lia.
    cbn [negb nth] in Hp.
    destruct (strconv.ParseUint s' 10 0) as [v [e|]] eqn:E; [discriminate Hp|].
    apply ParseUint_accepted in E as (? & ? & ? & ?).
    exists s'. repeat split; try done. lia.
Qed.

Lemma fac_partition_compute_accumulate_witness :
  (chan_drain fac.FacComputation 5 (fac.mkFacChan 2 5)
     = Some [encode 2; encode 3; encode 4; encode 5] /\
   fac.result (accumulate_all [encode 2; encode 3; encode 4; encode 5]
                 (fac.mkFacState (mkRequest "fac" ["5"%string]) 1)) = 120) /\
  (chan_drain fac.FacComputation 0 (fac.mkFacChan 2 0) = Some [] /\
   fac.result (accumulate_all [] (fac.mkFacState (mkRequest "fac" ["0"%string]) 1)) = 1).
Proof.
  assert (H5 : 5 <= max_uint64) by (vm_compute; discriminate).
  assert (H0 : 0 <= max_uint64) by (vm_compute; discriminate).
  assert (Hne5 : "5"%string <> ""%string) by discriminate.
  assert (Hne0 : "0"%string <> ""%string) by discriminate.
  destruct (fac_partition_compute_accumulate "5" 5 "fac" [] None 0
              Hne5 eq_refl eq_refl H5) as (_ & Hd5 & _ & Ha5 & _).
  destruct (fac_partition_compute_accumulate "0" 0 "fac" [] None 0
              Hne0 eq_refl eq_refl H0) as (_ & Hd0 & _ & Ha0 & _).
  split; split.
  - apply Hd5. vm_compute. reflexivity.
  - apply Ha5. vm_compute. discriminate.
  - apply Hd0. vm_compute. reflexivity.
  - apply Ha0. vm_compute. discriminate.
Defined.

(** ** The loop: resubmission *)

Lemma resubmit_error_completion input r :
  resubmit_error r ->
  exists code, code <> Canceled /\
    performPartialComputation input r = Some (mkPartialResult input "" (Some code)).
Proof.
  intros (code & Hc & [-> | ->]); exists code; (split; [done|]); by destruct code.
Qed.

Lemma loop_iter_queue_bound cm count sel (s : LoopState cm) r :
  loop_iter cm count sel s = Some r ->
  Z.of_nat (length (pcResubmit cm s)) <= pcResubmit_cap ->
  Z.of_nat (length (pcResubmit cm (state_of r))) <= pcResubmit_cap.
Proof.
  intros H Hq. destruct sel as [| | |k rep|]; simpl in H.
  - by injection H as <-.
  - destruct (if 0 <? Free _ then in_ cm s else None) as [ch|]; [|done].
    destruct (cm_recv cm ch) as [[input ch']|].
    + by injection H as <-.
    + destruct (all_completed _ _); by injection H as <-.
  - destruct (if 0 <? Free _ then pcResubmit cm s else []) as [|input q] eqn:E; [done|].
    injection H as <-. simpl.
    destruct (0 <? Free _); [|done]. rewrite E in Hq. simpl in Hq. lia.
  - destruct (helpers cm s !! k) as [input|]; [|done].
    destruct (performPartialComputation input rep) as [res|]; [|done].
    destruct (pr_resubmit res).
    + simpl in H.
      destruct (Z.ltb_spec (Z.of_nat (length (pcResubmit cm s))) pcResubmit_cap);
        injection H as <-; simpl; [|done].
      rewrite length_app. simpl. lia.
    + destruct (len (pr_data res) =? 0); [by injection H as <-|].
      simpl in H. destruct (Accumulate cm (pr_data res) (cmState cm s)) as [st' ws].
      destruct (_ && _); by injection H as <-.
  - by injection H as <-.
Qed.

(** C3.  When the helper of a dispatched input completes with a resubmit
    error (any error but a cancellation: deadline exceeded, transport
    failure), the completion carries the original input; the loop then
    appends that input to the resubmit queue when the queue holds fewer
    than 100 inputs, and otherwise leaves the queue as it is, sets
    [failFast] and leaves the loop.  The queue never grows beyond 100. *)
Theorem resubmit_enqueues_or_fails_fast (cm : Computation) (count : Z * Z)
    (s : LoopState cm) (k : nat) (input : BinaryData) (r : dispatch_reply) :
  helpers cm s !! k = Some input ->
  resubmit_error r ->
  Z.of_nat (length (pcResubmit cm s)) <= pcResubmit_cap ->
  pcResubmit_cap = 100 /\
  (exists code, code <> Canceled /\
     performPartialComputation input r = Some (mkPartialResult input "" (Some code))) /\
  (Z.of_nat (length (pcResubmit cm s)) < 100 ->
   loop_iter cm count (CaseCompleted k r) s
   = Some (Continue
       (mkLoop cm (in_ cm s) (int_sub (l_pcProc cm s) 1) (pcResubmit cm s ++ [input])
          (failFast cm s) (cmState cm s) (output cm s) (delete k (helpers cm s))
          (calls cm s)))) /\
  (Z.of_nat (length (pcResubmit cm s)) = 100 ->
   loop_iter cm count (CaseCompleted k r) s
   = Some (Break
       (mkLoop cm (in_ cm s) (int_sub (l_pcProc cm s) 1) (pcResubmit cm s)
          true (cmState cm s) (output cm s) (delete k (helpers cm s))
          (calls cm s)))) /\
  (forall sel res, loop_iter cm count sel s = Some res ->
     Z.of_nat (length (pcResubmit cm (state_of res))) <= 100).
Proof.
  intros Hk Hr Hq.
  destruct (resubmit_error_completion input r Hr) as (code & Hc & Hp).
  split; [done|]. split; [by exists code|].
  split; [|split].
  - intros Hlt. simpl. rewrite Hk, Hp. simpl.
    by destruct (Z.ltb_spec (Z.of_nat (length (pcResubmit cm s))) pcResubmit_cap);
      [|unfold pcResubmit_cap in *; lia].
  - intros Heq. simpl. rewrite Hk, Hp. simpl.
    by destruct (Z.ltb_spec (Z.of_nat (length (pcResubmit cm s))) pcResubmit_cap);
      [unfold pcResubmit_cap in *; lia|].
  - intros sel res H. by apply (loop_iter_queue_bound cm count sel s res).
Qed.

Lemma resubmit_enqueues_or_fails_fast_witness :
  loop_iter fac.FacComputation (1, 2) (CaseCompleted 0 (RecvFailed DeadlineExceeded))
    (mkLoop fac.FacComputation None 1 [] false (fac.mkFacState fac5_request 1) []
       [encode 2] [DidDispatch (encode 2)])
  = Some (Continue
      (mkLoop fac.FacComputation None (int_sub 1 1) ([] ++ [encode 2]) false
         (fac.mkFacState fac5_request 1) [] (delete 0%nat [encode 2])
         [DidDispatch (encode 2)])).
Proof.
  pose (s := mkLoop fac.FacComputation None 1 [] false (fac.mkFacState fac5_request 1) []
               [encode 2] [DidDispatch (encode 2)]).
  assert (Hr : resubmit_error (RecvFailed DeadlineExceeded))
    by (exists DeadlineExceeded; split; [discriminate | by right]).
  assert (Hq : Z.of_nat (length (pcResubmit fac.FacComputation s)) <= pcResubmit_cap)
    by (vm_compute; discriminate).
  destruct (resubmit_enqueues_or_fails_fast fac.FacComputation (1, 2) s 0 (encode 2)
              (RecvFailed DeadlineExceeded) eq_refl Hr Hq) as (_ & _ & H & _).
  apply H. vm_compute. reflexivity.
Defined.

(** ** The loop: leaving it *)

Lemma count_finalize_app cs c :
  count_finalize (cs ++ [c]) = (count_finalize cs + if is_finalize c then 1 else 0)%nat.
Proof.
  unfold count_finalize. rewrite List.filter_app, length_app. simpl.
  by destruct (is_finalize c).
Qed.

Lemma all_completed_true cm (s : LoopState cm) :
  all_completed cm s = true -> l_pcProc cm s = 0 /\ pcResubmit cm s = [].
Proof.
  unfold all_completed. intros H. apply andb_true_iff in H as [H1 H2].
  split; [lia|]. destruct (pcResubmit cm s); [done|]. simpl in H2. lia.
Qed.

(** What one iteration does to [failFast] and to the calls. *)
Lemma loop_iter_exit cm count sel (l : LoopState cm) r :
  loop_iter cm count sel l = Some r ->
  failFast cm l = false ->
  count_finalize (calls cm (state_of r)) = count_finalize (calls cm l) /\
  match r with
  | Continue l' => failFast cm l' = false
  | Break l' =>
      (failFast cm l' = true /\ fail_fast_cause sel l) \/
      (failFast cm l' = false /\ in_ cm l' = None /\ l_pcProc cm l' = 0 /\
       pcResubmit cm l' = [])
  end.
Proof.
  intros H Hff. destruct sel as [| | |k rep|]; simpl in H.
  - injection H as <-. simpl. split; [done|]. by left.
  - destruct (if 0 <? Free _ then in_ cm l else None) as [ch|]; [|done].
    destruct (cm_recv cm ch) as [[input ch']|].
    + injection H as <-. simpl. rewrite count_finalize_app. simpl. split; [lia|done].
    + destruct (all_completed _ _) eqn:E; injection H as <-; simpl; (split; [done|]);
        [|done].
      right. apply all_completed_true in E as [? ?]. done.
  - destruct (if 0 <? Free _ then pcResubmit cm l else []) as [|input q]; [done|].
    injection H as <-. simpl. rewrite count_finalize_app. simpl. split; [lia|done].
  - destruct (helpers cm l !! k) as [input|] eqn:Ek; [|done].
    destruct (performPartialComputation input rep) as [res|] eqn:Ep; [|done].
    destruct (pr_resubmit res) as [code|] eqn:Er.
    + simpl in H.
      destruct (Z.ltb_spec (Z.of_nat (length (pcResubmit cm l))) pcResubmit_cap);
        injection H as <-; simpl; (split; [done|]); [done|].
      left. split; [done|]. exists input, res. rewrite Er. repeat split; try done.
      left. split; [done|lia].
    + destruct (Z.eqb_spec (len (pr_data res)) 0) as [Hz|Hz].
      * injection H as <-. simpl. split; [done|]. left. split; [done|].
        exists input, res. repeat split; try done. by right.
      * simpl in H. destruct (Accumulate cm (pr_data res) (cmState cm l)) as [st' ws].
        match type of H with context [if ?b then _ else _] => destruct b eqn:E end;
          injection H as <-; simpl; rewrite count_finalize_app; simpl;
          (split; [lia|]); [|done].
        right. apply andb_true_iff in E as [E1 E2].
        apply all_completed_true in E2 as [? ?]. simpl in *.
        unfold in_is_nil in E1. simpl in E1.
        destruct (in_ cm l); done.
  - injection H as <-. by split.
Qed.

(** Each cause of a fast failure makes the iteration leave the loop with
    [failFast] set. *)
Lemma fail_fast_cause_breaks cm count sel (l : LoopState cm) :
  fail_fast_cause sel l ->
  exists l', loop_iter cm count sel l = Some (Break l') /\ failFast cm l' = true.
Proof.
  destruct sel as [| | |k rep|]; simpl; try done.
  - intros _. by eexists.
  - intros (input & res & -> & -> & Hc).
    destruct Hc as [[Hr Hfull] | [Hr Hempty]].
    + destruct (pr_resubmit res); [|done]. simpl.
      destruct (Z.ltb_spec (Z.of_nat (length (pcResubmit cm l))) pcResubmit_cap); [lia|].
      by eexists.
    + rewrite Hr, Hempty. simpl. by eexists.
Qed.

Lemma finalize_inv_init cm req start t st ch :
  finalize_inv req start (sys_init cm t st ch).
Proof. unfold finalize_inv. simpl. done. Qed.

Lemma finalize_inv_step cm req start c_id e (s s' : Sys cm) :
  sys_step cm req start c_id e s = Some (Ok s') ->
  finalize_inv req start s -> finalize_inv req start s'.
Proof.
  intros H Hinv.
  assert (Htrack : forall es, track cm es s = Some (Ok s') -> finalize_inv req start s').
  { intros es Ht. unfold track in Ht.
    destruct (run_effects es (tracker cm s)) as [[t' rs]|]; [|done].
    destruct (fits t'); [|done]. injection Ht as <-. exact Hinv. }
  destruct e as [ar | ac | evt | k | sel]; cbn [sys_step] in H; eauto.
  - unfold helper_canceled in H.
    destruct (helpers cm (loop cm s) !! k); [|done]. simpl in H.
    injection H as <-. exact Hinv.
  - unfold finalize_inv in Hinv. destruct (exited cm s) eqn:Ex; [done|].
    destruct Hinv as [Hff Hc].
    destruct (loop_iter cm (Count (tracker cm s)) sel (loop cm s)) as [[l'|l']|] eqn:E;
      [| |done]; injection H as <-;
      destruct (loop_iter_exit cm _ _ _ _ E Hff) as [Hcount Hr];
      unfold finalize_inv; simpl in *.
    + split; [done|]. by rewrite Hcount.
    + unfold after_loop.
      destruct Hr as [[Hf _] | (Hf & Hin & Hp & Hq)]; rewrite Hf; simpl; rewrite ?Hf.
      * rewrite count_finalize_app. simpl. split; [lia|]. by eexists _, _.
      * rewrite count_finalize_app. simpl. split; [lia|]. repeat split; try done.
        by eexists _, _.
Qed.

Lemma finalize_inv_states cm req start c_id tr : forall (s : Sys cm),
  finalize_inv req start s ->
  Forall (finalize_inv req start) (sys_states cm req start c_id tr s).
Proof.
  induction tr as [|e tr IH]; intros s Hinv; simpl; [constructor|].
  destruct (sys_step cm req start c_id e s) as [[s'|]|] eqn:E; try constructor.
  - by apply (finalize_inv_step cm req start c_id e s).
  - apply IH. by apply (finalize_inv_step cm req start c_id e s).
Qed.

(** C4.  In every state a coordinator reaches, [Finalize] has been called
    at most once, and it has been called (with the start time, as the last
    call of the goroutine) iff the loop was left without [failFast]; in
    that case the variable [in] is nil (the input channel was found closed),
    no partial computation is in flight and the resubmit queue is empty.
    When the loop was left with [failFast], [Finalize] has not been called
    and the last thing written is the one line "Computation <name><args>
    failed".  An iteration sets
    [failFast] exactly on a done context, on a resubmit that finds the
    queue full, and on a result without data. *)
Theorem Finalize_iff_clean_exit (cm : Computation) (req : ComputeRequest)
    (start : Z) (c_id : string) (tr : list sys_event) (t : Tracker)
    (st : cm_State cm) (ch : cm_Chan cm) (s : Sys cm) :
  s ∈ sys_states cm req start c_id tr (sys_init cm t st ch) ->
  let l := loop cm s in
  (count_finalize (calls cm l) <= 1)%nat /\
  (count_finalize (calls cm l) = 1%nat <-> exited cm s = true /\ failFast cm l = false) /\
  (exited cm s = true -> failFast cm l = false ->
   in_ cm l = None /\ l_pcProc cm l = 0 /\ pcResubmit cm l = [] /\
   exists cs ws, calls cm l = cs ++ [DidFinalize start] /\
                 output cm l = ws ++ Finalize cm start (cmState cm l)) /\
  (exited cm s = true -> failFast cm l = true ->
   count_finalize (calls cm l) = 0%nat /\
   exists cs ws, calls cm l = cs ++ [DidFailureMessage] /\
                 output cm l
                 = ws ++ [Fprintf "Computation %s%v failed\n"
                            [ArgString (req_Name req); ArgStrings (req_Args req)]]) /\
  (forall count sel (l0 : LoopState cm), failFast cm l0 = false ->
     (exists l', loop_iter cm count sel l0 = Some (Break l') /\ failFast cm l' = true)
     <-> fail_fast_cause sel l0).
Proof.
  intros Hs l.
  pose proof (finalize_inv_states cm req start c_id tr _
                (finalize_inv_init cm req start t st ch)) as Hall.
  rewrite Forall_forall in Hall. specialize (Hall s Hs).
  unfold finalize_inv in Hall. cbv zeta in Hall. subst l.
  split; [|split; [|split; [|split]]].
  - destruct (exited cm s); [destruct (failFast cm (loop cm s))|].
    + destruct Hall as [-> _]. lia.
    + destruct Hall as [-> _]. lia.
    + destruct Hall as [_ ->]. lia.
  - destruct (exited cm s); [destruct (failFast cm (loop cm s))|].
    + destruct Hall as [-> _]. split; [done | by intros [_ ?]].
    + destruct Hall as [-> _]. done.
    + destruct Hall as [_ ->]. split; [done | by intros [? _]].
  - intros Hex Hff. rewrite Hex, Hff in Hall. by destruct Hall as (_ & ? & ? & ? & ?).
  - intros Hex Hff. by rewrite Hex, Hff in Hall.
  - intros count sel l0 Hff0. split.
    + intros (l' & E & Hl').
      destruct (loop_iter_exit cm count sel l0 _ E Hff0) as [_ [[_ Hc] | [Hf _]]];
        [done | congruence].
    + apply fail_fast_cause_breaks.
Qed.

Lemma Finalize_iff_clean_exit_witness :
  (sys_states fac.FacComputation fac0_request 7 "c1" [EvIter CaseIn] fac0_init = [fac0_final] /\
   count_finalize (calls _ (loop _ fac0_final)) = 1%nat /\
   output _ (loop _ fac0_final)
   = [ Fprintf "Computation time: %v\n" [ArgSince 7];
       Fprintf "Computation %s%v = %v\n"
         [ArgString "fac"; ArgStrings ["0"%string]; ArgBigInt 1] ]) /\
  (sys_states fac.FacComputation fac0_request 7 "c1" wait_then_signal fac0_alone
   = [fac0_alone; fac0_failed] /\
   count_finalize (calls _ (loop _ fac0_failed)) = 0%nat /\
   output _ (loop _ fac0_failed)
   = [ Fprintf "Computation %s%v failed\n" [ArgString "fac"; ArgStrings ["0"%string]] ]).
Proof.
  split.
  - assert (Hrun : sys_states fac.FacComputation fac0_request 7 "c1" [EvIter CaseIn]
                     fac0_init = [fac0_final]) by reflexivity.
    assert (Hin : fac0_final ∈ sys_states fac.FacComputation fac0_request 7 "c1"
                    [EvIter CaseIn]
                    (sys_init fac.FacComputation
                       (mkTracker {[ "c1"%string ]} {[ "w1"%string ]})
                       (fac.mkFacState fac0_request 1) (fac.mkFacChan 2 0))).
    { change (fac0_final ∈ sys_states fac.FacComputation fac0_request 7 "c1"
                [EvIter CaseIn] fac0_init).
      rewrite Hrun. constructor. }
    destruct (Finalize_iff_clean_exit fac.FacComputation fac0_request 7 "c1"
                [EvIter CaseIn] _ _ _ fac0_final Hin) as (_ & Hiff & _).
    split; [exact Hrun|]. split; [|reflexivity].
    apply Hiff. split; reflexivity.
  - assert (Hrun : sys_states fac.FacComputation fac0_request 7 "c1" wait_then_signal
                     fac0_alone = [fac0_alone; fac0_failed]) by reflexivity.
    assert (Hin : fac0_failed ∈ sys_states fac.FacComputation fac0_request 7 "c1"
                    wait_then_signal
                    (sys_init fac.FacComputation (mkTracker {[ "c1"%string ]} ∅)
                       (fac.mkFacState fac0_request 1) (fac.mkFacChan 2 0))).
    { change (fac0_failed ∈ sys_states fac.FacComputation fac0_request 7 "c1"
                wait_then_signal fac0_alone).
      rewrite Hrun. apply elem_of_cons. right. constructor. }
    destruct (Finalize_iff_clean_exit fac.FacComputation fac0_request 7 "c1"
                wait_then_signal _ _ _ fac0_failed Hin) as (_ & _ & _ & Hfail & _).
    split; [exact Hrun|]. split; [|reflexivity].
    exact (proj1 (Hfail eq_refl eq_refl)).
Defined.

(** ** The loop: rate limit *)

Lemma Free_positive cc cw p :
  0 <= cc <= max_int -> 0 <= cw <= max_int -> 0 <= p <= max_int ->
  (0 <? Free (mkFreeState cc cw p)) = true ->
  0 < cc /\ p + 1 <= cw / cc /\ cw / cc <= max_int.
Proof.
  intros Hc Hw Hp H. apply Z.ltb_lt in H.
  destruct (Z.eq_dec cc 0) as [->|Hne]; [by rewrite Free_zero_coordinators in H|].
  rewrite Free_share in H by lia.
  destruct (int_quo_nonneg cw cc Hw) as [_ ?]; lia.
Qed.

Lemma length_helpers_delete (hs : list BinaryData) k input :
  hs !! k = Some input -> Z.of_nat (length (delete k hs)) = Z.of_nat (length hs) - 1.
Proof.
  intros H. rewrite length_delete by done.
  apply lookup_lt_Some in H. lia.
Qed.

(** Counting across one iteration: the number in flight stays between the
    number of running helpers and the largest [int], and when it grows it
    stays within the share [cw / cc] the iteration has read. *)
Lemma loop_iter_counting cm cc cw sel (l : LoopState cm) r :
  loop_iter cm (cc, cw) sel l = Some r ->
  0 <= cc <= max_int -> 0 <= cw <= max_int ->
  Z.of_nat (length (helpers cm l)) <= l_pcProc cm l <= max_int ->
  let l' := state_of r in
  Z.of_nat (length (helpers cm l')) <= l_pcProc cm l' <= max_int /\
  (l_pcProc cm l' <= l_pcProc cm l \/ l_pcProc cm l' <= cw / cc).
Proof.
  intros H Hc Hw Hp. cbv zeta.
  assert (Hdisp : (0 <? Free (mkFreeState cc cw (l_pcProc cm l))) = true ->
                  int_add (l_pcProc cm l) 1 = l_pcProc cm l + 1 /\
                  l_pcProc cm l + 1 <= cw / cc /\ cw / cc <= max_int).
  { intros Hf. apply Free_positive in Hf as (? & ? & ?); [|lia..].
    split; [|done]. unfold int_add. apply wrap_int_id.
    unfold is_int, min_int, max_int in *. lia. }
  destruct sel as [| | |k rep|]; simpl in H.
  - injection H as <-. simpl. lia.
  - destruct (0 <? Free _) eqn:Ef; [|done]. destruct (Hdisp eq_refl) as (Ha & ? & ?).
    destruct (in_ cm l) as [ch|]; [|done].
    destruct (cm_recv cm ch) as [[input ch']|].
    + injection H as <-. simpl. rewrite Ha, length_app. simpl. lia.
    + destruct (all_completed _ _); injection H as <-; simpl; lia.
  - destruct (0 <? Free _) eqn:Ef; [|done]. destruct (Hdisp eq_refl) as (Ha & ? & ?).
    destruct (pcResubmit cm l) as [|input q]; [done|].
    injection H as <-. simpl. rewrite Ha, length_app. simpl. lia.
  - destruct (helpers cm l !! k) as [input|] eqn:Ek; [|done].
    pose proof (length_helpers_delete _ _ _ Ek) as Hd.
    assert (Hpos : 1 <= Z.of_nat (length (helpers cm l))).
    { apply lookup_lt_Some in Ek. lia. }
    assert (Hs : int_sub (l_pcProc cm l) 1 = l_pcProc cm l - 1).
    { unfold int_sub. apply wrap_int_id. unfold is_int, min_int, max_int in *. lia. }
    destruct (performPartialComputation input rep) as [res|]; [|done].
    destruct (pr_resubmit res).
    + simpl in H. destruct (_ <? pcResubmit_cap); injection H as <-; simpl; lia.
    + destruct (len (pr_data res) =? 0); [injection H as <-; simpl; lia|].
      simpl in H. destruct (Accumulate cm (pr_data res) (cmState cm l)) as [st' ws].
      destruct (_ && _); injection H as <-; simpl; lia.
  - injection H as <-. simpl. lia.
Qed.

Lemma after_loop_counting cm req start (l : LoopState cm) :
  helpers cm (after_loop cm req start l) = helpers cm l /\
  l_pcProc cm (after_loop cm req start l) = l_pcProc cm l.
Proof. unfold after_loop. by destruct (negb (failFast cm l)). Qed.

Lemma fits_counts t :
  fits t = true ->
  0 <= fst (Count t) <= max_int /\ 0 <= snd (Count t) <= max_int.
Proof.
  unfold fits, Count. intros H. apply andb_true_iff in H as [H1 H2]. simpl. lia.
Qed.

Lemma counting_inv_step cm req start c_id e (s s' : Sys cm) :
  sys_step cm req start c_id e s = Some (Ok s') ->
  counting_inv s ->
  counting_inv s' /\
  (pcProc_of cm s' <= pcProc_of cm s \/ pcProc_of cm s' <= share cm s').
Proof.
  intros H [Hfit Hp]. unfold pcProc_of.
  assert (Htrack : forall es, track cm es s = Some (Ok s') ->
            counting_inv s' /\
            (l_pcProc cm (loop cm s') <= l_pcProc cm (loop cm s) \/
             l_pcProc cm (loop cm s') <= share cm s')).
  { intros es Ht. unfold track in Ht.
    destruct (run_effects es (tracker cm s)) as [[t' rs]|]; [|done].
    destruct (fits t') eqn:Ef; [|done]. injection Ht as <-.
    split; [by split|]. simpl. lia. }
  destruct e as [ar | ac | evt | k | sel]; cbn [sys_step] in H; eauto.
  - unfold helper_canceled in H.
    destruct (helpers cm (loop cm s) !! k) eqn:Ek; [|done]. simpl in H.
    injection H as <-. pose proof (length_helpers_delete _ _ _ Ek).
    split; [split; [done|simpl; lia]|]. simpl. lia.
  - destruct (exited cm s); [done|].
    destruct (fits_counts _ Hfit) as [Hc Hw].
    destruct (Count (tracker cm s)) as [cc cw] eqn:Ecount. simpl in Hc, Hw.
    destruct (loop_iter cm (cc, cw) sel (loop cm s)) as [r|] eqn:E; [|done].
    destruct (loop_iter_counting cm cc cw sel _ r E Hc Hw Hp) as [Hp' Hle].
    assert (Hshare : forall l b, share cm (mkSys cm (tracker cm s) l b) = cw / cc).
    { intros l b. unfold share. cbn [tracker]. by rewrite Ecount. }
    destruct r as [l'|l']; injection H as <-; cbn [state_of] in Hp', Hle;
      unfold counting_inv; cbn [loop tracker].
    + split; [by split|]. rewrite Hshare. lia.
    + destruct (after_loop_counting cm req start l') as [-> ->].
      split; [by split|]. rewrite Hshare. lia.
Qed.

(** Along a schedule, the number in flight at a state is at most the number
    at the start or the share of some state visited up to then. *)
Lemma pcProc_bounded_by_visited_share cm req start c_id tr : forall (s : Sys cm) i si,
  counting_inv s ->
  sys_states cm req start c_id tr s !! i = Some si ->
  counting_inv si /\
  (pcProc_of cm si <= pcProc_of cm s \/
   exists j h, (j <= i)%nat /\ sys_states cm req start c_id tr s !! j = Some h /\
               pcProc_of cm si <= share cm h).
Proof.
  induction tr as [|e tr IH]; intros s i si Hinv Hi; simpl in *; [done|].
  destruct (sys_step cm req start c_id e s) as [[s1|]|] eqn:E; try done.
  destruct (counting_inv_step cm req start c_id e s s1 E Hinv) as [Hinv1 Hstep].
  destruct i as [|i]; simpl in Hi.
  - injection Hi as <-. split; [done|].
    destruct Hstep as [?|?]; [by left|]. right. exists 0%nat, s1. by repeat split.
  - destruct (IH s1 i si Hinv1 Hi) as [Hinvi [Hle | (j & h & Hj & Hh & Hle)]].
    + split; [done|]. destruct Hstep as [?|?]; [left; lia|].
      right. exists 0%nat, s1. split; [lia|]. split; [done|lia].
    + split; [done|]. right. exists (S j), h. split; [lia|]. by split.
Qed.

(** Once two inputs are dispatched to two workers and both workers have
    left, two partial computations are in flight while W / C is 0: the
    bound fails in the last state of the schedule. *)
Lemma rate_limit_exceeded_after_workers_leave :
  pcProc_of _ <$>
    last (visited fac.FacComputation fac5_request 0 "c1" workers_leave_schedule fac5_init)
    = Some 2 /\
  (fun s => Count (tracker _ s)) <$>
    last (visited fac.FacComputation fac5_request 0 "c1" workers_leave_schedule fac5_init)
    = Some (1, 0) /\
  ~ (forall s,
       s ∈ visited fac.FacComputation fac5_request 0 "c1" workers_leave_schedule fac5_init ->
       rate_limit_bound _ s).
Proof.
  assert (HP : pcProc_of _ <$>
    last (visited fac.FacComputation fac5_request 0 "c1" workers_leave_schedule fac5_init)
    = Some 2) by (vm_compute; reflexivity).
  assert (HS : share _ <$>
    last (visited fac.FacComputation fac5_request 0 "c1" workers_leave_schedule fac5_init)
    = Some 0) by (vm_compute; reflexivity).
  split; [exact HP|]. split; [vm_compute; reflexivity|].
  intros H.
  destruct (last (visited fac.FacComputation fac5_request 0 "c1"
                    workers_leave_schedule fac5_init)) as [s|] eqn:E; [|discriminate HP].
  apply last_Some_elem_of in E. specialize (H s E).
  unfold rate_limit_bound in H.
  injection HP as HP. injection HS as HS. rewrite HP, HS in H. lia.
Qed.

(** C2, as the code has it.  Between the iterations of a coordinator's loop
    the number P of partial computations in flight is at most max(1, W / C)
    for the counts W and C the tracker had at that point or at some earlier
    point of the run; hence the bound holds for the current counts wherever
    W / C is not below what it was earlier in the run.  P grows only in an
    iteration that leaves it within W / C for the counts of that
    iteration, and P is never negative. *)
Theorem in_flight_within_visited_share (cm : Computation) (req : ComputeRequest)
    (start : Z) (c_id : string) (tr : list sys_event) (t : Tracker)
    (st : cm_State cm) (ch : cm_Chan cm) (i : nat) (s : Sys cm) :
  fits t = true ->
  visited cm req start c_id tr (sys_init cm t st ch) !! i = Some s ->
  (exists j h, (j <= i)%nat /\
     visited cm req start c_id tr (sys_init cm t st ch) !! j = Some h /\
     pcProc_of cm s <= Z.max 1 (share cm h)) /\
  ((forall j h, (j <= i)%nat ->
      visited cm req start c_id tr (sys_init cm t st ch) !! j = Some h ->
      share cm h <= share cm s) ->
   rate_limit_bound cm s) /\
  (forall e s', sys_step cm req start c_id e s = Some (Ok s') ->
     pcProc_of cm s < pcProc_of cm s' ->
     share cm s' = share cm s /\ pcProc_of cm s' <= share cm s) /\
  0 <= pcProc_of cm s.
Proof.
  intros Hfit Hi. set (s0 := sys_init cm t st ch) in *.
  assert (Hinv0 : counting_inv s0) by (split; [done | simpl; unfold max_int; lia]).
  assert (Hs : counting_inv s /\
               exists j h, (j <= i)%nat /\ visited cm req start c_id tr s0 !! j = Some h /\
                           pcProc_of cm s <= Z.max 1 (share cm h)).
  { destruct i as [|i]; unfold visited in *; simpl in Hi.
    - injection Hi as <-. split; [done|]. exists 0%nat, s0.
      split; [lia|]. split; [done|]. unfold pcProc_of. simpl. lia.
    - destruct (pcProc_bounded_by_visited_share cm req start c_id tr s0 i s Hinv0 Hi)
        as [Hinv [Hle | (j & h & Hj & Hh & Hle)]]; (split; [done|]).
      + exists 0%nat, s0. split; [lia|]. split; [done|].
        unfold pcProc_of in *. simpl in Hle. lia.
      + exists (S j), h. split; [lia|]. split; [done|]. lia. }
  destruct Hs as [Hinv (j & h & Hj & Hh & Hle)].
  split; [by exists j, h|]. split; [|split].
  - intros Hmono. unfold rate_limit_bound. specialize (Hmono j h Hj Hh). lia.
  - intros e s' Hstep Hlt.
    destruct (counting_inv_step cm req start c_id e s s' Hstep Hinv) as [_ Hor].
    assert (Hsh : share cm s' = share cm s).
    { destruct e as [ar | ac | evt | k | sel]; cbn [sys_step] in Hstep.
      1-3: unfold track in Hstep;
        destruct (run_effects _ (tracker cm s)) as [[t' rs]|]; [|done];
        destruct (fits t'); [|done]; injection Hstep as <-;
        unfold pcProc_of in Hlt; simpl in Hlt; lia.
      - unfold helper_canceled in Hstep.
        destruct (helpers cm (loop cm s) !! k); [|done]. simpl in Hstep.
        injection Hstep as <-. unfold pcProc_of in Hlt. simpl in Hlt. lia.
      - destruct (exited cm s); [done|].
        destruct (loop_iter cm (Count (tracker cm s)) sel (loop cm s)) as [[l'|l']|];
          [| |done]; by injection Hstep as <-. }
    split; [done|]. rewrite <- Hsh. lia.
  - destruct Hinv as [_ Hp]. unfold pcProc_of. lia.
Qed.

Lemma in_flight_within_visited_share_witness :
  exists s,
    visited fac.FacComputation fac5_request 0 "c1" workers_leave_schedule fac5_init
      !! 4%nat = Some s /\
    0 <= pcProc_of _ s.
Proof.
  assert (Hfit : fits (mkTracker {[ "c1"%string ]} ∅) = true) by (vm_compute; reflexivity).
  assert (Hlen : length (visited fac.FacComputation fac5_request 0 "c1"
                           workers_leave_schedule fac5_init) = 8%nat)
    by (vm_compute; reflexivity).
  destruct (visited fac.FacComputation fac5_request 0 "c1" workers_leave_schedule
              fac5_init !! 4%nat) as [s|] eqn:Hs.
  - exists s. split; [reflexivity|].
    exact (proj2 (proj2 (proj2
      (in_flight_within_visited_share fac.FacComputation fac5_request 0 "c1"
         workers_leave_schedule _ _ _ 4 s Hfit Hs)))).
  - apply lookup_ge_None in Hs. rewrite Hlen in Hs. lia.
Defined.

(** ** The coordinator command *)

Lemma TryJoin_self c_id :
  TryJoin RoleCoordinator c_id NewTracker = Ok (true, self_tracker c_id).
Proof.
  unfold TryJoin. simpl. rewrite bool_decide_eq_false_2; [done | set_solver].
Qed.

Lemma finalize_inv_exec cm req start c_id tr : forall (s s' : Sys cm),
  sys_exec cm req start c_id tr s = Some (Ok s') ->
  finalize_inv req start s -> finalize_inv req start s'.
Proof.
  induction tr as [|e tr IH]; intros s s' H Hinv; simpl in H.
  - by injection H as <-.
  - destruct (sys_step cm req start c_id e s) as [[s1|]|] eqn:E; try done.
    apply (IH s1 s' H). by apply (finalize_inv_step cm req start c_id e s).
Qed.

(** ** The coordinator process *)

Lemma run_step_finalize_inv cm req start c_id ev (r r' : Run cm) :
  run_step cm req start c_id ev r = Some r' ->
  finalize_inv req start (run_sys cm r) -> finalize_inv req start (run_sys cm r').
Proof.
  intros H Hinv. destruct ev as [name | e]; cbn [run_step] in H.
  - destruct (run_signal cm r); [done|]. by injection H as <-.
  - destruct (tracking c_id e) as [[g es]|].
    + destruct (is_blocked g (run_blocked cm r)); [done|].
      destruct (sys_step cm req start c_id e (run_sys cm r)) as [[s'|msg]|] eqn:E; [| |done].
      * injection H as <-. by apply (finalize_inv_step cm req start c_id e (run_sys cm r)).
      * by injection H as <-.
    + destruct (is_done e && negb (signaled cm r)); [done|].
      destruct (sys_step cm req start c_id e (run_sys cm r)) as [[s'|msg]|] eqn:E; try done.
      injection H as <-. by apply (finalize_inv_step cm req start c_id e (run_sys cm r)).
Qed.

Lemma run_exec_finalize_inv cm req start c_id tr : forall (r r' : Run cm),
  run_exec cm req start c_id tr r = Some r' ->
  finalize_inv req start (run_sys cm r) -> finalize_inv req start (run_sys cm r').
Proof.
  induction tr as [|ev tr IH]; intros r r' H Hinv; simpl in H.
  - by injection H as <-.
  - destruct (run_step cm req start c_id ev r) as [r1|] eqn:E; [|done]. simpl in H.
    apply (IH r1 r' H). by apply (run_step_finalize_inv cm req start c_id ev r).
Qed.

Lemma loop_iter_output cm count sel (l : LoopState cm) res :
  loop_iter cm count sel l = Some res ->
  (length (output cm l) <= length (output cm (state_of res)))%nat.
Proof.
  intros H. destruct sel as [| | |k rep|]; cbn [loop_iter] in H.
  - by injection H as <-.
  - destruct (if 0 <? Free _ then in_ cm l else None) as [ch|]; [|done].
    destruct (cm_recv cm ch) as [[input ch']|].
    + by injection H as <-.
    + destruct (all_completed _ _); by injection H as <-.
  - destruct (if 0 <? Free _ then pcResubmit cm l else []) as [|input q]; [done|].
    by injection H as <-.
  - destruct (helpers cm l !! k) as [input|]; [|done].
    destruct (performPartialComputation input rep) as [pr|]; [|done].
    destruct (pr_resubmit pr).
    + simpl in H. destruct (_ <? pcResubmit_cap); by injection H as <-.
    + destruct (len (pr_data pr) =? 0); [by injection H as <-|].
      simpl in H. destruct (Accumulate cm (pr_data pr) (cmState cm l)) as [st' ws].
      destruct (_ && _); injection H as <-; simpl; rewrite length_app; lia.
  - by injection H as <-.
Qed.

Lemma sys_step_output cm req start c_id e (s s' : Sys cm) :
  sys_step cm req start c_id e s = Some (Ok s') ->
  (length (output cm (loop cm s)) <= length (output cm (loop cm s')))%nat.
Proof.
  intros H.
  assert (Htrack : forall es, track cm es s = Some (Ok s') ->
            (length (output cm (loop cm s)) <= length (output cm (loop cm s')))%nat).
  { intros es Ht. unfold track in Ht.
    destruct (run_effects es (tracker cm s)) as [[t' rs]|]; [|done].
    destruct (fits t'); [|done]. by injection Ht as <-. }
  destruct e as [ar | ac | evt | k | sel]; cbn [sys_step] in H; eauto.
  - unfold helper_canceled in H.
    destruct (helpers cm (loop cm s) !! k); [|done]. simpl in H. by injection H as <-.
  - destruct (exited cm s); [done|].
    destruct (loop_iter cm (Count (tracker cm s)) sel (loop cm s)) as [res|] eqn:E; [|done].
    pose proof (loop_iter_output cm _ _ _ _ E) as Hle.
    destruct res as [l' | l']; injection H as <-; simpl in *; [done|].
    unfold after_loop. destruct (negb _); simpl; rewrite length_app; lia.
Qed.

Lemma run_step_signal cm req start c_id ev (r r' : Run cm) :
  run_step cm req start c_id ev r = Some r' ->
  signal_inv r ->
  signal_inv r' /\
  (signaled cm r = true -> signaled cm r' = true) /\
  (ev = Step (EvIter CaseDone) -> signaled cm r = true).
Proof.
  intros H Hinv.
  destruct ev as [name | e]; cbn [run_step] in H; unfold signal_inv, signaled in *.
  - destruct (run_signal cm r); [done|]. injection H as <-. simpl. by repeat split.
  - destruct (tracking c_id e) as [[g es]|] eqn:Et.
    + destruct (is_blocked g (run_blocked cm r)); [done|].
      destruct (sys_step cm req start c_id e (run_sys cm r)) as [[s'|msg]|] eqn:E; [| |done].
      * injection H as <-. simpl. pose proof (sys_step_output cm req start c_id e _ _ E).
        split; [destruct (run_signal cm r) as [[k nm]|]; [lia|done]|].
        split; [done|]. intros [= ->]. done.
      * injection H as <-. simpl. split; [done|]. split; [done|]. intros [= ->]. done.
    + destruct (is_done e && negb (match run_signal cm r with Some _ => true | None => false end))
        eqn:Ed; [done|].
      destruct (sys_step cm req start c_id e (run_sys cm r)) as [[s'|msg]|] eqn:E; try done.
      injection H as <-. simpl. pose proof (sys_step_output cm req start c_id e _ _ E).
      split; [destruct (run_signal cm r) as [[k nm]|]; [lia|done]|].
      split; [done|]. intros [= ->]. simpl in Ed.
      by destruct (run_signal cm r).
Qed.

Lemma run_exec_signal cm req start c_id tr : forall (r r' : Run cm),
  run_exec cm req start c_id tr r = Some r' ->
  signal_inv r ->
  signal_inv r' /\
  (signaled cm r = true -> signaled cm r' = true) /\
  (Step (EvIter CaseDone) ∈ tr -> signaled cm r' = true).
Proof.
  induction tr as [|ev tr IH]; intros r r' H Hinv; simpl in H.
  - injection H as <-. split; [done|]. split; [done|]. by intros ?%elem_of_nil.
  - destruct (run_step cm req start c_id ev r) as [r1|] eqn:E; [|done]. simpl in H.
    destruct (run_step_signal cm req start c_id ev r r1 E Hinv) as (Hinv1 & Hmono & Hdone).
    destruct (IH r1 r' H Hinv1) as (Hinv' & Hmono' & Hdone').
    split; [done|]. split; [by auto|].
    intros [Heq | Hin]%elem_of_cons; [|by auto].
    apply Hmono', Hmono, Hdone. done.
Qed.

(** A tracking goroutine panics only on an announcement whose role is
    neither coordinator nor worker. *)
Lemma tracking_known_role c_id e g es t :
  names_known_role (Step e) ->
  tracking c_id e = Some (g, es) ->
  exists t' rs, run_effects es t = Ok (t', rs).
Proof.
  intros Hrole Ht. destruct e as [ar | ac | evt | k | sel]; simpl in *; try done;
    injection Ht as <- <-.
  - destruct (TryJoin_valid _ (string_of_bytes (ar_Data ar)) t Hrole) as (t' & E & _).
    unfold Coordinator_announce_recv. simpl. rewrite E. simpl. by eexists _, _.
  - unfold Coordinator_trackCoordinators.
    destruct (bytes_Equal (ac_Params ac) DataAnnounceJoin); [|by eexists _, _].
    destruct (negb _); [|by eexists _, _].
    destruct (TryJoin_valid _ (ac_Id ac) t Hrole) as (t' & E & _).
    simpl. rewrite E. simpl. by eexists _, _.
  - unfold Coordinator_trackWorkers.
    destruct (bytes_Equal (ev_Data evt) DataAnnounceJoin); [|by eexists _, _].
    destruct (TryJoin_valid _ (ev_Id evt) t Hrole) as (t' & E & _).
    simpl. rewrite E. simpl. by eexists _, _.
Qed.

Lemma early_exec_known_roles c_id tr : forall x x',
  Forall names_known_role tr ->
  early_exec c_id tr x = Some x' ->
  early_blocked x = [] -> early_blocked x' = [].
Proof.
  induction tr as [|ev tr IH]; intros x x' Hall H Hb; simpl in H.
  - by injection H as <-.
  - apply Forall_cons in Hall as [Hev Hall].
    destruct (early_step c_id ev x) as [x1|] eqn:E; [|done]. simpl in H.
    apply (IH x1 x' Hall H). destruct ev as [name | e]; cbn [early_step] in E.
    + destruct (early_signal x); [done|]. by injection E as <-.
    + destruct (tracking c_id e) as [[g es]|] eqn:Et; [|done].
      destruct (is_blocked g (early_blocked x)); [done|].
      destruct (tracking_known_role c_id e g es (early_tracker x) Hev Et) as (t' & rs & Er).
      rewrite Er in E. destruct (fits t'); [|done]. by injection E as <-.
Qed.

Lemma run_exec_known_roles cm req start c_id tr : forall (r r' : Run cm),
  Forall names_known_role tr ->
  run_exec cm req start c_id tr r = Some r' ->
  run_blocked cm r = [] -> run_blocked cm r' = [].
Proof.
  induction tr as [|ev tr IH]; intros r r' Hall H Hb; simpl in H.
  - by injection H as <-.
  - apply Forall_cons in Hall as [Hev Hall].
    destruct (run_step cm req start c_id ev r) as [r1|] eqn:E; [|done]. simpl in H.
    apply (IH r1 r' Hall H). destruct ev as [name | e]; cbn [run_step] in E.
    + destruct (run_signal cm r); [done|]. by injection E as <-.
    + destruct (tracking c_id e) as [[g es]|] eqn:Et.
      * destruct (is_blocked g (run_blocked cm r)); [done|].
        destruct (tracking_known_role c_id e g es (tracker cm (run_sys cm r)) Hev Et)
          as (t' & rs & Er).
        assert (Hs : sys_step cm req start c_id e (run_sys cm r)
                     = track cm es (run_sys cm r)).
        { destruct e; simpl in Et; try done; by injection Et as <- <-. }
        rewrite Hs in E. unfold track in E. rewrite Er in E.
        destruct (fits t'); [|done]. by injection E as <-.
      * destruct (is_done e && _); [done|].
        destruct (sys_step cm req start c_id e (run_sys cm r)) as [[s'|msg]|]; try done.
        by injection E as <-.
Qed.

Lemma TryJoin_panic_value role id t msg :
  TryJoin role id t = Panic msg -> msg = "assignment to entry in nil map"%string.
Proof.
  unfold TryJoin. destruct (bool_decide _); [done|].
  destruct (select_set role); simpl; [|done..]. by intros [= <-].
Qed.

Lemma tracking_panic_value c_id e g es t msg :
  tracking c_id e = Some (g, es) -> run_effects es t = Panic msg ->
  msg = "assignment to entry in nil map"%string.
Proof.
  intros Ht. destruct e as [ar | ac | evt | k | sel]; simpl in Ht; try done;
    injection Ht as <- <-.
  - unfold Coordinator_announce_recv. simpl.
    destruct (TryJoin _ _ t) as [[b t']|m] eqn:E; [done|].
    simpl. intros [= <-]. by apply (TryJoin_panic_value _ _ _ _ E).
  - unfold Coordinator_trackCoordinators.
    destruct (bytes_Equal (ac_Params ac) DataAnnounceJoin); [|done].
    destruct (negb _); [|done]. simpl.
    destruct (TryJoin _ _ t) as [[b t']|m] eqn:E; [done|].
    simpl. intros [= <-]. by apply (TryJoin_panic_value _ _ _ _ E).
  - unfold Coordinator_trackWorkers.
    destruct (bytes_Equal (ev_Data evt) DataAnnounceJoin); [|done]. simpl.
    destruct (TryJoin _ _ t) as [[b t']|m] eqn:E; [done|].
    simpl. intros [= <-]. by apply (TryJoin_panic_value _ _ _ _ E).
Qed.

Lemma early_exec_panic_values c_id tr : forall x x',
  early_exec c_id tr x = Some x' ->
  Forall (fun p => p.2 = "assignment to entry in nil map"%string) (early_blocked x) ->
  Forall (fun p => p.2 = "assignment to entry in nil map"%string) (early_blocked x').
Proof.
  induction tr as [|ev tr IH]; intros x x' H Hb; simpl in H.
  - by injection H as <-.
  - destruct (early_step c_id ev x) as [x1|] eqn:E; [|done]. simpl in H.
    apply (IH x1 x' H). destruct ev as [name | e]; cbn [early_step] in E.
    + destruct (early_signal x); [done|]. by injection E as <-.
    + destruct (tracking c_id e) as [[g es]|] eqn:Et; [|done].
      destruct (is_blocked g (early_blocked x)); [done|].
      destruct (run_effects es (early_tracker x)) as [[t' rs]|msg] eqn:Er.
      * destruct (fits t'); [|done]. by injection E as <-.
      * injection E as <-. simpl. apply Forall_app. split; [done|].
        constructor; [|done]. simpl. by apply (tracking_panic_value c_id e g es _ _ Et Er).
Qed.

Lemma run_exec_panic_values cm req start c_id tr : forall (r r' : Run cm),
  run_exec cm req start c_id tr r = Some r' ->
  Forall (fun p => p.2 = "assignment to entry in nil map"%string) (run_blocked cm r) ->
  Forall (fun p => p.2 = "assignment to entry in nil map"%string) (run_blocked cm r').
Proof.
  induction tr as [|ev tr IH]; intros r r' H Hb; simpl in H.
  - by injection H as <-.
  - destruct (run_step cm req start c_id ev r) as [r1|] eqn:E; [|done]. simpl in H.
    apply (IH r1 r' H). destruct ev as [name | e]; cbn [run_step] in E.
    + destruct (run_signal cm r); [done|]. by injection E as <-.
    + destruct (tracking c_id e) as [[g es]|] eqn:Et.
      * destruct (is_blocked g (run_blocked cm r)); [done|].
        assert (Hs : sys_step cm req start c_id e (run_sys cm r)
                     = track cm es (run_sys cm r)).
        { destruct e; simpl in Et; try done; by injection Et as <- <-. }
        rewrite Hs in E. unfold track in E.
        destruct (run_effects es (tracker cm (run_sys cm r))) as [[t' rs]|msg] eqn:Er.
        -- destruct (fits t'); [|done]. by injection E as <-.
        -- injection E as <-. simpl. apply Forall_app. split; [done|].
           constructor; [|done]. simpl.
           by apply (tracking_panic_value c_id e g es _ _ Et Er).
      * destruct (is_done e && _); [done|].
        destruct (sys_step cm req start c_id e (run_sys cm r)) as [[s'|msg]|]; try done.
        by injection E as <-.
Qed.




(** * Further properties *)

(** ** Roles and identifiers *)

(** X1.  [ParseComponentRole] inverts [String] exactly on the three declared
    roles, and [String] inverts [ParseComponentRole] exactly on the three
    role names: every other role value reads back as [RoleUndefined] and
    every other string prints back as "undefined". *)
Theorem role_String_Parse_round_trip (r : ComponentRole) (s : string) :
  (ParseComponentRole (ComponentRole_String r) = r <->
   r = RoleUndefined \/ r = RoleCoordinator \/ r = RoleWorker) /\
  (ComponentRole_String (ParseComponentRole s) = s <->
   s = "undefined"%string \/ s = "coordinator"%string \/ s = "worker"%string) /\
  (r <> RoleCoordinator -> r <> RoleWorker ->
   ParseComponentRole (ComponentRole_String r) = RoleUndefined) /\
  (s <> "coordinator"%string -> s <> "worker"%string ->
   ComponentRole_String (ParseComponentRole s) = "undefined"%string).
Proof.
  unfold ComponentRole_String, ParseComponentRole.
  split; [|split; [|split]].
  - destruct (Z.eqb_spec r RoleCoordinator) as [->|H1]; [simpl; tauto|].
    destruct (Z.eqb_spec r RoleWorker) as [->|H2]; [simpl; tauto|].
    simpl. split; [intros <-; by left | intros [-> | [-> | ->] ]; done].
  - destruct (String.eqb_spec s "coordinator") as [->|H1]; [simpl; tauto|].
    destruct (String.eqb_spec s "worker") as [->|H2]; [simpl; tauto|].
    simpl. split; [intros <-; by left | intros [-> | [-> | ->] ]; done].
  - intros H1 H2.
    destruct (Z.eqb_spec r RoleCoordinator); [done|].
    destruct (Z.eqb_spec r RoleWorker); done.
  - intros H1 H2.
    destruct (String.eqb_spec s "coordinator"); [done|].
    destruct (String.eqb_spec s "worker"); done.
Qed.

Lemma role_String_Parse_round_trip_witness :
  ParseComponentRole (ComponentRole_String 7) = RoleUndefined /\
  ComponentRole_String (ParseComponentRole "observer") = "undefined"%string.
Proof.
  destruct (role_String_Parse_round_trip 7 "observer") as (_ & _ & H1 & H2).
  split; [apply H1 | apply H2]; discriminate.
Defined.

Lemma strings_Index_dash_cons c s :
  strings_Index (String c s) "-" =
    if Ascii.eqb c "-" then 0
    else if strings_Index s "-" =? -1 then -1 else strings_Index s "-" + 1.
Proof.
  cbn [strings_Index String.prefix].
  destruct (ascii_dec "-" c) as [<-|Hne].
  - by destruct s.
  - destruct (Ascii.eqb_spec c "-") as [->|_]; done.
Qed.

Lemma strings_Index_range s : -1 <= strings_Index s "-" <= Z.of_nat (String.length s).
Proof.
  induction s as [|c s IH]; [by vm_compute|].
  rewrite strings_Index_dash_cons. cbn [String.length].
  destruct (Ascii.eqb c "-"); [lia|].
  destruct (Z.eqb_spec (strings_Index s "-") (-1)); lia.
Qed.

(** A string splits at its first dash. *)
Lemma strings_Index_dash_split s :
  strings_Index s "-" = -1 \/
  exists a b, s = (a +:+ String "-" b)%string /\ strings_Index a "-" = -1 /\
              strings_Index s "-" = Z.of_nat (String.length a).
Proof.
  induction s as [|c s IH]; [by left|].
  rewrite strings_Index_dash_cons.
  destruct (Ascii.eqb_spec c "-") as [->|Hc].
  - right. exists ""%string, s. by repeat split.
  - destruct IH as [-> | (a & b & -> & Ha & Hi)]; [by left|].
    right. exists (String c a), b. split; [done|]. split.
    + rewrite strings_Index_dash_cons.
      destruct (Ascii.eqb_spec c "-"); [done|]. by rewrite Ha.
    + rewrite Hi. cbn [String.length].
      destruct (Z.eqb_spec (Z.of_nat (String.length a)) (-1)); lia.
Qed.

Lemma substring_prefix_append a b :
  String.substring 0 (String.length a) (a +:+ b) = a.
Proof.
  induction a as [|c a IH]; simpl.
  - by destruct b.
  - by rewrite IH.
Qed.

Lemma prefix_append a b : String.prefix a (a +:+ b) = true.
Proof.
  induction a as [|c a IH]; simpl; [by destruct b|].
  destruct (ascii_dec c c); [done|congruence].
Qed.

Lemma UuidShort_no_dash a : strings_Index a "-" = -1 -> UuidShort a = a.
Proof. unfold UuidShort. by intros ->. Qed.

Lemma append_nil_l (s : string) : ("" +:+ s)%string = s.
Proof. reflexivity. Qed.

Lemma append_cons c (a s : string) : (String c a +:+ s)%string = String c (a +:+ s).
Proof. reflexivity. Qed.

Lemma UuidShort_split a b :
  strings_Index a "-" = -1 -> UuidShort (a +:+ String "-" b) = a.
Proof.
  intros Ha. unfold UuidShort.
  destruct (strings_Index_dash_split (a +:+ String "-" b))
    as [Hn | (a' & b' & E & Ha' & Hi)].
  - exfalso. clear -Ha Hn. induction a as [|c a IH].
    + rewrite append_nil_l, strings_Index_dash_cons in Hn. discriminate Hn.
    + rewrite append_cons in Hn. rewrite strings_Index_dash_cons in Ha, Hn.
      destruct (Ascii.eqb c "-"); [done|].
      destruct (Z.eqb_spec (strings_Index a "-") (-1)) as [Ea|];
        [|pose proof (strings_Index_range a); lia].
      destruct (Z.eqb_spec (strings_Index (a +:+ String "-" b) "-") (-1)) as [Eb|];
        [by apply IH|].
      pose proof (strings_Index_range (a +:+ String "-" b)). lia.
  - assert (a' = a) as ->.
    { clear -E Ha Ha'. revert a' E Ha'.
      induction a as [|c a IH]; intros [|c' a'] E Ha';
        rewrite ?append_nil_l, ?append_cons in E.
      - done.
      - injection E as <- _. by rewrite strings_Index_dash_cons in Ha'.
      - injection E as -> _. by rewrite strings_Index_dash_cons in Ha.
      - injection E as <- E. f_equal.
        rewrite strings_Index_dash_cons in Ha, Ha'.
        destruct (Ascii.eqb c "-"); [done|].
        apply IH; [|done|].
        + destruct (Z.eqb_spec (strings_Index a "-") (-1)); [done|].
          pose proof (strings_Index_range a). lia.
        + destruct (Z.eqb_spec (strings_Index a' "-") (-1)); [done|].
          pose proof (strings_Index_range a'). lia. }
    rewrite Hi.
    destruct (Z.eqb_spec (Z.of_nat (String.length a)) (-1)); [lia|].
    cbn [negb]. rewrite Nat2Z.id. apply substring_prefix_append.
Qed.

(** X2.  [UuidShort] returns the part of its argument before the first
    dash, and the whole argument when it holds no dash: the result is a
    prefix of the argument, holds no dash, and is left unchanged by a second
    call. *)
Theorem UuidShort_is_part_before_first_dash (uuid a b : string) :
  (strings_Index a "-" = -1 -> UuidShort (a +:+ String "-" b) = a) /\
  (strings_Index uuid "-" = -1 -> UuidShort uuid = uuid) /\
  String.prefix (UuidShort uuid) uuid = true /\
  strings_Index (UuidShort uuid) "-" = -1 /\
  UuidShort (UuidShort uuid) = UuidShort uuid.
Proof.
  split; [apply UuidShort_split|]. split; [apply UuidShort_no_dash|].
  destruct (strings_Index_dash_split uuid) as [Hn | (a' & b' & -> & Ha' & _)].
  - rewrite (UuidShort_no_dash uuid Hn). split; [|split; [done|]].
    + clear. induction uuid as [|c u IH]; simpl; [done|].
      destruct (ascii_dec c c); [done|congruence].
    + by apply UuidShort_no_dash.
  - rewrite (UuidShort_split a' b' Ha'). split; [apply prefix_append|].
    split; [done|]. by apply UuidShort_no_dash.
Qed.

Lemma UuidShort_is_part_before_first_dash_witness :
  UuidShort "3f2a9c1e-7b4d-4e21-9a6f-0c1d2e3f4a5b" = "3f2a9c1e"%string /\
  UuidShort "coordinator1" = "coordinator1"%string.
Proof.
  destruct (UuidShort_is_part_before_first_dash "coordinator1" "3f2a9c1e"
              "7b4d-4e21-9a6f-0c1d2e3f4a5b") as (H1 & H2 & _).
  split; [apply H1 | apply H2]; reflexivity.
Defined.

(** ** Tracker counts *)

Lemma Count_count_of t :
  Count t = (count_of RoleCoordinator t, count_of RoleWorker t).
Proof. reflexivity. Qed.

(** X3.  For the roles coordinator and worker, the count of the role grows
    by one exactly when [TryJoin] returns true and shrinks by one exactly
    when [Leave] finds the id; the set of the other role is never touched,
    and [Count] returns the two counts. *)
Theorem Count_follows_TryJoin_and_Leave (role other : ComponentRole) (id : string)
    (t : Tracker) :
  valid_role role -> valid_role other -> other <> role ->
  (exists b t',
     TryJoin role id t = Ok (b, t') /\
     count_of role t' = count_of role t + (if b then 1 else 0) /\
     role_set other t' = role_set other t) /\
  count_of role (Leave role id t)
    = count_of role t - (if bool_decide (id ∈ role_set role t) then 1 else 0) /\
  role_set other (Leave role id t) = role_set other t /\
  Count t = (count_of RoleCoordinator t, count_of RoleWorker t).
Proof.
  intros Hrole Hother Hne. split; [|split; [|split]].
  - destruct (TryJoin_valid role id t Hrole) as (t' & E & Hset).
    exists (bool_decide (id ∉ role_set role t)), t'. split; [done|].
    pose proof (Hset role Hrole) as Hr. rewrite decide_True in Hr by done.
    pose proof (Hset other Hother) as Ho. rewrite decide_False in Ho by done.
    split; [|done]. unfold count_of. rewrite Hr.
    case_bool_decide as Hin.
    + rewrite size_union by set_solver. rewrite size_singleton. lia.
    + assert (id ∈ role_set role t) by (destruct (decide (id ∈ role_set role t)); done).
      replace ({[id]} ∪ role_set role t) with (role_set role t)
        by (apply leibniz_equiv; set_solver). lia.
  - unfold count_of. rewrite Leave_role_set, decide_True by done.
    case_bool_decide as Hin.
    + rewrite size_difference by set_solver. rewrite size_singleton.
      assert (size (role_set role t) <> 0%nat); [|lia].
      apply size_non_empty_iff. set_solver.
    + replace (role_set role t ∖ {[id]}) with (role_set role t)
        by (apply leibniz_equiv; set_solver). lia.
  - rewrite Leave_role_set, decide_False by done. done.
  - reflexivity.
Qed.

Lemma Count_follows_TryJoin_and_Leave_witness :
  exists b t',
    TryJoin RoleWorker "w1" (mkTracker {[ "c1"%string ]} ∅) = Ok (b, t') /\
    count_of RoleWorker t' = count_of RoleWorker (mkTracker {[ "c1"%string ]} ∅)
                             + (if b then 1 else 0) /\
    role_set RoleCoordinator t' = role_set RoleCoordinator (mkTracker {[ "c1"%string ]} ∅).
Proof.
  assert (H1 : valid_role RoleWorker) by (right; reflexivity).
  assert (H2 : valid_role RoleCoordinator) by (left; reflexivity).
  assert (H3 : RoleCoordinator <> RoleWorker) by discriminate.
  exact (proj1 (Count_follows_TryJoin_and_Leave RoleWorker RoleCoordinator "w1"
                  (mkTracker {[ "c1"%string ]} ∅) H1 H2 H3)).
Defined.

(** ** The loop: when inputs are read *)

Lemma Free_positive_iff cc cw p :
  0 <= cc <= max_int -> 0 <= cw <= max_int -> 0 <= p <= max_int ->
  0 < Free (mkFreeState cc cw p) <-> 0 < cc /\ (p + 1) * cc <= cw.
Proof.
  intros Hc Hw Hp.
  destruct (Z.eq_dec cc 0) as [->|Hne]; [rewrite Free_zero_coordinators; lia|].
  rewrite Free_share by lia.
  pose proof (Z.div_mod cw cc Hne) as Hdm.
  pose proof (Z.mod_pos_bound cw cc) as Hmb.
  split.
  - intros Hf. split; [lia|]. nia.
  - intros [_ Hf]. assert (p + 1 <= cw / cc); [|lia].
    apply Z.div_le_lower_bound; lia.
Qed.

(** X4.  An iteration reads the input channel or the resubmit queue only
    when the tracker counts C > 0 coordinators and at least (P + 1) * C
    workers, P being the number in flight: this is when [Free] is positive,
    and then the input case can be taken iff [in] is not nil and the
    resubmit case iff the queue is not empty. *)
Theorem reads_need_enough_workers (cm : Computation) (cc cw : Z) (l : LoopState cm) :
  0 <= cc <= max_int -> 0 <= cw <= max_int -> 0 <= l_pcProc cm l <= max_int ->
  let enough := 0 < cc /\ (l_pcProc cm l + 1) * cc <= cw in
  (0 < Free (mkFreeState cc cw (l_pcProc cm l)) <-> enough) /\
  ((exists r, loop_iter cm (cc, cw) CaseIn l = Some r) <-> enough /\ in_ cm l <> None) /\
  ((exists r, loop_iter cm (cc, cw) CaseResubmit l = Some r) <->
   enough /\ pcResubmit cm l <> []).
Proof.
  intros Hc Hw Hp enough.
  pose proof (Free_positive_iff cc cw (l_pcProc cm l) Hc Hw Hp) as Hfree.
  split; [exact Hfree|].
  cbn [loop_iter fst snd].
  destruct (Z.ltb_spec 0 (Free (mkFreeState cc cw (l_pcProc cm l)))) as [Hpos|Hneg].
  - apply Hfree in Hpos. split.
    + destruct (in_ cm l) as [ch|]; [|split; [by intros [? ?]|by intros [_ ?]]].
      split; [done|]. intros _.
      destruct (cm_recv cm ch) as [[input ch']|]; [by eexists|].
      destruct (all_completed _ _); by eexists.
    + destruct (pcResubmit cm l) as [|input q];
        [split; [by intros [? ?]|by intros [_ ?]]|].
      split; [done|]. intros _. by eexists.
  - assert (~ enough) by (intros He; apply Hfree in He; lia).
    split; (split; [by intros [? ?] | by intros [? _]]).
Qed.

Lemma reads_need_enough_workers_witness :
  (exists r, loop_iter fac.FacComputation (2, 5) CaseIn
               (mkLoop fac.FacComputation (Some (fac.mkFacChan 2 5)) 1 [] false
                  (fac.mkFacState fac5_request 1) [] [encode 2] []) = Some r) <->
  (0 < 2 /\ (1 + 1) * 2 <= 5) /\ Some (fac.mkFacChan 2 5) <> None.
Proof.
  assert (H2 : 0 <= 2 <= max_int) by (vm_compute; split; discriminate).
  assert (H5 : 0 <= 5 <= max_int) by (vm_compute; split; discriminate).
  assert (H1 : 0 <= 1 <= max_int) by (vm_compute; split; discriminate).
  exact (proj1 (proj2 (reads_need_enough_workers fac.FacComputation 2 5
    (mkLoop fac.FacComputation (Some (fac.mkFacChan 2 5)) 1 [] false
       (fac.mkFacState fac5_request 1) [] [encode 2] []) H2 H5 H1))).
Defined.

(** ** Lifecycle tracking across components *)

Lemma join_is_join : bytes_Equal DataAnnounceJoin DataAnnounceJoin = true.
Proof. reflexivity. Qed.

Lemma leave_is_not_join : bytes_Equal DataAnnounceLeave DataAnnounceJoin = false.
Proof. reflexivity. Qed.

Lemma TryJoin_keeps_coordinators role i t b t' c_id :
  TryJoin role i t = Ok (b, t') -> c_id ∈ coordinators t -> c_id ∈ coordinators t'.
Proof.
  unfold TryJoin. destruct (bool_decide _); [by intros [= <- <-]|].
  destruct (select_set role); simpl; [done| |]; intros [= <- <-]; simpl; set_solver.
Qed.

Lemma Leave_keeps_coordinators role i t c_id :
  ~ (role = RoleCoordinator /\ i = c_id) ->
  c_id ∈ coordinators t -> c_id ∈ coordinators (Leave role i t).
Proof.
  intros Hne Hin. unfold Leave.
  destruct (Z.eqb_spec role RoleCoordinator) as [->|_]; [simpl; set_solver|].
  by destruct (role =? RoleWorker).
Qed.

Lemma track_keeps_self cm c_id es (s s' : Sys cm) :
  track cm es s = Some (Ok s') ->
  (forall t t' rs, run_effects es t = Ok (t', rs) ->
     c_id ∈ coordinators t -> c_id ∈ coordinators t') ->
  c_id ∈ coordinators (tracker cm s) -> c_id ∈ coordinators (tracker cm s').
Proof.
  unfold track. intros H Hes Hin.
  destruct (run_effects es (tracker cm s)) as [[t' rs]|] eqn:E; [|done].
  destruct (fits t'); [|done]. injection H as <-. simpl. by eapply Hes.
Qed.

Lemma sys_step_keeps_self cm req start c_id e (s s' : Sys cm) :
  sys_step cm req start c_id e s = Some (Ok s') ->
  ~ leaves_self c_id e ->
  c_id ∈ coordinators (tracker cm s) -> c_id ∈ coordinators (tracker cm s').
Proof.
  intros H Hl Hin.
  destruct e as [ar | ac | evt | k | sel]; cbn [sys_step] in H.
  - apply (track_keeps_self cm c_id _ s s' H); [|done].
    intros t t' rs. unfold Coordinator_announce_recv. cbn [run_effects apply_call].
    destruct (TryJoin _ _ t) as [[b t1]|] eqn:E; [|done]. simpl.
    intros [= <- _]. by apply (TryJoin_keeps_coordinators _ _ _ _ _ _ E).
  - apply (track_keeps_self cm c_id _ s s' H); [|done].
    intros t t' rs. unfold Coordinator_trackCoordinators.
    simpl in Hl.
    destruct (bytes_Equal (ac_Params ac) DataAnnounceJoin).
    + destruct (negb _); cbn [run_effects apply_call]; [|by intros [= <- _]].
      destruct (TryJoin _ _ t) as [[b t1]|] eqn:E; [|done]. simpl.
      intros [= <- _]. by apply (TryJoin_keeps_coordinators _ _ _ _ _ _ E).
    + cbn [run_effects apply_call]. simpl. intros [= <- _].
      apply Leave_keeps_coordinators. intros [? ?]. by apply Hl.
  - apply (track_keeps_self cm c_id _ s s' H); [|done].
    intros t t' rs. unfold Coordinator_trackWorkers.
    simpl in Hl.
    destruct (bytes_Equal (ev_Data evt) DataAnnounceJoin); cbn [run_effects apply_call].
    + destruct (TryJoin _ _ t) as [[b t1]|] eqn:E; [|done]. simpl.
      intros [= <- _]. by apply (TryJoin_keeps_coordinators _ _ _ _ _ _ E).
    + simpl. intros [= <- _].
      apply Leave_keeps_coordinators. intros [? ?]. by apply Hl.
  - destruct (helper_canceled cm k (loop cm s)); [|done]. simpl in H.
    by injection H as <-.
  - destruct (exited cm s); [done|].
    destruct (loop_iter cm _ sel (loop cm s)) as [[l'|l']|]; [| |done];
      by injection H as <-.
Qed.

(** X5.  The coordinator's own id, registered before anything else, stays
    in its coordinator set, so that the count of coordinators the loop reads
    is at least 1, along every schedule that delivers no leave announcement
    for that id with the role coordinator.  The echo of the coordinator's
    own leave announcement is such an announcement: [trackCoordinators]
    skips the echo of its own HELLO only, and removes its own id on the echo
    of its own BYE. *)
Theorem coordinator_stays_tracked (cm : Computation) (req : ComputeRequest)
    (start : Z) (c_id : string) (tr : list sys_event) (t : Tracker)
    (st : cm_State cm) (ch : cm_Chan cm) (s : Sys cm) :
  c_id ∈ coordinators t ->
  Forall (fun e => ~ leaves_self c_id e) tr ->
  s ∈ sys_states cm req start c_id tr (sys_init cm t st ch) ->
  (c_id ∈ coordinators (tracker cm s) /\ 1 <= fst (Count (tracker cm s))) /\
  leaves_self c_id (EvCoordinatorAction (Coordinator_announce c_id false)) /\
  run_effects (Coordinator_trackCoordinators c_id (Coordinator_announce c_id false)) t
    = Ok (mkTracker (coordinators t ∖ {[ c_id ]}) (workers t), []) /\
  run_effects (Coordinator_trackCoordinators c_id (Coordinator_announce c_id true)) t
    = Ok (t, []).
Proof.
  intros Hin Htr Hs. split; [|split; [|split]].
  - assert (Hmem : c_id ∈ coordinators (tracker cm s)).
    { assert (Hgen : forall s0 : Sys cm, c_id ∈ coordinators (tracker cm s0) ->
                s ∈ sys_states cm req start c_id tr s0 ->
                c_id ∈ coordinators (tracker cm s));
        [|by apply (Hgen (sys_init cm t st ch))].
      clear Hin Hs. induction Htr as [|e tr He Htr IH]; intros s0 H0 Hs; simpl in Hs.
      - by apply elem_of_nil in Hs.
      - destruct (sys_step cm req start c_id e s0) as [[s1|]|] eqn:E;
          try by apply elem_of_nil in Hs.
        pose proof (sys_step_keeps_self cm req start c_id e s0 s1 E He H0) as H1.
        apply elem_of_cons in Hs as [-> | Hs]; [done|]. by apply (IH s1). }
    split; [done|]. unfold Count. simpl.
    assert (size (coordinators (tracker cm s)) <> 0%nat); [|lia].
    apply size_non_empty_iff. set_solver.
  - simpl. split; [by vm_compute|]. by split.
  - unfold Coordinator_trackCoordinators, Coordinator_announce.
    cbn [ac_Params ac_Id ac_Source]. by rewrite leave_is_not_join.
  - unfold Coordinator_trackCoordinators, Coordinator_announce.
    cbn [ac_Params ac_Id ac_Source]. by rewrite join_is_join, String.eqb_refl.
Qed.

Lemma coordinator_stays_tracked_witness :
  Forall (fun s => 1 <= fst (Count (tracker _ s)))
    (sys_states fac.FacComputation fac5_request 0 "c1" workers_leave_schedule fac5_init).
Proof.
  apply Forall_forall. intros s Hs.
  assert (Hin : "c1"%string ∈ coordinators (mkTracker {[ "c1"%string ]} ∅))
    by (simpl; set_solver).
  assert (Htr : Forall (fun e => ~ leaves_self "c1" e) workers_leave_schedule).
  { unfold workers_leave_schedule.
    repeat (apply Forall_cons; split; [simpl; try tauto; intros (_ & H & _); discriminate H|]).
    apply Forall_nil. done. }
  exact (proj2 (proj1 (coordinator_stays_tracked fac.FacComputation fac5_request 0 "c1"
    workers_leave_schedule _ _ _ s Hin Htr Hs))).
Defined.

Lemma TryJoin_adds role id t :
  valid_role role ->
  exists b t', TryJoin role id t = Ok (b, t') /\
    role_set role t' = {[ id ]} ∪ role_set role t /\
    forall other, valid_role other -> other <> role ->
      role_set other t' = role_set other t.
Proof.
  intros Hrole. destruct (TryJoin_valid role id t Hrole) as (t' & E & Hset).
  eexists _, t'. split; [exact E|]. split.
  - rewrite (Hset role Hrole). by rewrite decide_True.
  - intros other Ho Hne. rewrite (Hset other Ho). by rewrite decide_False.
Qed.

(** X6.  The join and leave announcements of this code compose as intended.
    When coordinator [b] handles the HELLO of another coordinator [a], it
    tracks [a] and sends one reply, and [a], handling that reply in
    [announce], tracks [b] as a coordinator; the reply of a worker [w] makes
    [a] track [w] as a worker; no reply of a coordinator or worker of this
    code makes [announce] panic.  When [b] handles the BYE of [a] it
    removes [a] and sends nothing.  A worker's HELLO event makes a
    coordinator track it and its BYE event removes it again. *)
Theorem announcements_compose (a b w : string) (tA tB : Tracker) :
  a <> b ->
  (exists tB' reply tA',
     run_effects (Coordinator_trackCoordinators b (Coordinator_announce a true)) tB
       = Ok (tB', [reply]) /\
     coordinators tB' = {[ a ]} ∪ coordinators tB /\ workers tB' = workers tB /\
     run_effects (Coordinator_announce_recv reply) tA = Ok (tA', []) /\
     coordinators tA' = {[ b ]} ∪ coordinators tA /\ workers tA' = workers tA) /\
  (exists reply tA',
     Worker_trackCoordinators w (Coordinator_announce a true) = [Reply reply] /\
     run_effects (Coordinator_announce_recv reply) tA = Ok (tA', []) /\
     workers tA' = {[ w ]} ∪ workers tA /\ coordinators tA' = coordinators tA) /\
  run_effects (Coordinator_trackCoordinators b (Coordinator_announce a false)) tB
    = Ok (mkTracker (coordinators tB ∖ {[ a ]}) (workers tB), []) /\
  Worker_trackCoordinators w (Coordinator_announce a false) = [] /\
  (exists t', run_effects (Coordinator_trackWorkers (Worker_announce w true)) tA
                = Ok (t', []) /\
              workers t' = {[ w ]} ∪ workers tA /\ coordinators t' = coordinators tA) /\
  run_effects (Coordinator_trackWorkers (Worker_announce w false)) tA
    = Ok (mkTracker (coordinators tA) (workers tA ∖ {[ w ]}), []).
Proof.
  intros Hab.
  assert (Hc : valid_role RoleCoordinator) by (left; reflexivity).
  assert (Hw : valid_role RoleWorker) by (right; reflexivity).
  assert (Hcw : RoleWorker <> RoleCoordinator) by discriminate.
  assert (Hwc : RoleCoordinator <> RoleWorker) by discriminate.
  split; [|split; [|split; [|split; [|split]]]].
  - destruct (TryJoin_adds RoleCoordinator a tB Hc) as (b1 & tB' & E1 & Hs1 & Ho1).
    destruct (TryJoin_adds RoleCoordinator b tA Hc) as (b2 & tA' & E2 & Hs2 & Ho2).
    exists tB', (mkActionResult "coordinator" (bytes_of_string b)), tA'.
    split; [|split; [exact Hs1|split; [exact (Ho1 RoleWorker Hw Hcw)|]]].
    + unfold Coordinator_trackCoordinators, Coordinator_announce.
      cbn [ac_Params ac_Id ac_Source]. rewrite join_is_join.
      destruct (String.eqb_spec a b); [done|]. cbn [negb run_effects apply_call].
      change (ParseComponentRole (ComponentRole_String RoleCoordinator))
        with RoleCoordinator.
      by rewrite E1.
    + split; [|split; [exact Hs2|exact (Ho2 RoleWorker Hw Hcw)]].
      unfold Coordinator_announce_recv. cbn [ar_Context ar_Data run_effects apply_call].
      rewrite string_of_bytes_of_string.
      change (ParseComponentRole "coordinator") with RoleCoordinator.
      by rewrite E2.
  - destruct (TryJoin_adds RoleWorker w tA Hw) as (b2 & tA' & E2 & Hs2 & Ho2).
    exists (mkActionResult "worker" (bytes_of_string w)), tA'.
    split; [reflexivity|].
    split; [|split; [exact Hs2|exact (Ho2 RoleCoordinator Hc Hwc)]].
    unfold Coordinator_announce_recv. cbn [ar_Context ar_Data run_effects apply_call].
    rewrite string_of_bytes_of_string.
    change (ParseComponentRole "worker") with RoleWorker.
    by rewrite E2.
  - unfold Coordinator_trackCoordinators, Coordinator_announce.
    cbn [ac_Params ac_Id ac_Source]. by rewrite leave_is_not_join.
  - reflexivity.
  - destruct (TryJoin_adds RoleWorker w tA Hw) as (b2 & t' & E2 & Hs2 & Ho2).
    exists t'. split; [|split; [exact Hs2|exact (Ho2 RoleCoordinator Hc Hwc)]].
    unfold Coordinator_trackWorkers, Worker_announce.
    cbn [ev_Data ev_Id ev_Source]. rewrite join_is_join.
    cbn [run_effects apply_call].
    change (ParseComponentRole (ComponentRole_String RoleWorker)) with RoleWorker.
    by rewrite E2.
  - unfold Coordinator_trackWorkers, Worker_announce.
    cbn [ev_Data ev_Id ev_Source]. by rewrite leave_is_not_join.
Qed.

Lemma announcements_compose_witness :
  exists tB' reply tA',
    run_effects (Coordinator_trackCoordinators "c2" (Coordinator_announce "c1" true))
      (self_tracker "c2") = Ok (tB', [reply]) /\
    coordinators tB' = {[ "c1"%string ]} ∪ coordinators (self_tracker "c2") /\
    workers tB' = workers (self_tracker "c2") /\
    run_effects (Coordinator_announce_recv reply) (self_tracker "c1") = Ok (tA', []) /\
    coordinators tA' = {[ "c2"%string ]} ∪ coordinators (self_tracker "c1") /\
    workers tA' = workers (self_tracker "c1").
Proof.
  assert (Hne : "c1"%string <> "c2"%string) by discriminate.
  exact (proj1 (announcements_compose "c1" "c2" "w1" (self_tracker "c1")
                  (self_tracker "c2") Hne)).
Defined.

(** ** Registry *)

Lemma names_agree_Register cm r : names_agree r -> names_agree (Register cm r).
Proof.
  intros Hr name cm'. unfold ComputationByName, Register. simpl.
  destruct (decide (Name cm = name)) as [<-|Hne].
  - rewrite lookup_insert_eq. by intros [= <-].
  - rewrite lookup_insert_ne by done. apply Hr.
Qed.

Lemma names_agree_empty : names_agree (mkRegistry ∅).
Proof. intros name cm. unfold ComputationByName. simpl. by rewrite lookup_empty. Qed.

(** X7.  Registering a computation makes it the one found under its name,
    replaces what was registered under that name and leaves every other
    name as it was; a lookup never returns a computation under a name other
    than its own.  The registry of [NewRegistry] finds fac under "fac"
    whatever the other two computations are called, and finds nothing under
    a name that none of the three computations has. *)
Theorem Registry_finds_computations_by_name (pi wf cm : Computation) (r : Registry)
    (name : string) :
  names_agree r ->
  ComputationByName (Name cm) (Register cm r) = Some cm /\
  (name <> Name cm ->
   ComputationByName name (Register cm r) = ComputationByName name r) /\
  names_agree (Register cm r) /\
  names_agree (NewRegistry pi wf) /\
  ComputationByName "fac" (NewRegistry pi wf) = Some fac.FacComputation /\
  (name <> "fac"%string -> name <> Name pi -> name <> Name wf ->
   ComputationByName name (NewRegistry pi wf) = None).
Proof.
  intros Hr. unfold ComputationByName.
  split; [|split; [|split; [|split; [|split]]]].
  - simpl. apply lookup_insert_eq.
  - intros Hne. simpl. by rewrite lookup_insert_ne.
  - by apply names_agree_Register.
  - unfold NewRegistry. do 3 apply names_agree_Register. apply names_agree_empty.
  - unfold NewRegistry. simpl. apply lookup_insert_eq.
  - intros H1 H2 H3. unfold NewRegistry. simpl.
    rewrite !lookup_insert_ne by done. apply lookup_empty.
Qed.

Lemma Registry_finds_computations_by_name_witness :
  ComputationByName "fac" (Register fac.FacComputation (mkRegistry ∅))
    = Some fac.FacComputation /\
  names_agree (Register fac.FacComputation (mkRegistry ∅)).
Proof.
  destruct (Registry_finds_computations_by_name fac.FacComputation fac.FacComputation
              fac.FacComputation (mkRegistry ∅) "fac" names_agree_empty)
    as (H1 & _ & H3 & _).
  exact (conj H1 H3).
Defined.

(** ** A partial computation from dispatch to completion *)

(** X8.  A partial computation composes across coordinator and worker.  The
    action a coordinator publishes for an input is handled by a worker
    whose registry holds the computation under its name: when
    [PartialCompute] returns a non-empty output, the worker publishes one
    result, the helper turns it into a completion without resubmit that
    names the worker, and the loop accumulates that output; when it
    returns an empty output the loop fails fast and accumulates nothing;
    when it returns nil, or the worker does not know the computation, the
    worker publishes nothing, and the error that then ends the helper's
    wait (any but a cancellation) makes a completion that asks to resubmit
    the same input. *)
Theorem partial_computation_round_trip (cm : Computation) (wreg : Registry)
    (c_id w_id : string) (input : BinaryData) (count : Z * Z) (k : nat)
    (l : LoopState cm) :
  helpers cm l !! k = Some input ->
  let ac := compute_action c_id cm input in
  let l1 := mkLoop cm (in_ cm l) (int_sub (l_pcProc cm l) 1) (pcResubmit cm l)
              (failFast cm l) (cmState cm l) (output cm l) (delete k (helpers cm l))
              (calls cm l) in
  (ComputationByName (Name cm) wreg = None -> handlePartialComputation w_id wreg ac = []) /\
  (forall code, code <> Canceled ->
     performPartialComputation input (RecvFailed code)
       = Some (mkPartialResult input "" (Some code))) /\
  (ComputationByName (Name cm) wreg = Some cm ->
   (PartialCompute cm input = None -> handlePartialComputation w_id wreg ac = []) /\
   (forall out, PartialCompute cm input = Some out ->
      let ar := mkActionResult w_id (Some out) in
      handlePartialComputation w_id wreg ac = [ar] /\
      performPartialComputation input (RecvResult ar)
        = Some (mkPartialResult (Some out) w_id None) /\
      (out = [] ->
       loop_iter cm count (CaseCompleted k (RecvResult ar)) l
         = Some (Break (set_failFast cm l1))) /\
      (out <> [] ->
       exists r,
         loop_iter cm count (CaseCompleted k (RecvResult ar)) l = Some r /\
         calls cm (state_of r) = calls cm l ++ [DidAccumulate (Some out)] /\
         cmState cm (state_of r) = fst (Accumulate cm (Some out) (cmState cm l)) /\
         output cm (state_of r)
           = output cm l ++ snd (Accumulate cm (Some out) (cmState cm l)) /\
         failFast cm (state_of r) = failFast cm l /\
         helpers cm (state_of r) = delete k (helpers cm l)))).
Proof.
  intros Hk ac l1. unfold handlePartialComputation. subst ac. cbn [compute_action ac_Id ac_Params].
  split; [by intros ->|]. split; [by intros [] ?|].
  intros ->. split; [by intros ->|].
  intros out Hout. rewrite Hout. cbn [is_nil].
  split; [done|]. split; [done|]. split.
  - intros ->. cbn [loop_iter]. rewrite Hk. done.
  - intros Hne. cbn [loop_iter]. rewrite Hk.
    cbn [performPartialComputation ar_Data ar_Context pr_resubmit pr_data cmState].
    assert (Hlen : (len (Some out) =? 0) = false).
    { unfold len. simpl. destruct out; [done|]. simpl. lia. }
    rewrite Hlen.
    destruct (Accumulate cm (Some out) (cmState cm l)) as [st' ws].
    match goal with |- context [if ?c then _ else _] => destruct c end;
      eexists; (split; [reflexivity|]); by repeat split.
Qed.

Lemma partial_computation_round_trip_witness :
  handlePartialComputation "w1" example_registry
    (compute_action "c1" fac.FacComputation (encode 3))
  = [mkActionResult "w1" (encode 3)].
Proof.
  pose (l := mkLoop fac.FacComputation None 1 [] false (fac.mkFacState fac5_request 1) []
               [encode 3] [DidDispatch (encode 3)]).
  destruct (partial_computation_round_trip fac.FacComputation example_registry "c1" "w1"
              (encode 3) (1, 1) 0 l eq_refl) as (_ & _ & H).
  destruct (H eq_refl) as (_ & H2).
  exact (proj1 (H2 _ eq_refl)).
Defined.

(** ** The loop without a free worker *)

Lemma loop_iter_starved cm cc cw sel (l : LoopState cm) r :
  loop_iter cm (cc, cw) sel l = Some r ->
  Free (mkFreeState cc cw (l_pcProc cm l)) <= 0 ->
  failFast cm l = false -> in_ cm l <> None ->
  match r with
  | Continue l' => failFast cm l' = false /\ in_ cm l' <> None
  | Break l' => failFast cm l' = true
  end.
Proof.
  intros H Hfree Hff Hin.
  assert (Hlt : (0 <? Free (mkFreeState cc cw (l_pcProc cm l))) = false)
    by (apply Z.ltb_ge; lia).
  destruct sel as [| | |k rep|]; cbn [loop_iter fst snd] in H; rewrite ?Hlt in H;
    [| discriminate H | discriminate H | |].
  - by injection H as <-.
  - destruct (helpers cm l !! k) as [input|]; [|done].
    destruct (performPartialComputation input rep) as [res|]; [|done].
    destruct (pr_resubmit res).
    + simpl in H. destruct (_ <? pcResubmit_cap); by injection H as <-.
    + destruct (len (pr_data res) =? 0); [by injection H as <-|].
      simpl in H. destruct (Accumulate cm (pr_data res) (cmState cm l)) as [st' ws].
      assert (Hnil : in_is_nil cm
                (mkLoop cm (in_ cm l) (int_sub (l_pcProc cm l) 1) (pcResubmit cm l)
                   (failFast cm l) st' (output cm l ++ ws) (delete k (helpers cm l))
                   (calls cm l ++ [DidAccumulate (pr_data res)])) = false).
      { unfold in_is_nil. simpl. by destruct (in_ cm l). }
      rewrite Hnil in H. simpl in H. by injection H as <-.
  - by injection H as <-.
Qed.

Lemma Free_nonpositive_of_share cc cw p :
  0 <= cc <= max_int -> 0 <= cw <= max_int -> 0 <= p <= max_int ->
  cw / cc < 1 -> Free (mkFreeState cc cw p) <= 0.
Proof.
  intros Hc Hw Hp Hs.
  destruct (Z.eq_dec cc 0) as [->|]; [by rewrite Free_zero_coordinators|].
  rewrite Free_share by lia. lia.
Qed.

Lemma starved_inv_step cm req start c_id e (s s' : Sys cm) :
  sys_step cm req start c_id e s = Some (Ok s') ->
  counting_inv s -> share cm s < 1 -> starved_inv s -> starved_inv s'.
Proof.
  intros H [Hfit Hp] Hshare Hinv.
  assert (Htrack : forall es, track cm es s = Some (Ok s') -> starved_inv s').
  { intros es Ht. unfold track in Ht.
    destruct (run_effects es (tracker cm s)) as [[t' rs]|]; [|done].
    destruct (fits t'); [|done]. by injection Ht as <-. }
  destruct e as [ar | ac | evt | k | sel]; cbn [sys_step] in H; eauto.
  - unfold helper_canceled in H.
    destruct (helpers cm (loop cm s) !! k); [|done]. simpl in H.
    by injection H as <-.
  - unfold starved_inv in Hinv. destruct (exited cm s) eqn:Ex; [done|].
    destruct Hinv as [Hff Hin].
    destruct (fits_counts _ Hfit) as [Hc Hw]. unfold share in Hshare.
    destruct (Count (tracker cm s)) as [cc cw]. simpl in Hc, Hw, Hshare.
    assert (Hfree : Free (mkFreeState cc cw (l_pcProc cm (loop cm s))) <= 0)
      by (apply Free_nonpositive_of_share; lia).
    destruct (loop_iter cm (cc, cw) sel (loop cm s)) as [r|] eqn:E; [|done].
    pose proof (loop_iter_starved cm cc cw sel _ r E Hfree Hff Hin) as Hr.
    destruct r as [l'|l']; injection H as <-; unfold starved_inv; simpl; [done|].
    unfold after_loop. by rewrite Hr.
Qed.

Lemma starved_inv_states cm req start c_id tr : forall (s0 s : Sys cm),
  counting_inv s0 -> starved_inv s0 ->
  (forall h, h ∈ visited cm req start c_id tr s0 -> share cm h < 1) ->
  s ∈ visited cm req start c_id tr s0 -> starved_inv s.
Proof.
  unfold visited.
  induction tr as [|e tr IH]; intros s0 s Hc Hi Hshare Hs; simpl in *.
  - apply list_elem_of_singleton in Hs. by subst.
  - apply elem_of_cons in Hs as [-> | Hs]; [done|].
    destruct (sys_step cm req start c_id e s0) as [[s1|]|] eqn:E;
      try by apply elem_of_nil in Hs.
    destruct (counting_inv_step cm req start c_id e s0 s1 E Hc) as [Hc1 _].
    assert (Hi1 : starved_inv s1).
    { apply (starved_inv_step cm req start c_id e s0 s1 E Hc); [|done].
      apply Hshare. by left. }
    apply (IH s1 s Hc1 Hi1); [|done].
    intros h Hh. apply Hshare. by right.
Qed.

(** X9.  A coordinator whose tracker counts fewer workers than coordinators
    (W / C < 1) throughout a run never calls [Finalize] in that run, not
    even for a request without inputs: the input channel is only read, and
    found closed, while [Free] is positive, so the loop can then only be
    left with [failFast] set.  An iteration leaves the loop without
    [failFast] only if [Free] is positive or [in] is already nil. *)
Theorem no_Finalize_without_free_worker (cm : Computation) (req : ComputeRequest)
    (start : Z) (c_id : string) (tr : list sys_event) (t : Tracker)
    (st : cm_State cm) (ch : cm_Chan cm) (s : Sys cm) :
  fits t = true ->
  (forall h, h ∈ visited cm req start c_id tr (sys_init cm t st ch) -> share cm h < 1) ->
  s ∈ visited cm req start c_id tr (sys_init cm t st ch) ->
  count_finalize (calls cm (loop cm s)) = 0%nat /\
  (exited cm s = true -> failFast cm (loop cm s) = true) /\
  (forall cc cw sel (l l' : LoopState cm),
     loop_iter cm (cc, cw) sel l = Some (Break l') ->
     failFast cm l = false -> failFast cm l' = false ->
     0 < Free (mkFreeState cc cw (l_pcProc cm l)) \/ in_ cm l = None).
Proof.
  intros Hfit Hshare Hs. set (s0 := sys_init cm t st ch) in *.
  assert (Hc0 : counting_inv s0) by (split; [done | simpl; unfold max_int; lia]).
  assert (Hi0 : starved_inv s0) by (unfold starved_inv; simpl; done).
  pose proof (starved_inv_states cm req start c_id tr s0 s Hc0 Hi0 Hshare Hs) as Hinv.
  assert (Hfin : finalize_inv req start s).
  { unfold visited in Hs. apply elem_of_cons in Hs as [-> | Hs].
    - apply finalize_inv_init.
    - pose proof (finalize_inv_states cm req start c_id tr s0
                    (finalize_inv_init cm req start t st ch)) as Hall.
      rewrite Forall_forall in Hall. by apply Hall. }
  unfold starved_inv in Hinv. unfold finalize_inv in Hfin. cbv zeta in Hfin.
  split; [|split].
  - destruct (exited cm s).
    + rewrite Hinv in Hfin. by destruct Hfin.
    + by destruct Hfin.
  - intros Hex. by rewrite Hex in Hinv.
  - intros cc cw sel l l' E Hff Hff'.
    destruct (Z.ltb_spec 0 (Free (mkFreeState cc cw (l_pcProc cm l)))); [by left|].
    right. destruct (in_ cm l) as [c|] eqn:Ein; [|done].
    assert (Hin : in_ cm l <> None) by (by rewrite Ein).
    pose proof (loop_iter_starved cm cc cw sel l _ E ltac:(lia) Hff Hin) as Hr.
    simpl in Hr. congruence.
Qed.

Lemma no_Finalize_without_free_worker_witness :
  Forall (fun s => count_finalize (calls _ (loop _ s)) = 0%nat)
    (visited fac.FacComputation fac0_request 0 "c1" wait_then_signal fac0_alone).
Proof.
  apply Forall_forall. intros s Hs.
  assert (Hfit : fits (mkTracker {[ "c1"%string ]} ∅) = true) by (vm_compute; reflexivity).
  assert (E : share _ <$> visited fac.FacComputation fac0_request 0 "c1"
                            wait_then_signal fac0_alone = [0; 0; 0])
    by (vm_compute; reflexivity).
  assert (Hshare : forall h,
    h ∈ visited fac.FacComputation fac0_request 0 "c1" wait_then_signal
          (sys_init fac.FacComputation (mkTracker {[ "c1"%string ]} ∅)
             (fac.mkFacState fac0_request 1) (fac.mkFacChan 2 0)) ->
    share _ h < 1).
  { intros h Hh. apply (list_elem_of_fmap_2 (share fac.FacComputation)) in Hh.
    change (share fac.FacComputation h ∈
            share fac.FacComputation <$>
              visited fac.FacComputation fac0_request 0 "c1" wait_then_signal fac0_alone)
      in Hh.
    rewrite E in Hh. repeat (apply elem_of_cons in Hh as [-> | Hh]; [lia|]).
    by apply elem_of_nil in Hh. }
  exact (proj1 (no_Finalize_without_free_worker fac.FacComputation fac0_request 0 "c1"
                  wait_then_signal _ _ _ s Hfit Hshare Hs)).
Defined.

(** ** The loop: every output is accumulated once *)

Lemma accumulated_app cs c :
  accumulated (cs ++ [c]) =
    accumulated cs ++ match c with DidAccumulate d => [d] | _ => [] end.
Proof.
  induction cs as [|c' cs IH]; simpl.
  - destruct c; by rewrite ?app_nil_r.
  - destruct c'; rewrite IH; done.
Qed.

Lemma accumulate_seq_snoc cm outs o (st : cm_State cm) :
  accumulate_seq cm (outs ++ [o]) st =
    (fst (Accumulate cm o (fst (accumulate_seq cm outs st))),
     snd (accumulate_seq cm outs st) ++ snd (Accumulate cm o (fst (accumulate_seq cm outs st)))).
Proof.
  unfold accumulate_seq. rewrite fold_left_app. cbn [fold_left].
  by destruct (Accumulate cm o _).
Qed.

Lemma chan_take_snoc cm n : forall (ch : cm_Chan cm) taken ch' x ch1,
  chan_take cm n ch = Some (taken, ch') ->
  cm_recv cm ch' = Some (x, ch1) ->
  chan_take cm (S n) ch = Some (taken ++ [x], ch1).
Proof.
  induction n as [|n IH]; intros ch taken ch' x ch1 Ht Hr.
  - injection Ht as <- <-. cbn [chan_take]. by rewrite Hr.
  - cbn [chan_take] in Ht. destruct (cm_recv cm ch) as [[y ch2]|] eqn:E; [|done].
    destruct (chan_take cm n ch2) as [[tk c]|] eqn:E2; [|done].
    injection Ht as <- <-.
    specialize (IH ch2 tk c x ch1 E2 Hr).
    cbn [chan_take] in IH |- *. rewrite E, IH. done.
Qed.

Lemma chan_take_closed_drain cm n : forall (ch : cm_Chan cm) taken ch',
  chan_take cm n ch = Some (taken, ch') -> cm_recv cm ch' = None ->
  chan_drain cm (length taken) ch = Some taken.
Proof.
  induction n as [|n IH]; intros ch taken ch' Ht Hr; cbn [chan_take] in Ht.
  - injection Ht as <- <-. simpl. by rewrite Hr.
  - destruct (cm_recv cm ch) as [[y ch2]|] eqn:E; [|done].
    destruct (chan_take cm n ch2) as [[tk c]|] eqn:E2; [|done].
    injection Ht as <- <-. simpl. rewrite E.
    by rewrite (IH ch2 tk c E2 Hr).
Qed.

Lemma loop_iter_conservation cm (st0 : cm_State cm) ch0 count sel (l : LoopState cm) r :
  loop_iter cm count sel l = Some r ->
  failFast cm (state_of r) = false ->
  honest_case l sel ->
  loop_conservation st0 ch0 [] l ->
  loop_conservation st0 ch0 [] (state_of r).
Proof.
  intros H Hff Hh (n & taken & ch' & Ht & Hin & Hperm & Hst & Hout).
  destruct sel as [| | |k rep|]; cbn [loop_iter] in H.
  - injection H as <-. done.
  - destruct (0 <? Free _); [|done].
    destruct (in_ cm l) as [ch|] eqn:Ein; [|done]. subst ch'.
    destruct (cm_recv cm ch) as [[input ch1]|] eqn:Er.
    + injection H as <-. exists (S n), (taken ++ [input]), ch1. simpl.
      split; [by apply (chan_take_snoc cm n ch0 taken ch)|]. split; [done|].
      rewrite accumulated_app. simpl. rewrite app_nil_r.
      split; [|by split].
      rewrite !fmap_app in *. rewrite Hperm. simpl. solve_Permutation.
    + exists n, taken, ch.
      destruct (all_completed _ _); injection H as <-; simpl; by repeat split.
  - destruct (0 <? Free _); [|done].
    destruct (pcResubmit cm l) as [|input q] eqn:Eq; [done|].
    injection H as <-. exists n, taken, ch'. simpl.
    split; [done|]. split; [done|].
    rewrite accumulated_app. simpl. rewrite app_nil_r.
    split; [|by split].
    rewrite !fmap_app in *. rewrite Hperm. simpl. solve_Permutation.
  - destruct (helpers cm l !! k) as [input|] eqn:Ek; [|done].
    pose proof (delete_Permutation _ _ _ Ek) as Hdel.
    assert (Hperm' : PartialCompute cm <$> taken
              ≡ₚ accumulated (calls cm l) ++
                 PartialCompute cm input ::
                 (PartialCompute cm <$> (delete k (helpers cm l) ++ pcResubmit cm l))).
    { rewrite Hperm. rewrite !fmap_app. rewrite Hdel at 1. simpl. solve_Permutation. }
    destruct rep as [code | code | ar]; cbn [performPartialComputation] in H.
    + destruct code; try done; cbn [pr_resubmit pr_data] in H;
        (destruct (_ <? pcResubmit_cap); injection H as <-; [|done]);
        exists n, taken, ch'; simpl; (split; [done|]); (split; [done|]);
        (split; [|by split]);
        rewrite Hperm', !fmap_app; simpl; solve_Permutation.
    + destruct code; try done; cbn [pr_resubmit pr_data] in H;
        (destruct (_ <? pcResubmit_cap); injection H as <-; [|done]);
        exists n, taken, ch'; simpl; (split; [done|]); (split; [done|]);
        (split; [|by split]);
        rewrite Hperm', !fmap_app; simpl; solve_Permutation.
    + cbn [pr_resubmit pr_data] in H. simpl in Hh. specialize (Hh input Ek).
      destruct (len (ar_Data ar) =? 0); [by injection H as <-|].
      cbn [cmState] in H.
      destruct (Accumulate cm (ar_Data ar) (cmState cm l)) as [st' ws] eqn:Ea.
      assert (Hgoal : loop_conservation st0 ch0 []
                (mkLoop cm (in_ cm l) (int_sub (l_pcProc cm l) 1) (pcResubmit cm l)
                   (failFast cm l) st' (output cm l ++ ws) (delete k (helpers cm l))
                   (calls cm l ++ [DidAccumulate (ar_Data ar)]))).
      { exists n, taken, ch'. simpl. split; [done|]. split; [done|].
        rewrite accumulated_app, accumulate_seq_snoc. simpl.
        rewrite <- Hst, Ea. simpl. rewrite Hout, !app_nil_r.
        split; [|by split].
        rewrite Hperm', Hh. solve_Permutation. }
      destruct (_ && _); by injection H as <-.
  - injection H as <-. by exists n, taken, ch'.
Qed.

Lemma loop_iter_failFast_mono cm count sel (l : LoopState cm) r :
  loop_iter cm count sel l = Some r ->
  failFast cm (state_of r) = false -> failFast cm l = false.
Proof.
  intros H Hff. destruct (failFast cm l) eqn:E; [|done].
  destruct sel as [| | |k rep|]; cbn [loop_iter] in H.
  - by injection H as <-.
  - destruct (if 0 <? Free _ then in_ cm l else None) as [ch|]; [|done].
    destruct (cm_recv cm ch) as [[input ch']|].
    + injection H as <-. simpl in Hff. congruence.
    + destruct (all_completed _ _); injection H as <-; simpl in Hff; congruence.
  - destruct (if 0 <? Free _ then pcResubmit cm l else []) as [|input q]; [done|].
    injection H as <-. simpl in Hff. congruence.
  - destruct (helpers cm l !! k) as [input|]; [|done].
    destruct (performPartialComputation input rep) as [res|]; [|done].
    destruct (pr_resubmit res).
    + simpl in H. destruct (_ <? pcResubmit_cap); injection H as <-;
        simpl in Hff; congruence.
    + destruct (len (pr_data res) =? 0); [injection H as <-; simpl in Hff; congruence|].
      simpl in H. destruct (Accumulate cm (pr_data res) (cmState cm l)) as [st' ws].
      destruct (_ && _); injection H as <-; simpl in Hff; congruence.
  - injection H as <-. simpl in Hff. congruence.
Qed.

Lemma conservation_inv_init cm start t (st : cm_State cm) ch :
  conservation_inv start st ch (sys_init cm t st ch).
Proof. intros _. by exists 0%nat, [], ch. Qed.

Lemma conservation_inv_step cm req start c_id st0 ch0 e (s s' : Sys cm) :
  sys_step cm req start c_id e s = Some (Ok s') ->
  honest_event s e ->
  conservation_inv start st0 ch0 s -> conservation_inv start st0 ch0 s'.
Proof.
  intros H Hh Hinv.
  assert (Htrack : forall es, track cm es s = Some (Ok s') ->
            conservation_inv start st0 ch0 s').
  { intros es Ht. unfold track in Ht.
    destruct (run_effects es (tracker cm s)) as [[t' rs]|]; [|done].
    destruct (fits t'); [|done]. by injection Ht as <-. }
  destruct e as [ar | ac | evt | k | sel]; cbn [sys_step] in H; eauto; [done|].
  destruct (exited cm s) eqn:Ex; [done|].
  destruct (loop_iter cm (Count (tracker cm s)) sel (loop cm s)) as [r|] eqn:E; [|done].
  assert (Hcase : honest_case (loop cm s) sel).
  { destruct sel as [| | |k rep|]; done. }
  assert (Hr : failFast cm (state_of r) = false ->
               loop_conservation st0 ch0 [] (state_of r)).
  { intros Hff. apply (loop_iter_conservation cm st0 ch0 _ _ _ _ E Hff Hcase).
    unfold conservation_inv in Hinv. rewrite Ex in Hinv.
    apply Hinv. by apply (loop_iter_failFast_mono cm _ _ _ _ E). }
  destruct r as [l' | l']; injection H as <-; intros Hff; cbn [loop exited] in *.
  - by apply Hr.
  - unfold after_loop in *. destruct (failFast cm l') eqn:Ef; [done|].
    destruct (Hr Ef) as (n & taken & ch' & Ht & Hin & Hperm & Hst & Hout).
    simpl in *. exists n, taken, ch'. simpl.
    rewrite accumulated_app, !app_nil_r. rewrite Hout, app_nil_r. by repeat split.
Qed.

Lemma conservation_inv_exec cm req start c_id st0 ch0 tr : forall (s s' : Sys cm),
  conservation_inv start st0 ch0 s ->
  honest_run cm req start c_id tr s ->
  sys_exec cm req start c_id tr s = Some (Ok s') ->
  conservation_inv start st0 ch0 s'.
Proof.
  induction tr as [|e tr IH]; intros s s' Hi Hh Hex; simpl in *.
  - by injection Hex as <-.
  - destruct Hh as [He Hh].
    destruct (sys_step cm req start c_id e s) as [[s1|]|] eqn:E; try done.
    apply (IH s1 s'); try done.
    by apply (conservation_inv_step cm req start c_id st0 ch0 e s s1 E).
Qed.

Lemma counting_inv_exec cm req start c_id tr : forall (s s' : Sys cm),
  counting_inv s ->
  sys_exec cm req start c_id tr s = Some (Ok s') ->
  counting_inv s'.
Proof.
  induction tr as [|e tr IH]; intros s s' Hc Hex; simpl in *.
  - by injection Hex as <-.
  - destruct (sys_step cm req start c_id e s) as [[s1|]|] eqn:E; try done.
    apply (IH s1 s'); [|done].
    by apply (counting_inv_step cm req start c_id e s s1 E).
Qed.

Lemma clean_exit_inv cm req start c_id tr t (st : cm_State cm) ch (s : Sys cm) :
  fits t = true ->
  honest_run cm req start c_id tr (sys_init cm t st ch) ->
  sys_exec cm req start c_id tr (sys_init cm t st ch) = Some (Ok s) ->
  exited cm s = true ->
  failFast cm (loop cm s) = false ->
  loop_conservation st ch (Finalize cm start (cmState cm (loop cm s))) (loop cm s) /\
  in_ cm (loop cm s) = None /\
  helpers cm (loop cm s) = [] /\ pcResubmit cm (loop cm s) = [].
Proof.
  intros Hfit Hh Hex Hexit Hff.
  pose proof (conservation_inv_exec cm req start c_id st ch tr _ s
                (conservation_inv_init cm start t st ch) Hh Hex) as Hcons.
  pose proof (finalize_inv_exec cm req start c_id tr _ s Hex
                (finalize_inv_init cm req start t st ch)) as Hfin.
  assert (Hc0 : counting_inv (sys_init cm t st ch)).
  { split; [done|]. simpl. unfold max_int. lia. }
  pose proof (counting_inv_exec cm req start c_id tr _ s Hc0 Hex) as [_ Hlen].
  unfold finalize_inv in Hfin. rewrite Hexit, Hff in Hfin.
  destruct Hfin as (_ & Hin & Hp & Hq & _).
  specialize (Hcons Hff). rewrite Hexit in Hcons.
  repeat split; try done.
  destruct (helpers cm (loop cm s)); [done|]. simpl in Hlen. lia.
Qed.

(** X10.  Take a run of the coordinator in which no helper is canceled and
    every result received is the output of [PartialCompute] on the input
    that was sent.  If the run leaves the loop without [failFast], the input
    channel of [Partition] has been read until it was closed, and the
    outputs passed to [Accumulate] are, up to their order, the outputs of
    all its inputs, each once (resubmitted inputs are not accumulated
    twice, none is lost); the state given to [Finalize] and the output are
    what these calls of [Accumulate], in the order they were made, produced. *)
Theorem clean_exit_accumulates_every_output cm req start c_id tr t
    (st : cm_State cm) ch (s : Sys cm) :
  fits t = true ->
  honest_run cm req start c_id tr (sys_init cm t st ch) ->
  sys_exec cm req start c_id tr (sys_init cm t st ch) = Some (Ok s) ->
  exited cm s = true ->
  failFast cm (loop cm s) = false ->
  exists inputs,
    chan_drain cm (length inputs) ch = Some inputs /\
    accumulated (calls cm (loop cm s)) ≡ₚ PartialCompute cm <$> inputs /\
    cmState cm (loop cm s) = fst (accumulate_seq cm (accumulated (calls cm (loop cm s))) st) /\
    output cm (loop cm s) =
      snd (accumulate_seq cm (accumulated (calls cm (loop cm s))) st)
      ++ Finalize cm start (cmState cm (loop cm s)).
Proof.
  intros Hfit Hh Hex Hexit Hff.
  destruct (clean_exit_inv cm req start c_id tr t st ch s Hfit Hh Hex Hexit Hff)
    as ((n & taken & ch' & Ht & Hclosed & Hperm & Hst & Hout) & Hin & Hhelp & Hq).
  rewrite Hin in Hclosed. rewrite Hhelp, Hq in Hperm.
  simpl in Hperm. rewrite app_nil_r in Hperm.
  exists taken. split; [by apply (chan_take_closed_drain cm n ch taken ch')|].
  by repeat split.
Qed.

(** ** The loop with one worker that answers every request *)

Section Sequential.
Variable cm : Computation.
Variables (req : ComputeRequest) (start : Z) (c_id : string).
Variable t : Tracker.
Hypothesis Hfree :
  (0 <? Free (mkFreeState (fst (Count t)) (snd (Count t)) 0)) = true.

Lemma step_in_dispatches ch x ch1 (st : cm_State cm) out cs :
  cm_recv cm ch = Some (x, ch1) ->
  sys_step cm req start c_id (EvIter CaseIn)
    (mkSys cm t (mkLoop cm (Some ch) 0 [] false st out [] cs) false) =
  Some (Ok (mkSys cm t
              (mkLoop cm (Some ch1) 1 [] false st out [x] (cs ++ [DidDispatch x])) false)).
Proof.
  intros Hr. cbn [sys_step exited loop tracker loop_iter l_pcProc in_].
  rewrite Hfree, Hr. reflexivity.
Qed.

Lemma step_in_closed ch (st : cm_State cm) out cs :
  cm_recv cm ch = None ->
  sys_step cm req start c_id (EvIter CaseIn)
    (mkSys cm t (mkLoop cm (Some ch) 0 [] false st out [] cs) false) =
  Some (Ok (mkSys cm t
              (mkLoop cm None 0 [] false st (out ++ Finalize cm start st) []
                 (cs ++ [DidFinalize start])) true)).
Proof.
  intros Hr. cbn [sys_step exited loop tracker loop_iter l_pcProc in_].
  rewrite Hfree, Hr. reflexivity.
Qed.

Lemma step_completed_accumulates w_id ch x (st : cm_State cm) out cs :
  len (PartialCompute cm x) <> 0 ->
  sys_step cm req start c_id
    (EvIter (CaseCompleted 0 (RecvResult (mkActionResult w_id (PartialCompute cm x)))))
    (mkSys cm t (mkLoop cm (Some ch) 1 [] false st out [x] cs) false) =
  Some (Ok (mkSys cm t
              (mkLoop cm (Some ch) 0 [] false
                 (fst (Accumulate cm (PartialCompute cm x) st))
                 (out ++ snd (Accumulate cm (PartialCompute cm x) st)) []
                 (cs ++ [DidAccumulate (PartialCompute cm x)])) false)).
Proof.
  intros Hn. apply Z.eqb_neq in Hn.
  cbn [sys_step exited loop tracker loop_iter l_pcProc in_ helpers lookup
       list_lookup performPartialComputation pr_resubmit pr_data ar_Data
       cmState pcResubmit].
  rewrite Hn. destruct (Accumulate cm (PartialCompute cm x) st) as [st' ws].
  reflexivity.
Qed.

Lemma chan_drain_nil fuel (ch : cm_Chan cm) :
  chan_drain cm fuel ch = Some [] -> cm_recv cm ch = None.
Proof.
  destruct fuel; simpl; destruct (cm_recv cm ch) as [[x ch1]|]; try done.
  destruct (chan_drain cm fuel ch1); done.
Qed.

Lemma chan_drain_cons fuel (ch : cm_Chan cm) x inputs :
  chan_drain cm fuel ch = Some (x :: inputs) ->
  exists ch1 fuel', cm_recv cm ch = Some (x, ch1) /\
                    chan_drain cm fuel' ch1 = Some inputs.
Proof.
  destruct fuel; simpl; destruct (cm_recv cm ch) as [[y ch1]|]; try done.
  destruct (chan_drain cm fuel ch1) as [ys|] eqn:E; [|done].
  simpl. intros [= -> ->]. by exists ch1, fuel.
Qed.

Lemma sequential_schedule_runs w_id inputs :
  forall fuel ch (st : cm_State cm) out cs,
    chan_drain cm fuel ch = Some inputs ->
    (forall x, x ∈ inputs -> len (PartialCompute cm x) <> 0) ->
    let s := mkSys cm t (mkLoop cm (Some ch) 0 [] false st out [] cs) false in
    honest_run cm req start c_id (sequential_schedule cm w_id inputs) s /\
    exists s',
      sys_exec cm req start c_id (sequential_schedule cm w_id inputs) s = Some (Ok s') /\
      exited cm s' = true /\ failFast cm (loop cm s') = false /\
      accumulated (calls cm (loop cm s')) =
        accumulated cs ++ (PartialCompute cm <$> inputs).
Proof.
  induction inputs as [|x inputs IH]; intros fuel ch st out cs Hd Hne s; subst s.
  - apply chan_drain_nil in Hd.
    cbn [sequential_schedule honest_run sys_exec honest_event].
    rewrite (step_in_closed ch st out cs Hd).
    split; [done|]. eexists. split; [done|]. simpl.
    by rewrite accumulated_app, !app_nil_r.
  - apply chan_drain_cons in Hd as (ch1 & fuel' & Hr & Hd).
    assert (Hx : len (PartialCompute cm x) <> 0) by (apply Hne; by left).
    assert (Hne' : forall y, y ∈ inputs -> len (PartialCompute cm y) <> 0)
      by (intros y Hy; apply Hne; by right).
    cbn [sequential_schedule honest_run sys_exec honest_event].
    rewrite (step_in_dispatches ch x ch1 st out cs Hr).
    rewrite (step_completed_accumulates w_id ch1 x st out _ Hx).
    destruct (IH fuel' ch1 (fst (Accumulate cm (PartialCompute cm x) st))
                (out ++ snd (Accumulate cm (PartialCompute cm x) st))
                ((cs ++ [DidDispatch x]) ++ [DidAccumulate (PartialCompute cm x)])
                Hd Hne') as (Hh & s' & Hex & Hexit & Hff & Hacc).
    split.
    + split; [done|]. split; [|done].
      simpl. by intros input [= <-].
    + exists s'. repeat (split; [done|]).
      rewrite Hacc, !accumulated_app. simpl. by rewrite app_nil_r, <- app_assoc.
Qed.

End Sequential.

(** X11.  A coordinator whose share of workers is at least one, with a
    worker that answers every request with a non-empty output, completes
    the computation when it dispatches the inputs one at a time: it leaves
    the loop without [failFast] after it has accumulated the output of
    every input of the partition, in their order, and has called
    [Finalize] on the state these calls of [Accumulate] produced. *)
Theorem one_worker_run_completes cm req start c_id w_id t (st : cm_State cm) ch
    fuel inputs :
  0 < Free (mkFreeState (fst (Count t)) (snd (Count t)) 0) ->
  chan_drain cm fuel ch = Some inputs ->
  (forall x, x ∈ inputs -> len (PartialCompute cm x) <> 0) ->
  exists s,
    sys_exec cm req start c_id (sequential_schedule cm w_id inputs) (sys_init cm t st ch)
      = Some (Ok s) /\
    exited cm s = true /\ failFast cm (loop cm s) = false /\
    accumulated (calls cm (loop cm s)) = PartialCompute cm <$> inputs /\
    cmState cm (loop cm s) = fst (accumulate_seq cm (PartialCompute cm <$> inputs) st) /\
    output cm (loop cm s) =
      snd (accumulate_seq cm (PartialCompute cm <$> inputs) st)
      ++ Finalize cm start (cmState cm (loop cm s)).
Proof.
  intros Hfree Hd Hne. apply Z.ltb_lt in Hfree.
  destruct (sequential_schedule_runs cm req start c_id t Hfree w_id inputs
              fuel ch st [] [] Hd Hne) as (Hh & s & Hex & Hexit & Hff & Hacc).
  simpl in Hacc.
  pose proof (conservation_inv_exec cm req start c_id st ch _ _ s
                (conservation_inv_init cm start t st ch) Hh Hex) as Hcons.
  destruct (Hcons Hff) as (n & taken & ch' & _ & _ & _ & Hst & Hout).
  rewrite Hexit in Hout. rewrite Hacc in Hst, Hout.
  exists s. by repeat split.
Qed.

Lemma one_worker_run_completes_witness :
  exists s,
    sys_exec fac.FacComputation fac5_request 7 "c1"
      (sequential_schedule fac.FacComputation "w1" fac5_inputs)
      (sys_init fac.FacComputation fac5_one_worker (fac.mkFacState fac5_request 1)
         (fac.mkFacChan 2 5)) = Some (Ok s) /\
    fac.result (cmState fac.FacComputation (loop fac.FacComputation s)) = 120.
Proof.
  assert (Hfree : 0 < Free (mkFreeState (fst (Count fac5_one_worker))
                              (snd (Count fac5_one_worker)) 0)) by (by vm_compute).
  assert (Hd : chan_drain fac.FacComputation 4 (fac.mkFacChan 2 5) = Some fac5_inputs)
    by (by vm_compute).
  assert (Hne : forall x, x ∈ fac5_inputs -> len (PartialCompute fac.FacComputation x) <> 0).
  { intros x Hx. unfold fac5_inputs in Hx. simpl in Hx.
    repeat (apply elem_of_cons in Hx as [-> | Hx]; [by vm_compute|]).
    by apply elem_of_nil in Hx. }
  destruct (one_worker_run_completes fac.FacComputation fac5_request 7 "c1" "w1"
              fac5_one_worker (fac.mkFacState fac5_request 1) (fac.mkFacChan 2 5)
              4%nat fac5_inputs Hfree Hd Hne) as (s & Hex & _ & _ & _ & Hst & _).
  exists s. split; [exact Hex|]. rewrite Hst. by vm_compute.
Defined.

Lemma clean_exit_accumulates_every_output_witness :
  exists s inputs,
    sys_exec fac.FacComputation fac5_request 7 "c1"
      (sequential_schedule fac.FacComputation "w1" fac5_inputs)
      (sys_init fac.FacComputation fac5_one_worker (fac.mkFacState fac5_request 1)
         (fac.mkFacChan 2 5)) = Some (Ok s) /\
    chan_drain fac.FacComputation (length inputs) (fac.mkFacChan 2 5) = Some inputs /\
    accumulated (calls fac.FacComputation (loop fac.FacComputation s))
      ≡ₚ PartialCompute fac.FacComputation <$> inputs.
Proof.
  assert (Hfree : (0 <? Free (mkFreeState (fst (Count fac5_one_worker))
                               (snd (Count fac5_one_worker)) 0)) = true) by (by vm_compute).
  assert (Hd : chan_drain fac.FacComputation 4 (fac.mkFacChan 2 5) = Some fac5_inputs)
    by (by vm_compute).
  assert (Hne : forall x, x ∈ fac5_inputs -> len (PartialCompute fac.FacComputation x) <> 0).
  { intros x Hx. unfold fac5_inputs in Hx. simpl in Hx.
    repeat (apply elem_of_cons in Hx as [-> | Hx]; [by vm_compute|]).
    by apply elem_of_nil in Hx. }
  assert (Hfit : fits fac5_one_worker = true) by (by vm_compute).
  destruct (sequential_schedule_runs fac.FacComputation fac5_request 7 "c1"
              fac5_one_worker Hfree "w1" fac5_inputs 4%nat (fac.mkFacChan 2 5)
              (fac.mkFacState fac5_request 1) [] [] Hd Hne)
    as (Hh & s & Hex & Hexit & Hff & _).
  destruct (clean_exit_accumulates_every_output fac.FacComputation fac5_request 7 "c1"
              _ fac5_one_worker (fac.mkFacState fac5_request 1) (fac.mkFacChan 2 5) s
              Hfit Hh Hex Hexit Hff) as (inputs & Hdrain & Hperm & _).
  exists s, inputs. by repeat split.
Defined.

(** ** fac: the result does not depend on the order of the outputs *)

Lemma fac_Accumulate_value o c :
  fst (fac.Accumulate o c) =
    fac.mkFacState (fac.request c) (fac.result c * fac_value o).
Proof.
  unfold fac.Accumulate, fac_value.
  destruct (strconv.ParseUint (string_of_bytes o) 10 0) as [v [e|]]; simpl; [|done].
  rewrite Z.mul_1_r. by destruct c.
Qed.

Lemma accumulate_all_product outs : forall c,
  fac.result (accumulate_all outs c) = fac.result c * fac_product outs.
Proof.
  induction outs as [|o outs IH]; intros c.
  - simpl. lia.
  - unfold accumulate_all in *. cbn [fold_left foldr fac_product].
    rewrite IH, fac_Accumulate_value. simpl.
    fold (fac_product outs). lia.
Qed.

Lemma fac_product_Permutation outs outs' :
  outs ≡ₚ outs' -> fac_product outs = fac_product outs'.
Proof.
  induction 1 as [|o l l' _ IH|o o' l|l l' l'' _ IH1 _ IH2]; unfold fac_product in *;
    simpl; [done|by rewrite IH|lia|congruence].
Qed.

(** X12.  The result of fac does not depend on the order in which the
    outputs of the workers are passed to [Accumulate]. *)
Theorem fac_result_independent_of_order outs outs' c :
  outs ≡ₚ outs' ->
  fac.result (accumulate_all outs c) = fac.result (accumulate_all outs' c).
Proof.
  intros Hp. rewrite !accumulate_all_product.
  by rewrite (fac_product_Permutation outs outs' Hp).
Qed.

Lemma fac_result_independent_of_order_witness :
  fac.result (accumulate_all [encode 2; encode 3; encode 4]
                (fac.mkFacState fac5_request 1)) =
  fac.result (accumulate_all [encode 4; encode 2; encode 3]
                (fac.mkFacState fac5_request 1)).
Proof.
  apply (fac_result_independent_of_order [encode 2; encode 3; encode 4]
           [encode 4; encode 2; encode 3]).
  change [encode 4; encode 2; encode 3] with ([encode 4] ++ [encode 2; encode 3]).
  change [encode 2; encode 3; encode 4] with ([encode 2; encode 3] ++ [encode 4]).
  apply Permutation_app_comm.
Defined.

(** ** fac: from the request to the printed result *)

Lemma chan_drain_agree cm f1 : forall f2 (ch : cm_Chan cm) a b,
  chan_drain cm f1 ch = Some a -> chan_drain cm f2 ch = Some b -> a = b.
Proof.
  induction f1 as [|f1 IH]; intros f2 ch a b Ha Hb.
  - simpl in Ha. destruct f2; simpl in Hb;
      destruct (cm_recv cm ch) as [[x ch1]|]; congruence.
  - destruct f2; simpl in Ha, Hb; destruct (cm_recv cm ch) as [[x ch1]|];
      try congruence.
    destruct (chan_drain cm f1 ch1) as [a'|] eqn:Ea; [|done].
    destruct (chan_drain cm f2 ch1) as [b'|] eqn:Eb; [|done].
    simpl in Ha, Hb. injection Ha as <-. injection Hb as <-.
    f_equal. by apply (IH f2 ch1).
Qed.

Lemma fac_chan_closes n :
  0 <= n < max_uint64 ->
  chan_drain fac.FacComputation (Z.to_nat (n - 1)) (fac.mkFacChan 2 n)
  = Some (encode <$> seqZ 2 (n - 1)).
Proof.
  intros Hn. destruct (Z_le_gt_dec n 1) as [Hsmall | Hbig].
  - rewrite seqZ_nil by lia.
    replace (Z.to_nat (n - 1)) with 0%nat by lia.
    cbn [chan_drain]. simpl. unfold fac.recv. simpl.
    destruct (Z.leb_spec 2 n); [lia|done].
  - pose proof (fac_chan_drain (Z.to_nat (n - 1)) 0 2 n) as H.
    rewrite Nat.add_0_r, Z2Nat.id in H by lia. apply H; lia.
Qed.

Lemma accumulate_seq_fac_all outs : forall c,
  fst (accumulate_seq fac.FacComputation outs c) = accumulate_all outs c.
Proof.
  induction outs as [|o outs IH] using rev_ind; intros c; [done|].
  rewrite accumulate_seq_snoc. cbn [fst]. rewrite IH.
  unfold accumulate_all. by rewrite fold_left_app.
Qed.

Lemma accumulate_seq_fac_silent outs : forall c,
  (forall o, o ∈ outs -> exists k, 0 <= k <= max_int /\ o = encode k) ->
  snd (accumulate_seq fac.FacComputation outs c) = [].
Proof.
  induction outs as [|o outs IH] using rev_ind; intros c Hall; [done|].
  rewrite accumulate_seq_snoc. cbn [snd].
  rewrite IH by (intros o' Ho'; apply Hall, elem_of_app; by left).
  destruct (Hall o) as (k & Hk & ->); [apply elem_of_app; right; by left|].
  change (Accumulate fac.FacComputation) with fac.Accumulate.
  by rewrite fac_Accumulate_encode.
Qed.

Lemma fac_Partition_inr req st ch :
  fac.Partition req = inr (st, ch) ->
  st = fac.mkFacState req 1 /\ ch = fac.mkFacChan 2 (fac.n ch) /\
  0 <= fac.n ch <= max_uint64.
Proof.
  unfold fac.Partition. destruct (negb _); [done|].
  destruct (strconv.ParseUint _ 10 0) as [v [e|]] eqn:E; [done|].
  intros [= <- <-]. simpl.
  apply ParseUint_accepted in E as (Hs & Hd & Hv & Hle).
  split; [done|]. split; [done|]. split; [|done].
  subst v. by apply dec_value_ge.
Qed.

(** X13.  fac from the request to the printed result: when [Partition]
    accepts the request, for the number n <= 2^63 - 1, every run of the
    coordinator in which no helper is canceled and the workers answer with
    the output of [PartialCompute], and which leaves the loop without
    [failFast], prints exactly the two lines of [Finalize] for the result
    n!, whatever the order of the results, the resubmissions and the
    changes of the tracker on the way. *)
Theorem fac_clean_exit_prints_factorial req start c_id tr t st ch
    (s : Sys fac.FacComputation) :
  fits t = true ->
  fac.Partition req = inr (st, ch) ->
  fac.n ch <= max_int ->
  honest_run fac.FacComputation req start c_id tr (sys_init fac.FacComputation t st ch) ->
  sys_exec fac.FacComputation req start c_id tr (sys_init fac.FacComputation t st ch)
    = Some (Ok s) ->
  exited _ s = true ->
  failFast _ (loop _ s) = false ->
  cmState _ (loop _ s) = fac.mkFacState req (factorial (fac.n ch)) /\
  output _ (loop _ s) = fac.Finalize start (fac.mkFacState req (factorial (fac.n ch))).
Proof.
  intros Hfit Hpart Hn Hh Hex Hexit Hff.
  destruct (fac_Partition_inr req st ch Hpart) as (-> & Hch & Hn0).
  destruct (clean_exit_inv fac.FacComputation req start c_id tr t _ ch s
              Hfit Hh Hex Hexit Hff)
    as ((m & inputs & ch' & Ht & Hclosed & Hperm & Hst & Hout) & Hnil & Hhelp & Hq).
  rewrite Hnil in Hclosed. rewrite Hhelp, Hq in Hperm.
  simpl in Hperm. rewrite app_nil_r in Hperm. symmetry in Hperm.
  pose proof (chan_take_closed_drain fac.FacComputation m ch inputs ch' Ht Hclosed)
    as Hdrain.
  set (n := fac.n ch) in *.
  assert (Hin : inputs = encode <$> seqZ 2 (n - 1)).
  { rewrite Hch in Hdrain.
    apply (chan_drain_agree _ _ _ _ _ _ Hdrain (fac_chan_closes n ltac:(unfold max_int, max_uint64 in *; lia))). }
  subst inputs.
  rewrite accumulate_seq_fac_all in Hst.
  assert (Hstate : cmState _ (loop _ s) = fac.mkFacState req (factorial n)).
  { rewrite Hst.
    pose proof (accumulate_all_request
                  (accumulated (calls _ (loop _ s))) (fac.mkFacState req 1)) as Hreq.
    pose proof (accumulate_all_product
                  (accumulated (calls _ (loop _ s))) (fac.mkFacState req 1)) as Hres.
    rewrite (fac_product_Permutation _ _ Hperm) in Hres.
    rewrite <- accumulate_all_product, accumulate_all_factorial in Hres by lia.
    destruct (accumulate_all _ _) as [rq rs]. simpl in Hreq, Hres.
    rewrite Hreq, Hres. f_equal. lia. }
  split; [done|].
  rewrite Hout, accumulate_seq_fac_silent, Hstate; [done|].
  intros o Ho. rewrite Hperm in Ho.
  apply list_elem_of_fmap in Ho as (o' & -> & Ho').
  apply list_elem_of_fmap in Ho' as (k & -> & Hk).
  apply elem_of_seqZ in Hk. exists k. split; [lia|done].
Qed.

Lemma fac_clean_exit_prints_factorial_witness :
  exists s,
    sys_exec fac.FacComputation fac5_request 7 "c1"
      (sequential_schedule fac.FacComputation "w1" fac5_inputs)
      (sys_init fac.FacComputation fac5_one_worker (fac.mkFacState fac5_request 1)
         (fac.mkFacChan 2 5)) = Some (Ok s) /\
    output _ (loop _ s) = fac.Finalize 7 (fac.mkFacState fac5_request 120).
Proof.
  assert (Hfree : (0 <? Free (mkFreeState (fst (Count fac5_one_worker))
                               (snd (Count fac5_one_worker)) 0)) = true) by (by vm_compute).
  assert (Hd : chan_drain fac.FacComputation 4 (fac.mkFacChan 2 5) = Some fac5_inputs)
    by (by vm_compute).
  assert (Hne : forall x, x ∈ fac5_inputs -> len (PartialCompute fac.FacComputation x) <> 0).
  { intros x Hx. unfold fac5_inputs in Hx. simpl in Hx.
    repeat (apply elem_of_cons in Hx as [-> | Hx]; [by vm_compute|]).
    by apply elem_of_nil in Hx. }
  assert (Hfit : fits fac5_one_worker = true) by (by vm_compute).
  assert (Hpart : fac.Partition fac5_request
                  = inr (fac.mkFacState fac5_request 1, fac.mkFacChan 2 5))
    by (by vm_compute).
  assert (Hn : fac.n (fac.mkFacChan 2 5) <= max_int) by (by vm_compute).
  destruct (sequential_schedule_runs fac.FacComputation fac5_request 7 "c1"
              fac5_one_worker Hfree "w1" fac5_inputs 4%nat (fac.mkFacChan 2 5)
              (fac.mkFacState fac5_request 1) [] [] Hd Hne)
    as (Hh & s & Hex & Hexit & Hff & _).
  destruct (fac_clean_exit_prints_factorial fac5_request 7 "c1" _ fac5_one_worker
              _ _ s Hfit Hpart Hn Hh Hex Hexit Hff) as [_ Hout].
  exists s. split; [exact Hex|]. exact Hout.
Defined.

(** ** The loop: no [Finalize] while the input channel is open *)

Lemma chan_inv_iter cm ch0 count sel (l : LoopState cm) r :
  loop_iter cm count sel l = Some r ->
  chan_inv ch0 l -> chan_inv ch0 (state_of r).
Proof.
  intros H Hinv. unfold chan_inv in *.
  destruct sel as [| | |k rep|]; cbn [loop_iter] in H.
  - by injection H as <-.
  - destruct (0 <? Free _); [|done].
    destruct (in_ cm l) as [ch|] eqn:Ein; [|done].
    destruct Hinv as (n & taken & Ht).
    destruct (cm_recv cm ch) as [[input ch1]|] eqn:Er.
    + injection H as <-. simpl. exists (S n), (taken ++ [input]).
      by apply (chan_take_snoc cm n ch0 taken ch).
    + assert (Hd : exists fuel inputs, chan_drain cm fuel ch0 = Some inputs).
      { exists (length taken), taken. by apply (chan_take_closed_drain cm n ch0 taken ch). }
      destruct (all_completed _ _); by injection H as <-.
  - destruct (if 0 <? Free _ then pcResubmit cm l else []) as [|input q]; [done|].
    by injection H as <-.
  - destruct (helpers cm l !! k) as [input|]; [|done].
    destruct (performPartialComputation input rep) as [res|]; [|done].
    destruct (pr_resubmit res).
    + simpl in H. destruct (_ <? pcResubmit_cap); by injection H as <-.
    + destruct (len (pr_data res) =? 0); [by injection H as <-|].
      simpl in H. destruct (Accumulate cm (pr_data res) (cmState cm l)) as [st' ws].
      destruct (_ && _); by injection H as <-.
  - by injection H as <-.
Qed.

Lemma chan_inv_step cm req start c_id ch0 e (s s' : Sys cm) :
  sys_step cm req start c_id e s = Some (Ok s') ->
  chan_inv ch0 (loop cm s) -> chan_inv ch0 (loop cm s').
Proof.
  intros H Hinv.
  assert (Htrack : forall es, track cm es s = Some (Ok s') -> chan_inv ch0 (loop cm s')).
  { intros es Ht. unfold track in Ht.
    destruct (run_effects es (tracker cm s)) as [[t' rs]|]; [|done].
    destruct (fits t'); [|done]. by injection Ht as <-. }
  destruct e as [ar | ac | evt | k | sel]; cbn [sys_step] in H; eauto.
  - unfold helper_canceled in H.
    destruct (helpers cm (loop cm s) !! k); [|done]. simpl in H.
    by injection H as <-.
  - destruct (exited cm s); [done|].
    destruct (loop_iter cm (Count (tracker cm s)) sel (loop cm s)) as [r|] eqn:E; [|done].
    pose proof (chan_inv_iter cm ch0 _ _ _ _ E Hinv) as Hr.
    destruct r as [l' | l']; injection H as <-; [done|].
    simpl in *. unfold chan_inv, after_loop in *. by destruct (negb _).
Qed.

Lemma chan_inv_states cm req start c_id ch0 tr : forall (s : Sys cm),
  chan_inv ch0 (loop cm s) ->
  Forall (fun h => chan_inv ch0 (loop cm h)) (sys_states cm req start c_id tr s).
Proof.
  induction tr as [|e tr IH]; intros s Hinv; simpl; [constructor|].
  destruct (sys_step cm req start c_id e s) as [[s'|]|] eqn:E; try constructor.
  - by apply (chan_inv_step cm req start c_id ch0 e s).
  - apply IH. by apply (chan_inv_step cm req start c_id ch0 e s).
Qed.

(** X14.  When the channel returned by [Partition] is never closed, no run
    of the coordinator calls [Finalize]: the loop is left only with
    [failFast] set. *)
Theorem no_Finalize_while_channel_open cm req start c_id tr t (st : cm_State cm) ch
    (s : Sys cm) :
  (forall fuel, chan_drain cm fuel ch = None) ->
  s ∈ visited cm req start c_id tr (sys_init cm t st ch) ->
  count_finalize (calls cm (loop cm s)) = 0%nat /\
  (exited cm s = true -> failFast cm (loop cm s) = true).
Proof.
  intros Hopen Hs. set (s0 := sys_init cm t st ch) in *.
  assert (Hc0 : chan_inv ch (loop cm s0)) by (by exists 0%nat, []).
  assert (Hinv : chan_inv ch (loop cm s) /\ finalize_inv req start s).
  { unfold visited in Hs. apply elem_of_cons in Hs as [-> | Hs].
    - split; [done|]. apply finalize_inv_init.
    - pose proof (chan_inv_states cm req start c_id ch tr s0 Hc0) as Hall1.
      pose proof (finalize_inv_states cm req start c_id tr s0
                    (finalize_inv_init cm req start t st ch)) as Hall2.
      rewrite Forall_forall in Hall1, Hall2. split; [by apply Hall1 | by apply Hall2]. }
  destruct Hinv as [Hch Hfin].
  unfold finalize_inv in Hfin. cbv zeta in Hfin. unfold chan_inv in Hch.
  destruct (exited cm s).
  - destruct (failFast cm (loop cm s)).
    + by destruct Hfin.
    + destruct Hfin as (_ & Hin & _). rewrite Hin in Hch.
      destruct Hch as (fuel & inputs & Hd). by rewrite Hopen in Hd.
  - by destruct Hfin.
Qed.

Lemma no_Finalize_while_channel_open_witness :
  fac.Partition fac_max_request
    = inr (fac.mkFacState fac_max_request 1, fac.mkFacChan 2 max_uint64) /\
  Forall (fun s => count_finalize (calls _ (loop _ s)) = 0%nat)
    (visited fac.FacComputation fac_max_request 0 "c1"
       [EvIter CaseIn; EvIter CaseDone]
       (sys_init fac.FacComputation fac5_one_worker
          (fac.mkFacState fac_max_request 1) (fac.mkFacChan 2 max_uint64))).
Proof.
  split; [by vm_compute|].
  apply Forall_forall. intros s Hs.
  assert (Hopen : forall fuel,
            chan_drain fac.FacComputation fuel (fac.mkFacChan 2 max_uint64) = None).
  { intros fuel. apply fac_chan_never_closes. by vm_compute. }
  exact (proj1 (no_Finalize_while_channel_open fac.FacComputation fac_max_request 0 "c1"
                  _ fac5_one_worker _ _ s Hopen Hs)).
Defined.

(** X15.  The channel of inputs that [Partition] of fac returns for an
    accepted argument n is closed after finitely many receives iff
    n < 2^64 - 1; it then delivers the decimal strings of 2, ..., n.  For
    n = 2^64 - 1 the loop variable wraps around and inputs are sent forever. *)
Theorem fac_input_channel_closes_iff req st ch :
  fac.Partition req = inr (st, ch) ->
  ((exists fuel inputs, chan_drain fac.FacComputation fuel ch = Some inputs)
     <-> fac.n ch < max_uint64) /\
  (forall fuel inputs,
     chan_drain fac.FacComputation fuel ch = Some inputs ->
     inputs = encode <$> seqZ 2 (fac.n ch - 1)).
Proof.
  intros Hpart. destruct (fac_Partition_inr req st ch Hpart) as (_ & Hch & Hn).
  destruct ch as [ci n]. simpl in *. injection Hch as ->.
  assert (Hlt : forall fuel inputs,
            chan_drain fac.FacComputation fuel (fac.mkFacChan 2 n) = Some inputs ->
            n < max_uint64).
  { intros fuel inputs Hd.
    destruct (Z.eq_dec n max_uint64) as [E|]; [|lia].
    rewrite E, fac_chan_never_closes in Hd; [done|]. by vm_compute. }
  split; [split|].
  - intros (fuel & inputs & Hd). by apply (Hlt fuel inputs).
  - intros Hn'. exists (Z.to_nat (n - 1)), (encode <$> seqZ 2 (n - 1)).
    apply fac_chan_closes. lia.
  - intros fuel inputs Hd. pose proof (Hlt fuel inputs Hd) as Hn'.
    apply (chan_drain_agree _ _ _ _ _ _ Hd (fac_chan_closes n ltac:(lia))).
Qed.

Lemma fac_input_channel_closes_iff_witness :
  (exists fuel inputs,
     chan_drain fac.FacComputation fuel (fac.mkFacChan 2 5) = Some inputs) /\
  chan_drain fac.FacComputation 4 (fac.mkFacChan 2 5) = Some fac5_inputs.
Proof.
  assert (Hpart : fac.Partition fac5_request
                  = inr (fac.mkFacState fac5_request 1, fac.mkFacChan 2 5))
    by (by vm_compute).
  destruct (fac_input_channel_closes_iff fac5_request _ _ Hpart) as [Hiff _].
  split; [|by vm_compute].
  apply Hiff. by vm_compute.
Defined.

(** ** The worker command: the number of workers *)

Lemma is_decimal_first c s :
  is_decimal (String c s) = true ->
  Ascii.eqb c "+" = false /\ Ascii.eqb c "-" = false.
Proof.
  simpl. intros H. apply andb_prop in H as [H _].
  unfold is_digit in H. apply andb_prop in H as [H1 H2].
  apply Z.leb_le in H1. apply Z.leb_le in H2.
  split; apply Ascii.eqb_neq; intros ->; vm_compute in H1; vm_compute in H2; done.
Qed.

Lemma Atoi_decimal d :
  d <> ""%string -> is_decimal d = true -> dec_value 0 d <= max_int ->
  Atoi d = (dec_value 0 d, None) /\ Atoi (String "+" d) = (dec_value 0 d, None).
Proof.
  intros Hd Hdec Hv.
  assert (H0 : 0 <= dec_value 0 d) by (by apply dec_value_ge).
  assert (Hp : strconv.ParseUint d 10 0 = (dec_value 0 d, None)).
  { apply ParseUint_accepts; try done. unfold max_int, max_uint64 in *. lia. }
  assert (Hge : (dec_value 0 d >=? 2 ^ 63) = false).
  { unfold max_int in Hv. destruct (Z.geb_spec (dec_value 0 d) (2 ^ 63)); [lia|done]. }
  assert (Hw : wrap_int (dec_value 0 d) = dec_value 0 d).
  { apply wrap_int_id. unfold is_int, min_int. lia. }
  split.
  - destruct d as [|c s]; [done|].
    destruct (is_decimal_first c s Hdec) as [Hplus Hminus].
    unfold Atoi. rewrite Hplus, Hminus. cbn [orb negb andb].
    rewrite Hp. cbv zeta. rewrite Hge. cbn [andb]. by rewrite Hw.
  - unfold Atoi. change (Ascii.eqb "+" "+") with true.
    change (Ascii.eqb "+" "-") with false. cbn [orb negb andb].
    rewrite Hp. cbv zeta. rewrite Hge. cbn [andb]. by rewrite Hw.
Qed.

Lemma Atoi_accepted s n :
  Atoi s = (n, None) -> 1 <= n ->
  exists d, d <> ""%string /\ is_decimal d = true /\
            (s = d \/ s = String "+" d) /\ dec_value 0 d = n.
Proof.
  intros H Hn. destruct s as [|c s']; [done|]. unfold Atoi in H.
  destruct (strconv.ParseUint _ 10 0) as [un [e|]] eqn:E; [by destruct e|].
  apply ParseUint_accepted in E as (Hne & Hdec & Hv & Hle).
  assert (H0 : 0 <= un) by (subst un; by apply dec_value_ge).
  cbv zeta in H.
  destruct (Ascii.eqb c "-") eqn:Eminus; cbn [negb andb orb] in H.
  - rewrite orb_true_r in Hne, Hdec, Hv.
    destruct (Z.gtb_spec un (2 ^ 63)); [done|]. injection H as H.
    exfalso. destruct (Z.eq_dec un (2 ^ 63)) as [->|].
    + vm_compute in H. lia.
    + rewrite (wrap_int_id un) in H by (unfold is_int, min_int, max_int; lia).
      rewrite wrap_int_id in H by (unfold is_int, min_int, max_int; lia). lia.
  - rewrite orb_false_r in Hne, Hdec, Hv.
    destruct (Z.geb_spec un (2 ^ 63)); [done|]. injection H as H.
    rewrite wrap_int_id in H by (unfold is_int, min_int, max_int; lia). subst n.
    destruct (Ascii.eqb_spec c "+") as [->|Hc].
    + exists s'. repeat split; try done. by right.
    + exists (String c s'). repeat split; try done. by left.
Qed.

(** X16.  The worker command starts workers exactly when help is not asked
    for, the second argument is absent or the empty string, and the first
    argument is absent or the empty string (then 10 workers are started)
    or is a string of decimal digits, with an optional plus sign in front,
    whose value is between 1 and 100 (then that many are started).
    Arguments after the second are not looked at.  So the number of workers
    started is always between 1 and 100. *)
Theorem worker_main_count_accepts help args n :
  (worker_main_count help args = StartsWorkers n <->
   help = false /\ nth 1 args ""%string = ""%string /\
   ((nth 0 args ""%string = ""%string /\ n = 10) \/
    exists d, d <> ""%string /\ is_decimal d = true /\
              (nth 0 args ""%string = d \/ nth 0 args ""%string = String "+" d) /\
              dec_value 0 d = n /\ 1 <= n <= 100)) /\
  (worker_main_count help args = StartsWorkers n -> 1 <= n <= maxWorkers).
Proof.
  assert (Hiff : worker_main_count help args = StartsWorkers n <->
   help = false /\ nth 1 args ""%string = ""%string /\
   ((nth 0 args ""%string = ""%string /\ n = 10) \/
    exists d, d <> ""%string /\ is_decimal d = true /\
              (nth 0 args ""%string = d \/ nth 0 args ""%string = String "+" d) /\
              dec_value 0 d = n /\ 1 <= n <= 100)).
  { unfold worker_main_count. set (a := nth 0 args ""%string).
    destruct (String.eqb_spec (nth 1 args ""%string) "") as [E1|E1]; cbn [negb orb];
      [|split; [done|by intros (_ & ? & _)]].
    destruct help; [split; [done|by intros (? & _)]|].
    split.
    - intros H. split; [done|]. split; [done|].
      destruct (Atoi a) as [count err] eqn:E.
      destruct (String.eqb_spec a "") as [Ea|Ea].
      + rewrite Ea in E. cbn in E. injection E as <- <-. cbn in H.
        injection H as <-. by left.
      + rewrite andb_false_r in H. destruct err as [e|]; [done|]. cbn [not_nil orb] in H.
        destruct (Z.ltb_spec count 1); [done|].
        destruct (Z.gtb_spec count maxWorkers); [done|]. cbn in H. injection H as <-.
        right. destruct (Atoi_accepted a count E ltac:(lia)) as (d & Hd & Hdec & Ha & Hv).
        exists d. unfold maxWorkers in *. by repeat split.
    - intros (_ & _ & [[Ea ->] | (d & Hd & Hdec & Ha & Hv & Hn)]).
      + by rewrite Ea.
      + destruct (Atoi_decimal d Hd Hdec ltac:(unfold max_int; lia)) as [A1 A2].
        assert (E : Atoi a = (n, None)) by (destruct Ha as [-> | ->]; congruence).
        assert (Ea : String.eqb a "" = false).
        { apply String.eqb_neq. by destruct Ha as [-> | ->]. }
        rewrite E, Ea. cbn [not_nil andb orb].
        destruct (Z.ltb_spec n 1); [lia|].
        destruct (Z.gtb_spec n maxWorkers); [unfold maxWorkers in *; lia|]. done. }
  split; [exact Hiff|].
  intros H. apply Hiff in H as (_ & _ & [[_ ->] | (d & _ & _ & _ & _ & Hn)]);
    unfold maxWorkers; lia.
Qed.

Lemma worker_main_count_accepts_witness :
  worker_main_count false ["+7"%string] = StartsWorkers 7 /\
  worker_main_count false [] = StartsWorkers 10 /\
  worker_main_count false [""%string] = StartsWorkers 10 /\
  worker_main_count false ["5"%string; ""%string; "x"%string] = StartsWorkers 5 /\
  worker_main_count false ["5"%string; "x"%string] = ShowsUsage /\
  1 <= 7 <= maxWorkers.
Proof.
  split; [by vm_compute|]. split; [by vm_compute|].
  split.
  { apply (proj1 (worker_main_count_accepts false [""%string] 10)).
    split; [reflexivity|]. split; [reflexivity|]. left. split; reflexivity. }
  split.
  { apply (proj1 (worker_main_count_accepts false ["5"%string; ""%string; "x"%string] 5)).
    split; [reflexivity|]. split; [reflexivity|]. right. exists "5"%string.
    split; [discriminate|]. split; [reflexivity|]. split; [left; reflexivity|].
    split; [reflexivity|lia]. }
  split; [by vm_compute|].
  apply (proj2 (worker_main_count_accepts false ["+7"%string] 7)). by vm_compute.
Defined.

(** ** The worker command: waiting for the workers *)

Lemma not_returned_bounds ws : 0 <= not_returned ws <= Z.of_nat (length ws).
Proof.
  induction ws as [|w ws IH]; simpl; [lia|]. destruct (wp_status w); lia.
Qed.

Lemma not_returned_insert ws : forall i w w',
  ws !! i = Some w ->
  not_returned (<[i := w']> ws) =
    not_returned ws
    - (match wp_status w with Returned => 0 | _ => 1 end)
    + (match wp_status w' with Returned => 0 | _ => 1 end).
Proof.
  induction ws as [|x ws IH]; intros i w w' Hi; [done|].
  destruct i as [|i]; simpl in *.
  - injection Hi as ->. lia.
  - rewrite (IH i w w' Hi). lia.
Qed.

Lemma not_returned_zero ws :
  not_returned ws = 0 -> Forall (fun w => wp_status w = Returned) ws.
Proof.
  induction ws as [|w ws IH]; simpl; intros H; [constructor|].
  pose proof (not_returned_bounds ws).
  destruct (wp_status w) eqn:E; try lia.
  constructor; [done|]. apply IH. lia.
Qed.

Lemma worker_main_inv_init ws :
  Z.of_nat (length ws) <= max_int -> worker_main_inv (worker_main_init ws).
Proof.
  intros Hlen. unfold worker_main_inv, worker_main_init. simpl.
  rewrite length_fmap.
  split; [|split; [done|split; [lia|split; [done|split]]]].
  - clear Hlen. induction ws as [|w ws IH]; [done|].
    rewrite fmap_cons. cbn [length not_returned wp_status].
    rewrite <- IH. lia.
  - apply Forall_fmap, Forall_forall. by intros w _.
  - apply Forall_fmap, Forall_forall. intros w _ _ _. by left.
Qed.

Lemma worker_main_inv_step e m m' :
  worker_main_step e m = Some m' -> worker_main_inv m -> worker_main_inv m'.
Proof.
  unfold worker_main_step. destruct (Z.ltb_spec 0 (wm_sw m)) as [Hsw|]; [|done].
  cbn [negb]. intros H (Hcount & Hlen & Hc & Hsig & Hall & Hserve).
  destruct e as [i | i | | i].
  - destruct (wm_workers m !! i) as [w|] eqn:Ei; [|done]. simpl in H.
    destruct (wp_status w) eqn:Es; try done. injection H as <-.
    pose proof (Forall_lookup_1 _ _ _ _ Hall Ei) as Hw.
    unfold worker_proc_inv in Hw. rewrite Es in Hw. destruct Hw as [Hp He].
    unfold worker_main_inv. simpl. rewrite length_insert.
    rewrite (not_returned_insert _ i w _ Ei), Es.
    split; [|split; [done|split; [done|split; [done|split]]]].
    + unfold Worker_Start_runs. destruct (serves (wp_env w)); simpl; lia.
    + apply Forall_insert; [done|].
      unfold worker_proc_inv, Worker_Start_runs.
      destruct (serves (wp_env w)) eqn:E; simpl; rewrite ?E, Hp, He; done.
    + apply Forall_insert; [done|]. intros Hs _.
      unfold Worker_Start_runs in *. destruct (serves (wp_env w)) eqn:E; simpl in *.
      * by right.
      * congruence.
  - destruct (wm_workers m !! i) as [w|] eqn:Ei; [|done]. simpl in H.
    destruct (wp_status w) eqn:Es; try done.
    destruct (ctx_done m) eqn:Ed; [|done]. injection H as <-.
    pose proof (Forall_lookup_1 _ _ _ _ Hall Ei) as Hw.
    unfold worker_proc_inv in Hw. rewrite Es in Hw. destruct Hw as (Hsv & Hp & He).
    unfold worker_main_inv. simpl. rewrite length_insert.
    rewrite (not_returned_insert _ i w _ Ei), Es. simpl.
    split; [lia|split; [done|split; [done|split; [done|split]]]].
    + apply Forall_insert; [done|].
      unfold worker_proc_inv. simpl. rewrite Hsv, Hp, He. done.
    + apply Forall_forall. intros x _ _ Hnd.
      unfold ctx_done in *. simpl in Hnd. congruence.
  - destruct (wm_signaled_nil m) eqn:En; [done|]. injection H as <-.
    specialize (Hsig eq_refl).
    unfold worker_main_inv. simpl. rewrite Hsig.
    split; [done|split; [done|split; [lia|split; [done|split; [done|]]]]].
    apply Forall_forall. intros w _ _ Hd. unfold ctx_done in Hd. simpl in Hd. done.
  - destruct (wm_workers m !! i) as [w|] eqn:Ei; [|done]. simpl in H.
    destruct (wp_status w) eqn:Es; try done. injection H as <-.
    pose proof (Forall_lookup_1 _ _ _ _ Hall Ei) as Hw.
    pose proof (Forall_lookup_1 _ _ _ _ Hserve Ei) as Hsw'.
    unfold worker_proc_inv in Hw. rewrite Es in Hw.
    unfold worker_main_inv. simpl. rewrite length_insert.
    rewrite (not_returned_insert _ i w _ Ei), Es. simpl.
    pose proof (not_returned_bounds (wm_workers m)).
    split; [|split; [done|split; [done|split; [done|split]]]].
    + unfold int_sub. rewrite wrap_int_id; [lia|].
      unfold is_int, min_int, max_int in *. lia.
    + apply Forall_insert; [done|]. unfold worker_proc_inv. simpl. done.
    + apply Forall_insert; [done|].
      intros Hs Hd. simpl in *. destruct (Hsw' Hs Hd); congruence.
Qed.

Lemma worker_main_inv_exec tr : forall m m',
  worker_main_exec tr m = Some m' -> worker_main_inv m -> worker_main_inv m'.
Proof.
  induction tr as [|e tr IH]; intros m m' H Hinv; simpl in H.
  - by injection H as <-.
  - destruct (worker_main_step e m) as [m1|] eqn:E; [|done]. simpl in H.
    apply (IH m1 m' H). by apply (worker_main_inv_step e m).
Qed.

Lemma worker_ids_step e m m' :
  worker_main_step e m = Some m' -> worker_ids m' = worker_ids m.
Proof.
  unfold worker_main_step, worker_ids. destruct (negb _); [done|].
  assert (Hins : forall i w w',
            wm_workers m !! i = Some w ->
            (wp_id w', wp_env w') = (wp_id w, wp_env w) ->
            (fun w => (wp_id w, wp_env w)) <$> <[i := w']> (wm_workers m)
            = (fun w => (wp_id w, wp_env w)) <$> wm_workers m).
  { intros i w w' Hi Heq. rewrite list_fmap_insert, Heq.
    apply list_insert_id. by rewrite list_lookup_fmap, Hi. }
  destruct e as [i | i | | i].
  - destruct (wm_workers m !! i) as [w|] eqn:Ei; [|done]. simpl.
    destruct (wp_status w); try done. intros [= <-]. simpl.
    apply (Hins i w _ Ei). unfold Worker_Start_runs. by destruct (serves _).
  - destruct (wm_workers m !! i) as [w|] eqn:Ei; [|done]. simpl.
    destruct (wp_status w); try done. destruct (ctx_done m); [|done].
    intros [= <-]. simpl. by apply (Hins i w _ Ei).
  - destruct (wm_signaled_nil m); [done|]. by intros [= <-].
  - destruct (wm_workers m !! i) as [w|] eqn:Ei; [|done]. simpl.
    destruct (wp_status w); try done. intros [= <-]. simpl.
    by apply (Hins i w _ Ei).
Qed.

Lemma worker_ids_exec tr : forall m m',
  worker_main_exec tr m = Some m' -> worker_ids m' = worker_ids m.
Proof.
  induction tr as [|e tr IH]; intros m m' H; simpl in H.
  - by injection H as <-.
  - destruct (worker_main_step e m) as [m1|] eqn:E; [|done]. simpl in H.
    rewrite (IH m1 m' H). by apply (worker_ids_step e).
Qed.



(** ** wf: the paragraphs of a file *)

Lemma length_zero_nil {A} (l : list A) : (Z.of_nat (length l) =? 0) = true <-> l = [].
Proof.
  rewrite Z.eqb_eq. destruct l; simpl; [done|]. split; [lia|done].
Qed.

Lemma scan_line_content s line :
  concat (contents <$> wf.sent (wf.scan_line s line)) ++ wf.paragraph (wf.scan_line s line)
  = (concat (contents <$> wf.sent s) ++ wf.paragraph s)
    ++ (if decide (line <> []) then line ++ [wf.newline] else []).
Proof.
  unfold wf.scan_line. destruct (Z.of_nat (length line) =? 0) eqn:E.
  - apply length_zero_nil in E as ->. rewrite decide_False by (by intros H).
    rewrite !app_nil_r. destruct (wf.eop s); [done|]. simpl.
    rewrite fmap_app, concat_app. simpl. by rewrite !app_nil_r.
  - assert (Hl : line <> []).
    { intros ->. simpl in E. done. }
    rewrite decide_True by done. simpl. by rewrite <- !app_assoc.
Qed.

Lemma scan_content lines : forall s,
  concat (contents <$> wf.sent (fold_left wf.scan_line lines s))
  ++ wf.paragraph (fold_left wf.scan_line lines s)
  = (concat (contents <$> wf.sent s) ++ wf.paragraph s)
    ++ concat ((fun l => l ++ [wf.newline]) <$> filter (fun l => l <> []) lines).
Proof.
  induction lines as [|l lines IH]; intros s; simpl.
  - by rewrite app_nil_r.
  - rewrite IH, scan_line_content, filter_cons.
    destruct (decide (l <> [])); simpl; by rewrite <- ?app_assoc, ?app_nil_r.
Qed.

Lemma scan_nonempty lines : forall s,
  scan_inv s ->
  scan_inv (fold_left wf.scan_line lines s) /\
  exists more, wf.sent (fold_left wf.scan_line lines s) = wf.sent s ++ more /\
               Forall wf_nonempty more.
Proof.
  induction lines as [|l lines IH]; intros s Hinv; simpl.
  - split; [done|]. exists []. by rewrite app_nil_r.
  - unfold wf.scan_line at 2 4. unfold scan_inv in Hinv.
    destruct (Z.of_nat (length l) =? 0) eqn:E.
    + destruct (wf.eop s) eqn:Ee; [apply IH; unfold scan_inv; by rewrite Ee|].
      destruct (IH (wf.mkScan [] true (wf.sent s ++ [Some (wf.paragraph s)])))
        as (Hinv' & more & Hsent & Hall); [done|].
      split; [done|]. exists (Some (wf.paragraph s) :: more).
      split; [rewrite Hsent; simpl; by rewrite <- app_assoc|].
      constructor; [by split|done].
    + destruct (IH (wf.mkScan ((wf.paragraph s ++ l) ++ [wf.newline]) false (wf.sent s)))
        as (Hinv' & more & Hsent & Hall); [|by split; [|exists more]].
      unfold scan_inv. simpl. intros H. by apply app_eq_nil in H as [_ ?].
Qed.

Lemma paragraphs_from s lines :
  scan_inv s ->
  exists more,
    wf.sent (fold_left wf.scan_line lines s)
    ++ (if Z.of_nat (length (wf.paragraph (fold_left wf.scan_line lines s))) =? 0
        then [] else [Some (wf.paragraph (fold_left wf.scan_line lines s))])
    = wf.sent s ++ more /\ Forall wf_nonempty more.
Proof.
  intros Hinv. destruct (scan_nonempty lines s Hinv) as (Hinv' & more & Hsent & Hall).
  set (s' := fold_left wf.scan_line lines s) in *.
  destruct (Z.of_nat (length (wf.paragraph s')) =? 0) eqn:E.
  - exists more. by rewrite app_nil_r.
  - exists (more ++ [Some (wf.paragraph s')]). rewrite Hsent, <- app_assoc.
    split; [done|]. apply Forall_app. split; [done|].
    constructor; [|done]. split; [|done]. simpl. intros H. by rewrite H in E.
Qed.

(** X18.  [partitionFile] of wf sends the lines that its line scanner
    delivers as paragraphs: the paragraphs sent hold, in order, exactly the
    non-empty lines delivered, each followed by a newline, so none of the
    delivered lines is lost or sent twice, also when the scanner ends with
    an error.  Every paragraph sent is non-empty, except that one empty
    paragraph is sent first when the first line delivered is empty.  What
    the scanner does not deliver of the file is not sent. *)
Theorem wf_partitionFile_sends_paragraphs path lines scan_err c :
  let ps := (wf.partitionFile path (wf.Opened lines scan_err) c).1.2 in
  concat (contents <$> ps)
    = concat ((fun l => l ++ [wf.newline]) <$> filter (fun l => l <> []) lines) /\
  exists more,
    ps = (match lines with [] :: _ => [Some []] | _ => [] end) ++ more /\
    Forall wf_nonempty more.
Proof.
  cbn [wf.partitionFile fst snd]. split.
  - unfold wf.paragraphs. cbv zeta.
    pose proof (scan_content lines (wf.mkScan [] false [])) as H. simpl in H.
    rewrite <- H, fmap_app, concat_app. f_equal.
    destruct (Z.of_nat (length _) =? 0) eqn:E; simpl; [|by rewrite app_nil_r].
    by apply length_zero_nil in E as ->.
  - unfold wf.paragraphs. cbv zeta. destruct lines as [|l lines]; [by exists []|].
    cbn [fold_left]. set (s1 := wf.scan_line (wf.mkScan [] false []) l).
    assert (Hs1 : scan_inv s1 /\
                  wf.sent s1 = match l with [] => [Some []] | _ => [] end).
    { subst s1. unfold wf.scan_line, scan_inv. destruct l; simpl; [done|].
      split; done. }
    destruct Hs1 as [Hinv Hsent].
    destruct (paragraphs_from s1 lines Hinv) as (more & Heq & Hall).
    exists more. rewrite Heq, Hsent. split; [|done]. by destruct l.
Qed.

Lemma wf_partitionFile_sends_paragraphs_example :
  (wf.partitionFile "a.txt" (wf.Opened wf_hello_world_lines None)
     (wf.mkWfState (mkRequest "wf" ["a.txt"%string]) ∅ 0)).1.2
  = [ Some [];
      Some (contents (bytes_of_string "hello") ++ [wf.newline]
            ++ contents (bytes_of_string "world") ++ [wf.newline]);
      Some (contents (bytes_of_string "bye") ++ [wf.newline]) ].
Proof. by vm_compute. Qed.

(** ** wf: the inputs of a request *)

Lemma wf_partition_paths fs paths : forall acc,
  0 <= wf.fileCount acc.1.1 ->
  wf.fileCount acc.1.1 + Z.of_nat (length paths) <= max_int ->
  let r := fold_left
             (fun acc path =>
                let '(c, inputs, out) := wf.partitionFile path (fs path) acc.1.1 in
                (c, acc.1.2 ++ inputs, acc.2 ++ out))
             paths acc in
  wf.fileCount r.1.1 = wf.fileCount acc.1.1 + Z.of_nat (length paths) /\
  wf.request r.1.1 = wf.request acc.1.1 /\
  wf.result r.1.1 = wf.result acc.1.1 /\
  r.1.2 = acc.1.2 ++ concat (wf_file_inputs fs <$> paths).
Proof.
  induction paths as [|path paths IH]; intros acc H0 Hmax; cbv zeta.
  - simpl. rewrite app_nil_r. split; [lia|done].
  - cbn [fold_left]. cbn [length] in Hmax.
    set (acc1 := let '(c, inputs, out) := wf.partitionFile path (fs path) acc.1.1 in
                 (c, acc.1.2 ++ inputs, acc.2 ++ out)).
    assert (H1 : wf.fileCount acc1.1.1 = wf.fileCount acc.1.1 + 1 /\
                 wf.request acc1.1.1 = wf.request acc.1.1 /\
                 wf.result acc1.1.1 = wf.result acc.1.1 /\
                 acc1.1.2 = acc.1.2 ++ wf_file_inputs fs path).
    { subst acc1. unfold wf.partitionFile, wf_file_inputs.
      assert (Hw : int_add (wf.fileCount acc.1.1) 1 = wf.fileCount acc.1.1 + 1).
      { apply wrap_int_id. unfold is_int, min_int, max_int in *. lia. }
      destruct (fs path); simpl; rewrite Hw; done. }
    destruct H1 as (Hc & Hr & Hres & Hin).
    destruct (IH acc1) as (Hc' & Hr' & Hres' & Hin'); [lia|lia|].
    cbv zeta in Hc', Hr', Hres', Hin'.
    rewrite Hc', Hr', Hres', Hin', Hc, Hr, Hres, Hin. simpl. rewrite <- app_assoc.
    split; [lia|done].
Qed.

Lemma wf_partition_globs glob fs args : forall acc,
  0 <= wf.fileCount acc.1.1 ->
  wf.fileCount acc.1.1 + Z.of_nat (length (wf_matches glob args)) <= max_int ->
  let r := fold_left (wf.partition_glob glob fs) args acc in
  wf.fileCount r.1.1 = wf.fileCount acc.1.1 + Z.of_nat (length (wf_matches glob args)) /\
  wf.request r.1.1 = wf.request acc.1.1 /\
  wf.result r.1.1 = wf.result acc.1.1 /\
  r.1.2 = acc.1.2 ++ concat (wf_file_inputs fs <$> wf_matches glob args).
Proof.
  induction args as [|g args IH]; intros acc H0 Hmax; cbv zeta.
  - simpl. rewrite app_nil_r. split; [lia|done].
  - cbn [fold_left]. unfold wf_matches in *. rewrite fmap_cons in *.
    cbn [concat] in *. rewrite length_app in Hmax.
    set (acc1 := wf.partition_glob glob fs acc g).
    assert (H1 : wf.fileCount acc1.1.1
                 = wf.fileCount acc.1.1 + Z.of_nat (length (default [] (glob g))) /\
                 wf.request acc1.1.1 = wf.request acc.1.1 /\
                 wf.result acc1.1.1 = wf.result acc.1.1 /\
                 acc1.1.2 = acc.1.2 ++ concat (wf_file_inputs fs <$> default [] (glob g))).
    { subst acc1. unfold wf.partition_glob.
      destruct (glob g) as [[|path paths]|] eqn:Eg; simpl;
        try (rewrite app_nil_r; split; [lia|done]).
      apply (wf_partition_paths fs (path :: paths) acc H0). simpl in *. lia. }
    destruct H1 as (Hc & Hr & Hres & Hin).
    destruct (IH acc1) as (Hc' & Hr' & Hres' & Hin'); [lia|lia|].
    cbv zeta in Hc', Hr', Hres', Hin'.
    rewrite Hc', Hr', Hres', Hin', Hc, Hr, Hres, Hin.
    rewrite fmap_app, concat_app, <- app_assoc.
    split; [rewrite length_app; lia|done].
Qed.

(** X19.  [Partition] of wf rejects a request without arguments.
    Otherwise the inputs it sends before it closes the channel are the
    paragraphs of the files its patterns match, in the order of the
    patterns and of the matches; a file that cannot be opened, a pattern
    that is malformed or matches nothing contribute no input.  The file
    count that [Finalize] prints is the number of matched paths, so it
    counts the files that could not be opened too. *)
Theorem wf_Partition_inputs glob fs req :
  (req_Args req = [] -> exists err, wf.Partition glob fs req = inl err) /\
  (req_Args req <> [] ->
   Z.of_nat (length (wf_matches glob (req_Args req))) <= max_int ->
   exists c out,
     wf.Partition glob fs req
       = inr (c, concat (wf_file_inputs fs <$> wf_matches glob (req_Args req)), out) /\
     wf.fileCount c = Z.of_nat (length (wf_matches glob (req_Args req))) /\
     wf.request c = req /\ wf.result c = ∅).
Proof.
  unfold wf.Partition. split.
  - intros ->. simpl. by eexists.
  - intros Hargs Hmax.
    destruct (Z.of_nat (length (req_Args req)) =? 0) eqn:E.
    { by apply length_zero_nil in E. }
    destruct (wf_partition_globs glob fs (req_Args req) (wf.mkWfState req ∅ 0, [], []))
      as (Hc & Hr & Hres & Hin); [simpl; lia|simpl; lia|].
    cbv zeta in Hc, Hr, Hres, Hin. simpl in Hc, Hr, Hres, Hin.
    destruct (fold_left _ _ _) as [[c ins] out]. simpl in *.
    exists c, out. rewrite Hin. by repeat split.
Qed.

Lemma wf_Partition_inputs_witness :
  exists c out,
    wf.Partition wf_example_glob wf_example_fs wf_example_request
      = inr (c, wf.paragraphs wf_hello_world_lines, out) /\
    wf.fileCount c = 2.
Proof.
  assert (Hargs : req_Args wf_example_request <> []) by done.
  assert (Hmax : Z.of_nat (length (wf_matches wf_example_glob (req_Args wf_example_request)))
                 <= max_int) by (by vm_compute).
  destruct (proj2 (wf_Partition_inputs wf_example_glob wf_example_fs wf_example_request)
              Hargs Hmax) as (c & out & Hp & Hc & _).
  exists c, out. split; [|exact Hc].
  rewrite Hp. f_equal.
Defined.

(** ** wf: accumulating word counts *)

Lemma wrap_int_add_l u v : wrap_int (wrap_int u + v) = wrap_int (u + v).
Proof.
  unfold wrap_int. f_equal.
  replace ((u + 2 ^ 63) mod 2 ^ 64 - 2 ^ 63 + v + 2 ^ 63)
    with ((u + 2 ^ 63) mod 2 ^ 64 + v) by lia.
  rewrite Zplus_mod_idemp_l. f_equal. lia.
Qed.

Lemma int_add_swap x a b : int_add (int_add x a) b = int_add (int_add x b) a.
Proof.
  unfold int_add. rewrite !wrap_int_add_l. f_equal. lia.
Qed.

Lemma range_add_lookup entries : forall r w,
  NoDup entries.*1 ->
  wf.range_add entries r !! w = wf_added (list_to_map entries) r w.
Proof.
  unfold wf.range_add, wf_added, wf.WordFrequency.
  induction entries as [|[k c] entries IH]; intros r w Hnd; simpl.
  - by rewrite lookup_empty.
  - apply NoDup_cons in Hnd as [Hk Hnd]. rewrite IH by done.
    destruct (decide (w = k)) as [->|Hne].
    + rewrite (not_elem_of_list_to_map_1 entries k Hk).
      by rewrite !lookup_insert_eq.
    + by rewrite !lookup_insert_ne by done.
Qed.

(** X20.  [Accumulate] of wf adds the counts of a decoded output to the
    result word by word, in [int] arithmetic, a word that is new starting
    from 0; the outcome does not depend on the order in which the runtime
    visits the entries of the map.  An output that cannot be decoded
    changes nothing.  So the result of accumulating two outputs does not
    depend on which of them arrives first. *)
Theorem wf_Accumulate_adds_counts decodeOutput range c o1 o2 :
  (forall m : wf.WordFrequency, range m ≡ₚ map_to_list m) ->
  let acc o c := (wf.Accumulate decodeOutput range o c).1 in
  (forall data, decodeOutput o1 = inr data ->
     (forall w, wf.result (acc o1 c) !! w = wf_added data (wf.result c) w) /\
     wf.request (acc o1 c) = wf.request c /\ wf.fileCount (acc o1 c) = wf.fileCount c) /\
  (forall err, decodeOutput o1 = inl err -> acc o1 c = c) /\
  acc o2 (acc o1 c) = acc o1 (acc o2 c).
Proof.
  intros Hrange acc.
  assert (Hlookup : forall o c data, decodeOutput o = inr data ->
            acc o c = wf.mkWfState (wf.request c)
                        (wf.range_add (range data) (wf.result c)) (wf.fileCount c) /\
            forall w, wf.range_add (range data) (wf.result c) !! w
                      = wf_added data (wf.result c) w).
  { intros o c0 data Hd. subst acc. unfold wf.Accumulate. cbv beta. rewrite Hd.
    split; [done|]. intros w.
    assert (Hnd : NoDup (range data).*1).
    { rewrite (Hrange data). apply NoDup_fst_map_to_list. }
    rewrite range_add_lookup by done. f_equal.
    etrans; [apply (list_to_map_proper (range data) (map_to_list data) Hnd (Hrange data))|].
    apply list_to_map_to_list. }
  assert (Hskip : forall o c err, decodeOutput o = inl err -> acc o c = c).
  { intros o c0 err Hd. subst acc. unfold wf.Accumulate. cbv beta. by rewrite Hd. }
  split; [|split].
  - intros data Hd. destruct (Hlookup o1 c data Hd) as [-> Hw]. by repeat split.
  - apply Hskip.
  - destruct (decodeOutput o1) as [e1|d1] eqn:E1.
    { by rewrite !(Hskip o1 _ e1 E1). }
    destruct (decodeOutput o2) as [e2|d2] eqn:E2.
    { by rewrite !(Hskip o2 _ e2 E2). }
    destruct (Hlookup o1 c d1 E1) as [H1 L1].
    destruct (Hlookup o2 c d2 E2) as [H2 L2].
    destruct (Hlookup o2 (acc o1 c) d2 E2) as [H21 L21].
    destruct (Hlookup o1 (acc o2 c) d1 E1) as [H12 L12].
    rewrite H21, H12. rewrite H1, H2 in *. simpl in *. f_equal.
    apply map_eq. intros w. rewrite L21, L12. unfold wf_added. rewrite L1, L2.
    unfold wf_added.
    destruct (d1 !! w) as [a|], (d2 !! w) as [b|]; simpl; try done.
    f_equal. apply int_add_swap.
Qed.

Lemma wf_Accumulate_adds_counts_witness :
  wf.result
    (wf.Accumulate wf_example_decode map_to_list (bytes_of_string "2")
       (wf.Accumulate wf_example_decode map_to_list (bytes_of_string "1")
          (wf.mkWfState wf_example_request ∅ 0)).1).1 !! "a"%string = Some 5.
Proof.
  assert (Hrange : forall m : wf.WordFrequency, map_to_list m ≡ₚ map_to_list m) by done.
  destruct (wf_Accumulate_adds_counts wf_example_decode map_to_list
              (wf.Accumulate wf_example_decode map_to_list (bytes_of_string "1")
                 (wf.mkWfState wf_example_request ∅ 0)).1
              (bytes_of_string "2") (bytes_of_string "2") Hrange) as (H2 & _).
  destruct (wf_Accumulate_adds_counts wf_example_decode map_to_list
              (wf.mkWfState wf_example_request ∅ 0)
              (bytes_of_string "1") (bytes_of_string "1") Hrange) as (H1 & _).
  destruct (H2 {[ "a"%string := 3 ]} eq_refl) as (L2 & _).
  destruct (H1 {[ "a"%string := 2; "b"%string := 1 ]} eq_refl) as (L1 & _).
  cbv zeta in L1, L2. rewrite L2. unfold wf_added. rewrite L1. unfold wf_added.
  by vm_compute.
Defined.

(** ** Coordinator.Start: leaving without BYE *)

Lemma peer_handles_hello p_id c_id t :
  c_id <> p_id ->
  exists t',
    run_effects (Coordinator_trackCoordinators p_id (Coordinator_announce c_id true)) t
      = Ok (t', [mkActionResult (ComponentRole_String RoleCoordinator) (bytes_of_string p_id)]) /\
    coordinators t' = {[ c_id ]} ∪ coordinators t /\ workers t' = workers t.
Proof.
  intros Hne. unfold Coordinator_trackCoordinators, Coordinator_announce.
  cbn [ac_Params ac_Id ac_Source].
  change (bytes_Equal DataAnnounceJoin DataAnnounceJoin) with true. cbv iota.
  destruct (String.eqb_spec c_id p_id) as [|_]; [done|]. cbn [negb run_effects apply_call].
  change (ParseComponentRole (ComponentRole_String RoleCoordinator)) with RoleCoordinator.
  destruct (TryJoin_adds RoleCoordinator c_id t) as (b & t' & E & Hc & Hw); [by left|].
  rewrite E. exists t'. split; [done|]. split; [exact Hc|].
  apply (Hw RoleWorker); [by right|done].
Qed.

Lemma peer_handles_bye p_id c_id t :
  run_effects (Coordinator_trackCoordinators p_id (Coordinator_announce c_id false)) t
    = Ok (Leave RoleCoordinator c_id t, []) /\
  coordinators (Leave RoleCoordinator c_id t) = coordinators t ∖ {[ c_id ]} /\
  workers (Leave RoleCoordinator c_id t) = workers t.
Proof.
  split; [done|]. split.
  - apply (Leave_role_set RoleCoordinator c_id t RoleCoordinator). by left.
  - apply (Leave_role_set RoleCoordinator c_id t RoleWorker). by right.
Qed.



(** ** pi: the factorials of a partial sum *)

Lemma factorial_succ n : 0 <= n -> factorial (n + 1) = (n + 1) * factorial n.
Proof.
  intros Hn. unfold factorial.
  replace (Z.to_nat (n + 1)) with (S (Z.to_nat n)) by lia.
  cbn [fact]. lia.
Qed.

Lemma foldr_mul_snoc l x : foldr Z.mul 1 (l ++ [x]) = foldr Z.mul 1 l * x.
Proof.
  induction l as [|y l IH]; simpl; [lia|]. rewrite IH. lia.
Qed.

Lemma MulRange_factorial (n : nat) a :
  0 <= a ->
  factorial a * pi.MulRange (a + 1) (a + Z.of_nat n) = factorial (a + Z.of_nat n).
Proof.
  intros Ha. unfold pi.MulRange.
  replace (a + Z.of_nat n - (a + 1) + 1) with (Z.of_nat n) by lia.
  induction n as [|n IH].
  - simpl. rewrite Z.add_0_r. lia.
  - rewrite seqZ_S, foldr_mul_snoc, Z.mul_assoc, IH.
    replace (a + Z.of_nat (S n)) with (a + Z.of_nat n + 1) by lia.
    rewrite factorial_succ by lia. lia.
Qed.

(** X22.  The two big integers that [PartialCompute] of pi divides to get
    the factor mk of the partial sum k are (6k)! and (3k)! * (k!)^3, as its
    comment says, for every iteration value k >= 0 for which 6k is an
    [int64]. *)
Theorem pi_mk_integers_are_factorials K :
  0 <= K -> 6 * K <= max_int ->
  pi.mk_integers K = (factorial (6 * K), factorial (3 * K) * factorial K ^ 3).
Proof.
  intros H0 Hmax. unfold pi.mk_integers, pi.int64_add, pi.int64_mul. cbv zeta.
  rewrite !wrap_int_id by (unfold is_int, min_int, max_int in *; lia).
  assert (Hk : pi.MulRange 2 K = factorial K).
  { destruct (Z.eq_dec K 0) as [->|Hne]; [done|].
    pose proof (MulRange_factorial (Z.to_nat (K - 1)) 1 ltac:(lia)) as H.
    rewrite Z2Nat.id in H by lia.
    replace (1 + (K - 1)) with K in H by lia.
    change (factorial 1) with 1 in H. change (1 + 1) with 2 in H. lia. }
  assert (H3 : factorial K * pi.MulRange (K + 1) (3 * K) = factorial (3 * K)).
  { pose proof (MulRange_factorial (Z.to_nat (2 * K)) K H0) as H.
    rewrite Z2Nat.id in H by lia. replace (K + 2 * K) with (3 * K) in H by lia. done. }
  assert (H6 : factorial (3 * K) * pi.MulRange (3 * K + 1) (6 * K) = factorial (6 * K)).
  { pose proof (MulRange_factorial (Z.to_nat (3 * K)) (3 * K) ltac:(lia)) as H.
    rewrite Z2Nat.id in H by lia. replace (3 * K + 3 * K) with (6 * K) in H by lia. done. }
  rewrite Hk, H3, H6. done.
Qed.

Lemma pi_mk_integers_are_factorials_witness :
  pi.mk_integers 1 = (720, 6).
Proof.
  rewrite (pi_mk_integers_are_factorials 1) by (by vm_compute). by vm_compute.
Defined.

(** X24.  [Partition] of pi accepts exactly the requests with one
    argument that is a non-empty string of decimal digits whose value is
    between 1 and 2^64 - 1, and takes that value as the number of digits;
    a sign, the value 0 and a second argument are rejected. *)
Theorem pi_Partition_accepts_positive_decimal req digits :
  pi.Partition_digits req = inr digits <->
  exists s, req_Args req = [s] /\ s <> ""%string /\ is_decimal s = true /\
            dec_value 0 s = digits /\ 1 <= digits <= max_uint64.
Proof.
  unfold pi.Partition_digits. split.
  - destruct (req_Args req) as [|s [|s' args]] eqn:Eargs; try done.
    + simpl. destruct (strconv.ParseUint s 10 0) as [v [e|]] eqn:E; [done|].
      apply ParseUint_accepted in E as (Hs & Hd & Hv & Hle).
      destruct (Z.eqb_spec v 0); [done|]. intros [= <-].
      exists s. repeat split; try done.
      assert (0 <= v) by (subst v; by apply dec_value_ge). lia.
    + destruct (Z.eqb_spec (Z.of_nat (length (s :: s' :: args))) 1) as [H|_]; [|done].
      simpl in H. lia.
  - intros (s & -> & Hs & Hd & Hv & Hn). simpl.
    rewrite ParseUint_accepts by (try done; lia). rewrite Hv.
    destruct (Z.eqb_spec digits 0); [lia|done].
Qed.

(** ** The loop: the number in flight is the number of running helpers *)

Lemma loop_iter_exact cm cc cw sel (l : LoopState cm) r :
  loop_iter cm (cc, cw) sel l = Some r ->
  0 <= cc <= max_int -> 0 <= cw <= max_int ->
  l_pcProc cm l = Z.of_nat (length (helpers cm l)) ->
  l_pcProc cm l <= max_int ->
  l_pcProc cm (state_of r) = Z.of_nat (length (helpers cm (state_of r))).
Proof.
  intros H Hc Hw Hp Hmax.
  assert (Hdisp : (0 <? Free (mkFreeState cc cw (l_pcProc cm l))) = true ->
                  int_add (l_pcProc cm l) 1 = l_pcProc cm l + 1).
  { intros Hf. apply Free_positive in Hf as (? & ? & ?); [|lia..].
    unfold int_add. apply wrap_int_id. unfold is_int, min_int, max_int in *. lia. }
  destruct sel as [| | |k rep|]; cbn [loop_iter fst snd] in H.
  - by injection H as <-.
  - destruct (0 <? Free _) eqn:Ef; [|done]. specialize (Hdisp eq_refl).
    destruct (in_ cm l) as [ch|]; [|done].
    destruct (cm_recv cm ch) as [[input ch1]|].
    + injection H as <-. simpl. rewrite Hdisp, length_app. simpl. lia.
    + destruct (all_completed _ _); by injection H as <-.
  - destruct (0 <? Free _) eqn:Ef; [|done]. specialize (Hdisp eq_refl).
    destruct (pcResubmit cm l) as [|input q]; [done|].
    injection H as <-. simpl. rewrite Hdisp, length_app. simpl. lia.
  - destruct (helpers cm l !! k) as [input|] eqn:Ek; [|done].
    pose proof (length_helpers_delete _ _ _ Ek) as Hdel.
    pose proof (lookup_lt_Some _ _ _ Ek) as Hlt.
    assert (Hsub : int_sub (l_pcProc cm l) 1 = Z.of_nat (length (delete k (helpers cm l)))).
    { unfold int_sub. rewrite wrap_int_id; [lia|].
      unfold is_int, min_int, max_int in *. lia. }
    destruct (performPartialComputation input rep) as [res|]; [|done].
    destruct (pr_resubmit res).
    + simpl in H. destruct (_ <? pcResubmit_cap); by injection H as <-.
    + destruct (len (pr_data res) =? 0); [by injection H as <-|].
      simpl in H. destruct (Accumulate cm (pr_data res) (cmState cm l)) as [st' ws].
      destruct (_ && _); by injection H as <-.
  - by injection H as <-.
Qed.

Lemma exact_step cm req start c_id e (s s' : Sys cm) :
  sys_step cm req start c_id e s = Some (Ok s') ->
  match e with EvHelperCanceled _ => False | _ => True end ->
  counting_inv s ->
  l_pcProc cm (loop cm s) = Z.of_nat (length (helpers cm (loop cm s))) ->
  l_pcProc cm (loop cm s') = Z.of_nat (length (helpers cm (loop cm s'))).
Proof.
  intros H He [Hfit Hp] Hex.
  assert (Htrack : forall es, track cm es s = Some (Ok s') ->
            l_pcProc cm (loop cm s') = Z.of_nat (length (helpers cm (loop cm s')))).
  { intros es Ht. unfold track in Ht.
    destruct (run_effects es (tracker cm s)) as [[t' rs]|]; [|done].
    destruct (fits t'); [|done]. by injection Ht as <-. }
  destruct e as [ar | ac | evt | k | sel]; cbn [sys_step] in H; eauto; [done|].
  destruct (exited cm s); [done|].
  destruct (fits_counts _ Hfit) as [Hc Hw].
  destruct (loop_iter cm (Count (tracker cm s)) sel (loop cm s)) as [r|] eqn:E; [|done].
  assert (E' : loop_iter cm (fst (Count (tracker cm s)), snd (Count (tracker cm s)))
                 sel (loop cm s) = Some r) by (by destruct (Count (tracker cm s))).
  pose proof (loop_iter_exact cm _ _ sel _ r E' Hc Hw Hex ltac:(lia)) as Hr.
  destruct r as [l' | l']; injection H as <-; simpl in *; [done|].
  destruct (after_loop_counting cm req start l') as [-> ->]. done.
Qed.

(** X23.  In a run in which no helper returns without sending its result,
    the number in flight that the loop keeps in [pcProc] is, between
    iterations, exactly the number of helper goroutines that have been
    started and have not yet delivered their result. *)
Theorem in_flight_counts_running_helpers cm req start c_id tr t (st : cm_State cm) ch
    (s : Sys cm) :
  fits t = true ->
  no_cancel tr ->
  s ∈ visited cm req start c_id tr (sys_init cm t st ch) ->
  l_pcProc cm (loop cm s) = Z.of_nat (length (helpers cm (loop cm s))).
Proof.
  intros Hfit Hnc Hs.
  assert (Hgen : forall tr s0,
            no_cancel tr -> counting_inv s0 ->
            l_pcProc cm (loop cm s0) = Z.of_nat (length (helpers cm (loop cm s0))) ->
            forall s, s ∈ visited cm req start c_id tr s0 ->
            l_pcProc cm (loop cm s) = Z.of_nat (length (helpers cm (loop cm s)))).
  { clear. unfold visited, no_cancel.
    induction tr as [|e tr IH]; intros s0 Hnc Hc H0 s Hs; simpl in Hs.
    - apply list_elem_of_singleton in Hs. by subst.
    - apply elem_of_cons in Hs as [-> | Hs]; [done|].
      apply Forall_cons in Hnc as [He Hnc].
      destruct (sys_step cm req start c_id e s0) as [[s1|]|] eqn:E;
        try by apply elem_of_nil in Hs.
      apply (IH s1); try done.
      + by apply (counting_inv_step cm req start c_id e s0 s1 E).
      + by apply (exact_step cm req start c_id e s0 s1 E). }
  apply (Hgen tr (sys_init cm t st ch)); done.
Qed.

Lemma in_flight_counts_running_helpers_witness :
  Forall (fun s => l_pcProc _ (loop _ s) = Z.of_nat (length (helpers _ (loop _ s))))
    (visited fac.FacComputation fac5_request 0 "c1" workers_leave_schedule fac5_init).
Proof.
  apply Forall_forall. intros s Hs.
  assert (Hfit : fits (mkTracker {[ "c1"%string ]} ∅) = true) by (by vm_compute).
  assert (Hnc : no_cancel workers_leave_schedule).
  { unfold no_cancel, workers_leave_schedule. repeat constructor. }
  exact (in_flight_counts_running_helpers fac.FacComputation fac5_request 0 "c1"
           workers_leave_schedule _ _ _ s Hfit Hnc Hs).
Defined.
